(** * exchangelib.util: transport retry loop and streaming parsers

    A shallow embedding of the retrying POST executor ([post_ratelimited]
    and its helpers), the redirect resolver ([get_redirect_url]), the
    streaming document splitter ([DocumentYielder]) and the streaming
    base64 parser ([StreamingBase64Parser]) of [exchangelib/util.py],
    with the properties stated about them.

    Python [bytes] values are lists of [byte], Python [str] values are
    lists of [ascii]; integers and clock readings are [Z]. *)

From Stdlib Require Import Strings.String Strings.Ascii Strings.Byte.
From Stdlib Require Import List ZArith Lia Bool.
Import ListNotations.

Set Implicit Arguments.

(** ** Python values *)

Definition bytes := list byte.
Definition str := list ascii.

(** Literals: [B "<?xml"] is the bytes literal b'<?xml', [U "https"] the
    str literal 'https'. *)
Definition B (s : string) : bytes := list_byte_of_string s.
Definition U (s : string) : str := list_ascii_of_string s.

Fixpoint bytes_eqb (x y : bytes) : bool :=
  match x, y with
  | [], [] => true
  | a :: x', c :: y' => Byte.eqb a c && bytes_eqb x' y'
  | _, _ => false
  end.

Fixpoint str_eqb (x y : str) : bool :=
  match x, y with
  | [], [] => true
  | a :: x', c :: y' => Ascii.eqb a c && str_eqb x' y'
  | _, _ => false
  end.

(** [s.startswith(p)] and [s.endswith(p)] on bytes. *)
Definition startswith (s p : bytes) : bool :=
  bytes_eqb (firstn (length p) s) p.

Definition endswith (s p : bytes) : bool :=
  (length p <=? length s)%nat && bytes_eqb (skipn (length s - length p) s) p.

(** [needle in haystack] on bytes. *)
Fixpoint bytes_in (needle haystack : bytes) : bool :=
  startswith haystack needle ||
  match haystack with
  | [] => false
  | _ :: h' => bytes_in needle h'
  end.

(** ** DocumentYielder *)

Module DocumentYielder.

(** The object state set up by [__init__]; the content iterator is
    threaded through the methods explicitly. *)
Record t := mk { _start_token : bytes; _end_token : bytes }.

Definition __init__ (document_tag : string) : t :=
  {| _start_token := B "<" ++ B document_tag;
     _end_token := B "/" ++ B document_tag ++ B ">" |}.

(** The synthesized declaration each emitted document starts with
    (the trailing byte is the newline of the format string). *)
Definition xml_declaration : bytes :=
  B "<?xml version='1.0' encoding='utf-8'?>" ++ [x0a].

(** [get_tag]: reads items up to and including [stop_byte], or to the end
    of the iterator; returns the joined tag and the rest of the iterator. *)
Fixpoint get_tag_loop (stop_byte : bytes) (it : list bytes)
         (tag_buffer : list bytes) : list bytes * list bytes :=
  match it with
  | [] => (tag_buffer, [])
  | c :: it' =>
      if bytes_eqb c stop_byte then (tag_buffer ++ [c], it')
      else get_tag_loop stop_byte it' (tag_buffer ++ [c])
  end.

Definition get_tag (stop_byte : bytes) (it : list bytes)
  : bytes * list bytes :=
  let (tag_buffer, it') := get_tag_loop stop_byte it [B "<"] in
  (concat tag_buffer, it').

(** The [while True] loop of [__iter__]. Every turn takes at least one
    item from the iterator, so [fuel] above the number of items left is
    never used up; [None] marks exhausted fuel. The result lists the
    yielded documents in order. *)
Fixpoint iter_loop (self : t) (fuel : nat) (it : list bytes)
         (doc_started : bool) (buffer : list bytes)
  : option (list bytes) :=
  match fuel with
  | O => None
  | S fuel' =>
      match it with
      | [] => Some []
      | c :: it1 =>
          if negb doc_started && bytes_eqb c (B "<") then
            let (tag, it2) := get_tag (B " ") it1 in
            if startswith tag (_start_token self)
            then iter_loop self fuel' it2 true (buffer ++ [tag])
            else iter_loop self fuel' it2 doc_started buffer
          else if doc_started && bytes_eqb c (B "<") then
            let (tag, it2) := get_tag (B ">") it1 in
            let buffer := buffer ++ [tag] in
            if endswith tag (_end_token self)
            then option_map (cons (xml_declaration ++ concat buffer))
                            (iter_loop self fuel' it2 false [])
            else iter_loop self fuel' it2 doc_started buffer
          else if doc_started
          then iter_loop self fuel' it1 doc_started (buffer ++ [c])
          else iter_loop self fuel' it1 doc_started buffer
      end
  end.

(** The loop entered with a given state, with fuel that suffices. *)
Definition resume (self : t) (it : list bytes) (doc_started : bool)
           (buffer : list bytes) : option (list bytes) :=
  iter_loop self (S (length it)) it doc_started buffer.

Definition __iter__ (self : t) (it : list bytes) : option (list bytes) :=
  resume self it false [].

(** An iterator handing out a byte string one byte at a time. *)
Definition byte_by_byte (data : bytes) : list bytes :=
  map (fun c => [c]) data.

End DocumentYielder.

(** ** Exceptions and results *)

(** The exception classes raised by the modelled code, with the attributes
    the code sets on them. *)
(** What a [TransportError] is raised for; the data formatted into its
    message is kept. *)
Inductive transport_failure :=
| TlsFailure (tag : nat)
| NoLocationHeader
| SameLocation (redirect_url : str)
| RedirectNotAllowed (response_url redirect_url : str)
| MaxRedirectsExceeded
| AccountLockedOut
| UnknownFailure (status_code : Z).

Inductive exn :=
| TransportError (why : transport_failure)
| RateLimitError (url : str) (status_code : Z) (total_wait : Z)
| RedirectError (url : str)
| RelativeRedirect (url : str)
| CASError (cas_error : str)
| ErrorInvalidSchemaVersionForMailboxVersion
| UnauthorizedError (url : str)
| ElementNotFound (data : bytes)
| SAXParseException
| Base64Error
| KeyError (key : str)
| ValueError
| TypeError
| AttributeError
| ConnectionFailure (tag : nat)
| OtherException (tag : nat).

Inductive result (A : Type) :=
| Ok (a : A)
| Raise (e : exn).
Arguments Ok {A} a.
Arguments Raise {A} e.

(** A small error monad for code that raises. *)
Definition bind {A C : Type} (m : result A) (k : A -> result C) : result C :=
  match m with
  | Ok a => k a
  | Raise e => Raise e
  end.

Notation "x <- m ;; k" := (bind m (fun x => k))
  (at level 61, m at next level, right associativity).
Notation "' p <- m ;; k" := (bind m (fun x => let p := x in k))
  (at level 61, p pattern, m at next level, right associativity).

(** ** str operations *)

Module Str.

(** [c in s] *)
Fixpoint mem (c : ascii) (s : str) : bool :=
  match s with
  | [] => false
  | a :: s' => Ascii.eqb a c || mem c s'
  end.

(** [s.find(c)]: the index of the first [c], or the length of [s] with
    [None] for Python's -1. *)
Fixpoint find (c : ascii) (s : str) : option nat :=
  match s with
  | [] => None
  | a :: s' => if Ascii.eqb a c then Some 0%nat else option_map S (find c s')
  end.

(** [s.rfind(c)] *)
Fixpoint rfind (c : ascii) (s : str) : option nat :=
  match s with
  | [] => None
  | a :: s' =>
      match rfind c s' with
      | Some i => Some (S i)
      | None => if Ascii.eqb a c then Some 0%nat else None
      end
  end.

(** [s.find(c, start)] *)
Definition find_from (c : ascii) (start : nat) (s : str) : option nat :=
  option_map (fun i => (start + i)%nat) (find c (skipn start s)).

Definition lower_char (c : ascii) : ascii :=
  let n := N_of_ascii c in
  if ((65 <=? n) && (n <=? 90))%N then ascii_of_N (n + 32) else c.

(** [s.lower()] *)
Definition lower (s : str) : str := map lower_char s.

(** [s.startswith(p)] *)
Definition startswith (s p : str) : bool := str_eqb (firstn (length p) s) p.

Definition is_space (c : ascii) : bool :=
  let n := N_of_ascii c in ((9 <=? n) && (n <=? 13))%N || (n =? 32)%N.

Fixpoint lstrip (s : str) : str :=
  match s with
  | c :: s' => if is_space c then lstrip s' else s
  | [] => []
  end.

(** [s.strip()] *)
Definition strip (s : str) : str := rev (lstrip (rev (lstrip s))).

(** [s.split(c, 1)] when [c] occurs in [s]: the parts before and after the
    first [c]. *)
Definition split1 (c : ascii) (s : str) : option (str * str) :=
  option_map (fun i => (firstn i s, skipn (S i) s)) (find c s).

End Str.

(** ** urllib.parse.urlparse

    [split_url] reads the scheme, the network location and the path from
    [urlparse] of the Python standard library. The definitions below follow
    [urlsplit] and [urlparse] of CPython 3.8 for these three components, on
    ASCII text. *)

Module Urllib.
Import Str.

Definition scheme_chars : str :=
  U "abcdefghijklmnopqrstuvwxyzABCDEFGHIJKLMNOPQRSTUVWXYZ0123456789+-.".

Definition is_digit (c : ascii) : bool := mem c (U "0123456789").

(** [uses_params]; its first entry is the empty scheme. *)
Definition uses_params : list str :=
  [] :: map U ["ftp"; "hdl"; "prospero"; "http"; "imap"; "https"; "shttp";
               "rtsp"; "rtspu"; "sip"; "sips"; "mms"; "sftp"; "tel"]%string.

(** [_splitnetloc(url, start)]: the network location runs up to the first
    of [/], [?] and [#]. *)
Definition _splitnetloc (url : str) (start : nat) : str * str :=
  let delim :=
    fold_left
      (fun delim c =>
         match find_from c start url with
         | Some wdelim => Nat.min delim wdelim
         | None => delim
         end)
      (U "/?#") (length url) in
  (skipn start (firstn delim url), skipn delim url).

Definition unbalanced_brackets (netloc : str) : bool :=
  (mem "[" netloc && negb (mem "]" netloc))
  || (mem "]" netloc && negb (mem "[" netloc)).

(** The part of [urlsplit] after the scheme is settled: network location,
    then fragment and query are cut off the path. *)
Definition split_after_scheme (scheme url : str) : result (str * str * str) :=
  '(netloc, url) <-
    (if str_eqb (firstn 2 url) (U "//")
     then let (netloc, url) := _splitnetloc url 2 in
          if unbalanced_brackets netloc then Raise ValueError
          else Ok (netloc, url)
     else Ok ([], url)) ;;
  let url := match split1 "#" url with Some (u, _) => u | None => url end in
  let url := match split1 "?" url with Some (u, _) => u | None => url end in
  Ok (scheme, netloc, url).

Definition urlsplit (url : str) : result (str * str * str) :=
  match find ":" url with
  | Some (S i') =>
      let i := S i' in
      if str_eqb (firstn i url) (U "http")
      then split_after_scheme (U "http") (skipn (S i) url)
      else if forallb (fun c => mem c scheme_chars) (firstn i url) then
        let rest := skipn (S i) url in
        if match rest with [] => true | _ => false end
           || existsb (fun c => negb (is_digit c)) rest
        then split_after_scheme (lower (firstn i url)) rest
        else split_after_scheme [] url
      else split_after_scheme [] url
  | _ => split_after_scheme [] url
  end.

(** [_splitparams(url)], the path it returns. *)
Definition _splitparams (url : str) : str :=
  let i := if mem "/" url
           then match rfind "/" url with
                | Some j => find_from ";" j url
                | None => find ";" url
                end
           else find ";" url in
  match i with
  | Some i => firstn i url
  | None => url
  end.

(** [urlparse(url)]: scheme, netloc and path. *)
Definition urlparse (url : str) : result (str * str * str) :=
  '(scheme, netloc, url) <- urlsplit url ;;
  let path := if existsb (str_eqb scheme) uses_params && mem ";" url
              then _splitparams url else url in
  Ok (scheme, netloc, path).

End Urllib.

(** ** Responses *)

(** A header value: text on a real response; [DummyResponse] stores the
    exception it stands for. *)
Inductive header_value :=
| HStr (s : str)
| HExc (e : exn).

(** The headers mapping: requests' case-insensitive dict on a real
    response, a plain dict on a [DummyResponse]. *)
Record headers_t := mk_headers {
  case_insensitive : bool;
  items : list (str * header_value)
}.

Definition key_eqb (ci : bool) (k1 k2 : str) : bool :=
  if ci then str_eqb (Str.lower k1) (Str.lower k2) else str_eqb k1 k2.

(** [headers.get(key)] *)
Definition headers_get (h : headers_t) (key : str) : option header_value :=
  option_map snd
    (List.find (fun kv => key_eqb (case_insensitive h) (fst kv) key) (items h)).

(** Python truth of [headers.get(key)] *)
Definition truthy (v : option header_value) : bool :=
  match v with
  | Some (HStr []) => false
  | Some _ => true
  | None => false
  end.

Record Response := mk_response {
  status_code : Z;
  url : str;
  headers : headers_t;
  content : bytes;
  history : list str
}.

(** [DummyResponse(url, headers, request_headers, content=b'',
    status_code=503, history=None)] *)
Definition DummyResponse (url : str) (headers : list (str * header_value))
           (status_code : Z) : Response :=
  mk_response status_code url (mk_headers false headers) [] [].

(** ** Redirect resolution *)

Definition split_url (url : str) : result (bool * str * str) :=
  '(scheme, netloc, path) <- Urllib.urlparse url ;;
  Ok (str_eqb scheme (U "https"), Str.lower netloc, path).

Definition get_redirect_url (response : Response)
           (allow_relative require_relative : bool) : result str :=
  match headers_get (headers response) (U "location") with
  | None | Some (HStr []) => Raise (TransportError NoLocationHeader)
  | Some (HExc _) => Raise TypeError
  | Some (HStr redirect_url) =>
      '(redirect_has_ssl, redirect_server, redirect_path) <-
        split_url redirect_url ;;
      let request_url := match history response with
                         | h0 :: _ => h0
                         | [] => url response
                         end in
      '(request_has_ssl, request_server, _) <- split_url request_url ;;
      '(response_has_ssl, response_server, response_path) <-
        split_url (url response) ;;
      let '(redirect_server, redirect_has_ssl) :=
        match redirect_server with
        | [] => (response_server, response_has_ssl)
        | _ => (redirect_server, redirect_has_ssl)
        end in
      let redirect_path :=
        if Str.startswith redirect_path (U "/") then redirect_path
        else match response_path with
             | [] => U "/"
             | _ => response_path
             end ++ redirect_path in
      let redirect_url :=
        (if redirect_has_ssl then U "https" else U "http")
          ++ U "://" ++ redirect_server ++ redirect_path in
      if str_eqb redirect_url request_url
      then Raise (TransportError (SameLocation redirect_url))
      else if negb allow_relative
              && (Bool.eqb request_has_ssl response_has_ssl
                  && str_eqb request_server redirect_server)
      then Raise (RelativeRedirect redirect_url)
      else if require_relative
              && (negb (Bool.eqb request_has_ssl response_has_ssl)
                  || negb (str_eqb request_server redirect_server))
      then Raise (RelativeRedirect redirect_url)
      else Ok redirect_url
  end.

(** The URL the redirect is compared with: the first URL of the redirect
    history, or the URL of the response. *)
Definition request_url (response : Response) : str :=
  match history response with
  | h0 :: _ => h0
  | [] => url response
  end.

Definition scheme_of (has_ssl : bool) : str :=
  if has_ssl then U "https" else U "http".

Definition RETRY_WAIT : Z := 10.
Definition MAX_REDIRECTS : Z := 10.

(** [BOM_UTF8] of [codecs] *)
Definition BOM_UTF8 : bytes := [xef; xbb; xbf].

(** [is_xml(text)] with the default [expected_prefix] *)
Definition is_xml (text : bytes) : bool :=
  let expected_prefix := B "<?xml" in
  let bom_len := length BOM_UTF8 in
  let prefix_len := length expected_prefix in
  let prefix :=
    if bytes_eqb (firstn bom_len text) BOM_UTF8
    then firstn prefix_len (skipn bom_len text)
    else firstn prefix_len text in
  bytes_eqb prefix expected_prefix.

(** ** The retrying request executor *)

Module Executor.
Local Open Scope Z_scope.

(** Sessions are opaque handles; the protocol hands out fresh ones. *)
Definition session_t := nat.

(** [protocol.retry_policy]: the settings the executor reads. The shared
    [back_off_until] lives in the [world] below. *)
Record RetryPolicy := mk_policy {
  fail_fast : bool;
  max_wait : Z
}.

(** How one [session.post] call ends. *)
Inductive post_outcome :=
  | Responds (r : Response)
  | RaisesTlsError (tag : nat)
  | RaisesConnectionError (tag : nat)
  | RaisesTokenExpiredError (tag : nat)
  | RaisesKeyError (key : str)
  | RaisesOther (e : exn).

(** What the executor does to its collaborators, in order. *)
Inductive event :=
  | Sleep (secs : Z)
  | RenewSession (old new : session_t)
  | RefreshCredentials (old new : session_t)
  | Post (session : session_t) (url : str)
  | Close (status_code : Z)
  | BackOff (wait : Z)
  | RetireSession (session : session_t).

(** The surroundings of a call: the clock (in seconds; one clock serves
    [time.monotonic] and [datetime.now]), the policy's shared
    [back_off_until], the supply of session handles and the events so
    far. *)
Record world := mk_world {
  now : Z;
  back_off_until : option Z;
  next_session : session_t;
  trace : list event
}.

Definition log (ev : event) (w : world) : world :=
  mk_world (now w) (back_off_until w) (next_session w) (trace w ++ [ev]).

Definition tick (secs : Z) (w : world) : world :=
  mk_world (now w + secs) (back_off_until w) (next_session w) (trace w).

(** Modelled from the spec: [RetryPolicy.back_off(seconds)] of the protocol
    module, which is not among the sources. It records the cool-down as a
    [back_off_until] timestamp [seconds] from now, and a later, smaller
    cool-down does not shorten a pending one. *)
Definition back_off (seconds : Z) (w : world) : world :=
  let value := now w + seconds in
  let until := match back_off_until w with
               | Some t => Z.max t value
               | None => value
               end in
  log (BackOff seconds)
      (mk_world (now w) (Some until) (next_session w) (trace w)).

(** [protocol.renew_session], [protocol.refresh_credentials] and
    [protocol.retire_session]: external operations, recorded in the trace;
    the first two return a fresh handle. *)
Definition renew_session (s : session_t) (w : world) : session_t * world :=
  let s' := next_session w in
  (s', log (RenewSession s s')
           (mk_world (now w) (back_off_until w) (S s') (trace w))).

Definition refresh_credentials (s : session_t) (w : world)
  : session_t * world :=
  let s' := next_session w in
  (s', log (RefreshCredentials s s')
           (mk_world (now w) (back_off_until w) (S s') (trace w))).

Definition retire_session (s : session_t) (w : world) : world :=
  log (RetireSession s) w.

Definition _back_off_if_needed (w : world) : bool * world :=
  match back_off_until w with
  | Some t =>
      let sleep_secs := t - now w in
      if 0 <? sleep_secs
      then (true, log (Sleep sleep_secs) (tick sleep_secs w))
      else (false, w)
  | None => (false, w)
  end.

Definition generic_error_page : str :=
  U "/ews/genericerrorpage.htm?aspxerrorpath=/ews/exchange.asmx".

Definition server_error_marker : bytes :=
  B "Server Error in '/EWS' Application".

Definition header_is (v : option header_value) (s : str) : bool :=
  match v with
  | Some (HStr x) => str_eqb x s
  | _ => false
  end.

(** [response.headers.get('location', '').lower()]; a value that is not
    text has no [lower]. *)
Definition location_lower (response : Response) : option str :=
  match headers_get (headers response) (U "location") with
  | None => Some []
  | Some (HStr x) => Some (Str.lower x)
  | Some (HExc _) => None
  end.

Definition retry_status (code : Z) : bool :=
  (code =? 301) || (code =? 302) || (code =? 401) || (code =? 500)
  || (code =? 503).

Definition _may_retry_on_error (response : Response)
           (retry_policy : RetryPolicy) (wait : Z) : result bool :=
  if negb (retry_status (status_code response)) then Ok false
  else if fail_fast retry_policy then Ok false
  else if max_wait retry_policy <? wait then
    Raise (RateLimitError (url response) (status_code response) wait)
  else if status_code response =? 401 then Ok true
  else if header_is (headers_get (headers response) (U "connection"))
                    (U "close") then Ok true
  else
    generic <-
      (if status_code response =? 302 then
         match location_lower response with
         | Some l => Ok (str_eqb l generic_error_page)
         | None => Raise TypeError
         end
       else Ok false) ;;
    if generic then Ok true
    else if status_code response =? 503 then Ok true
    else if (status_code response =? 500)
            && bytes_in server_error_marker (content response) then Ok true
    else Ok false.

Definition _need_new_credentials (response : Response) : bool :=
  (status_code response =? 401)
  && truthy (headers_get (headers response) (U "TokenExpiredError")).

Definition _redirect_or_fail (response : Response) (redirects : Z)
           (allow_redirects : bool) : result (str * Z) :=
  match get_redirect_url response false false with
  | Raise (RelativeRedirect value) => Raise (RedirectError value)
  | Raise e => Raise e
  | Ok redirect_url =>
      if negb allow_redirects
      then Raise (TransportError
                    (RedirectNotAllowed (url response) redirect_url))
      else
        let redirects := redirects + 1 in
        if MAX_REDIRECTS <? redirects
        then Raise (TransportError MaxRedirectsExceeded)
        else Ok (redirect_url, redirects)
  end.

(** [_raise_response_errors]: the exception it raises. *)
Definition _raise_response_errors (response : Response)
           (retry_policy : RetryPolicy) : exn :=
  let cas := headers_get (headers response) (U "X-CasErrorCode") in
  if truthy cas then
    match cas with
    | Some (HStr cas_error) =>
        if Str.startswith cas_error (U "CAS error:")
        then match Str.split1 ":" cas_error with
             | Some (_, rest) => CASError (Str.strip rest)
             | None => CASError cas_error
             end
        else CASError cas_error
    | _ => TypeError
    end
  else if (status_code response =? 500)
          && (bytes_in (B "The specified server version is invalid")
                       (content response)
              || bytes_in (B "ErrorInvalidSchemaVersionForMailboxVersion")
                          (content response))
  then ErrorInvalidSchemaVersionForMailboxVersion
  else if bytes_in (B "The referenced account is currently locked out")
                   (content response)
  then TransportError AccountLockedOut
  else if (status_code response =? 401) && fail_fast retry_policy
  then UnauthorizedError (url response)
  else
    match headers_get (headers response) (U "TimeoutException") with
    | Some (HExc e) => e
    | Some (HStr _) => TypeError
    | None => TransportError (UnknownFailure (status_code response))
    end.

(** The local variables of [post_ratelimited] that change in the loop
    ([post_url] is the local [url]). *)
Record locals := mk_locals {
  session : session_t;
  post_url : str;
  wait : Z;
  retry : Z;
  redirects : Z
}.

(** The response the loop goes on with after [session.post], or the
    exception that leaves the loop. *)
Definition received (l : locals) (outcome : post_outcome) : result Response :=
  match outcome with
  | Responds r => Ok r
  | RaisesTlsError tag => Raise (TransportError (TlsFailure tag))
  | RaisesConnectionError tag =>
      Ok (DummyResponse (post_url l)
            [(U "TimeoutException", HExc (ConnectionFailure tag))] 503)
  | RaisesTokenExpiredError tag =>
      Ok (DummyResponse (post_url l)
            [(U "TokenExpiredError", HExc (OtherException tag))] 401)
  | RaisesKeyError key =>
      if negb (str_eqb key (U "www-authenticate")) then Raise (KeyError key)
      else Ok (DummyResponse (post_url l)
                 [(U "KeyError", HExc (KeyError key))] 503)
  | RaisesOther e => Raise e
  end.

Inductive loop_exit :=
  | Break (r : Response)
  | Raised (e : exn)
  | Starved.

(** The [while True] loop. Each turn makes one [session.post] call, whose
    outcome and duration are the head of [script]; [Starved] says the script
    ended before the loop did. *)
Fixpoint retry_loop (retry_policy : RetryPolicy) (allow_redirects : bool)
         (t_start : Z) (script : list (post_outcome * Z))
         (l : locals) (w : world) : loop_exit * locals * world :=
  match script with
  | [] => (Starved, l, w)
  | (outcome, response_time) :: script' =>
      let (backed_off, w) := _back_off_if_needed w in
      let (s, w) := if backed_off then renew_session (session l) w
                    else (session l, w) in
      let l := mk_locals s (post_url l) (wait l) (retry l) (redirects l) in
      let w := tick response_time (log (Post s (post_url l)) w) in
      match received l outcome with
      | Raise e => (Raised e, l, w)
      | Ok r =>
          if _need_new_credentials r then
            let w := log (Close (status_code r)) w in
            let (s, w) := refresh_credentials (session l) w in
            retry_loop retry_policy allow_redirects t_start script'
              (mk_locals s (post_url l) (wait l) (retry l) (redirects l)) w
          else
            let total_wait := now w - t_start in
            match _may_retry_on_error r retry_policy total_wait with
            | Raise e => (Raised e, l, w)
            | Ok true =>
                let w := log (Close (status_code r)) w in
                let w := back_off (wait l) w in
                retry_loop retry_policy allow_redirects t_start script'
                  (mk_locals (session l) (post_url l) (wait l * 2)
                             (retry l + 1) (redirects l)) w
            | Ok false =>
                if (status_code r =? 301) || (status_code r =? 302) then
                  let w := log (Close (status_code r)) w in
                  match _redirect_or_fail r (redirects l) allow_redirects with
                  | Raise e => (Raised e, l, w)
                  | Ok (url', redirects') =>
                      retry_loop retry_policy allow_redirects t_start script'
                        (mk_locals (session l) url' (wait l) (retry l)
                                   redirects') w
                  end
                else (Break r, l, w)
            end
      end
  end.

Inductive outcome :=
  | Returns (r : Response) (session : session_t)
  | Raises (e : exn)
  | TransportStarved.

Definition initial_locals (session : session_t) (url : str) : locals :=
  mk_locals session url RETRY_WAIT 0 0.

(** What follows the loop: the [except] clauses, which retire the session
    and re-raise, and the classification of the response the loop broke
    with. *)
Definition after_loop (retry_policy : RetryPolicy)
           (x : loop_exit * locals * world) : outcome * world :=
  match x with
  | (Raised e, l, w) => (Raises e, retire_session (session l) w)
  | (Starved, _, w) => (TransportStarved, w)
  | (Break r, l, w) =>
      if (status_code r =? 500)
         && match content r with [] => false | _ => true end
         && is_xml (content r)
      then (Returns r (session l), w)
      else if negb (status_code r =? 200)
      then (Raises (_raise_response_errors r retry_policy),
            retire_session (session l) w)
      else (Returns r (session l), w)
  end.

Definition post_ratelimited (retry_policy : RetryPolicy)
           (script : list (post_outcome * Z)) (session0 : session_t)
           (url : str) (allow_redirects : bool) (w : world)
  : outcome * world :=
  let t_start := now w in
  after_loop retry_policy
    (retry_loop retry_policy allow_redirects t_start script
                (initial_locals session0 url) w).

(** The session a call holds after the events [evs]. *)
Definition current_session (session0 : session_t) (evs : list event)
  : session_t :=
  fold_left (fun s ev =>
               match ev with
               | RenewSession _ s' | RefreshCredentials _ s' => s'
               | _ => s
               end) evs session0.

Definition is_retire (ev : event) : bool :=
  match ev with RetireSession _ => true | _ => false end.

Definition is_back_off (ev : event) : bool :=
  match ev with BackOff _ => true | _ => false end.

Definition is_post (ev : event) : bool :=
  match ev with Post _ _ => true | _ => false end.

(** The waits passed to [back_off], in order. *)
Definition back_offs (evs : list event) : list Z :=
  flat_map (fun ev => match ev with BackOff x => [x] | _ => [] end) evs.

(** The top of a turn of the loop, up to the return of [session.post]
    after [response_time]: the locals and the world at that point. *)
Definition arrive (l : locals) (w : world) (response_time : Z)
  : locals * world :=
  let (backed_off, w) := _back_off_if_needed w in
  let (s, w) := if backed_off then renew_session (session l) w
                else (session l, w) in
  let l := mk_locals s (post_url l) (wait l) (retry l) (redirects l) in
  (l, tick response_time (log (Post s (post_url l)) w)).

(** The clock once a pending back-off has been slept out. *)
Definition wake (w : world) : Z :=
  match back_off_until w with
  | Some t => Z.max (now w) t
  | None => now w
  end.

(** The clock at the return of each of a run of posts that are all
    retried: [t] is the clock at the first post, [wait] the back-off
    recorded after it, [ds] the response times. *)
Fixpoint arrival_times (t wait : Z) (ds : list Z) : list Z :=
  match ds with
  | [] => []
  | d :: ds' => (t + d) :: arrival_times (t + d + wait) (wait * 2) ds'
  end.

(** The clock at the post that follows such a run. *)
Fixpoint next_wake (t wait : Z) (ds : list Z) : Z :=
  match ds with
  | [] => t
  | d :: ds' => next_wake (t + d + wait) (wait * 2) ds'
  end.

(** The events of a stretch of a call that leave the session with the
    caller: none retires it. *)
Definition keeps_session (evs : list event) : Prop :=
  forallb (fun ev => negb (is_retire ev)) evs = true.

(** The script of a run of responses with their response times. *)
Definition responses (rds : list (Response * Z)) : list (post_outcome * Z) :=
  map (fun rd => (Responds (fst rd), snd rd)) rds.

(** The waits of the first [k] retries when the first is [wait]. *)
Definition doubling (wait : Z) (k : nat) : list Z :=
  map (fun i => wait * 2 ^ Z.of_nat i) (seq 0 k).

End Executor.

(** ** base64.b64decode

    [base64.b64decode] of the Python standard library on text, as
    [binascii.a2b_base64] of CPython works without strict mode: characters
    outside the alphabet are skipped, a pad sequence that completes a group
    ends the decoding, whatever follows, and a group left unfinished is an
    error. *)

Module Base64.

(** The value of a character of the base64 alphabet. *)
Definition value (c : ascii) : option N :=
  let n := N_of_ascii c in
  if ((65 <=? n) && (n <=? 90))%N then Some (n - 65)%N
  else if ((97 <=? n) && (n <=? 122))%N then Some (n - 71)%N
  else if ((48 <=? n) && (n <=? 57))%N then Some (n + 4)%N
  else if (n =? 43)%N then Some 62%N
  else if (n =? 47)%N then Some 63%N
  else None.

Definition byte_of_N (n : N) : byte :=
  match Byte.of_N (n mod 256) with Some x => x | None => x00 end.

Definition is_pad (c : ascii) : bool := Ascii.eqb c "=".

Definition alphabet (c : ascii) : bool :=
  match value c with Some _ => true | None => false end.

(** Text that holds characters of the alphabet only: no padding, no white
    space. *)
Definition plain (s : str) : bool := forallb alphabet s.

(** [binascii_find_valid] as it is called at a pad: the next character
    that is a pad or in the alphabet. *)
Fixpoint next_valid (s : str) : option ascii :=
  match s with
  | [] => None
  | c :: s' => if is_pad c || alphabet c then Some c else next_valid s'
  end.

(** The bytes that are complete once the values [quad] of a group have
    been read. *)
Definition bytes_of_quad (quad : list N) : bytes :=
  match quad with
  | [a; b] => [byte_of_N (a * 4 + b / 16)]
  | [a; b; c] =>
      [byte_of_N (a * 4 + b / 16); byte_of_N ((b mod 16) * 16 + c / 4)]
  | [a; b; c; d] =>
      [byte_of_N (a * 4 + b / 16); byte_of_N ((b mod 16) * 16 + c / 4);
       byte_of_N ((c mod 4) * 64 + d)]
  | _ => []
  end.

(** The loop of [a2b_base64]; [quad] holds the values read of the group
    under way, fewer than four. [None] stands for [binascii.Error]. *)
Fixpoint a2b_base64 (s : str) (quad : list N) : option bytes :=
  match s with
  | [] => match quad with [] => Some [] | _ => None end
  | c :: s' =>
      if is_pad c then
        if (length quad <? 2)%nat
           || ((length quad =? 2)%nat
               && negb match next_valid s' with
                       | Some p => is_pad p
                       | None => false
                       end)
        then a2b_base64 s' quad
        else Some (bytes_of_quad quad)
      else
        match value c with
        | None => a2b_base64 s' quad
        | Some v =>
            if (length quad =? 3)%nat
            then option_map (app (bytes_of_quad (quad ++ [v])))
                            (a2b_base64 s' [])
            else a2b_base64 s' (quad ++ [v])
        end
  end.

(** [b64decode(s)] for a [str]: text that is not ASCII is refused before
    the decoding starts; [None] stands for the exception raised. *)
Definition b64decode (s : str) : option bytes :=
  if existsb (fun c => (127 <? N_of_ascii c)%N) s then None
  else a2b_base64 s [].

End Base64.

(** ** StreamingContentHandler and StreamingBase64Parser *)

Module StreamingBase64Parser.

(** An expanded element name as expat reports it with namespaces on:
    the pair (namespace URI or None, local name). *)
Definition ns_name := (option str * str)%type.

Definition ns_name_eqb (x y : ns_name) : bool :=
  match fst x, fst y with
  | None, None => true
  | Some a, Some c => str_eqb a c
  | _, _ => false
  end && str_eqb (snd x) (snd y).

Inductive sax_event :=
  | StartElementNS (name : ns_name)
  | EndElementNS (name : ns_name)
  | Characters (content : str).

(** The mutable attributes of the parser ([buffer], [element_found]) and
    of its content handler ([_parsing]), which holds a reference to the
    parser and writes to both. *)
Record state := mk_state {
  buffer : list str;
  element_found : bool;
  _parsing : bool
}.

(** The state of parser and handler before the target is entered. *)
Definition idle : state := mk_state [] false false.

(** [safe_b64decode]'s padding: the number of [=] to append. *)
Definition padding_len (data : str) : nat :=
  let overflow := (length data mod 4)%nat in
  if (overflow =? 0)%nat then 0%nat else (4 - overflow)%nat.

Section Parser.

(** [base64.b64decode] of the Python standard library; [None] stands
    for the exception it raises, [binascii.Error] as a rule, which is
    [Base64Error] here. *)
Variable b64decode : str -> option bytes.

(** A decoder is additive on aligned input when decoding a text split
    at a multiple of 4 characters, the first part holding characters of
    the base64 alphabet only, amounts to decoding both parts. *)
Definition additive : Prop :=
  b64decode [] = Some [] /\
  forall (a c : str) x y,
  (length a mod 4 = 0)%nat ->
  Base64.plain a = true ->
  b64decode a = Some x -> b64decode c = Some y ->
  b64decode (a ++ c) = Some (x ++ y).

(** The expat tokenizer behind [DefusedExpatParser.feed]: from its
    state and a chunk (with the [isFinal] flag) it gives its next state,
    the events it reports to the content handler, and whether it raised
    a parse error after reporting them. *)
Variable expat : Type.
Variable expat_reset : expat.
Variable expat_feed : expat -> bytes -> bool -> expat * list sax_event * bool.

(** The target of the content handler: [(self._ns, self._element_name)]. *)
Variable target : ns_name.

Definition safe_b64decode (data : str) : option bytes :=
  b64decode (data ++ repeat "="%char (padding_len data)).

(** StreamingContentHandler.startElementNS / endElementNS / characters *)
Definition startElementNS (st : state) (name : ns_name) : state :=
  if ns_name_eqb name target
  then mk_state (buffer st) true true
  else st.

Definition endElementNS (st : state) (name : ns_name) : state :=
  if ns_name_eqb name target
  then mk_state (buffer st) (element_found st) false
  else st.

Definition characters (st : state) (content : str) : state :=
  if negb (_parsing st) then st
  else mk_state (buffer st ++ [content]) (element_found st) (_parsing st).

Definition handle (st : state) (ev : sax_event) : state :=
  match ev with
  | StartElementNS name => startElementNS st name
  | EndElementNS name => endElementNS st name
  | Characters content => characters st content
  end.

(** The [for data in self.buffer] loop of [_decode_buffer]: the chunks
    yielded, and the final [remainder], or [None] when [b64decode]
    raised. *)
Fixpoint _decode_buffer_loop (buf : list str) (remainder : str)
  : list bytes * option str :=
  match buf with
  | [] => ([], Some remainder)
  | data :: buf' =>
      let available := (length remainder + length data)%nat in
      let overflow := (available mod 4)%nat in
      let data := match remainder with
                  | [] => data
                  | _ => remainder ++ data
                  end in
      let remainder : str := [] in
      let '(remainder, data) :=
        if (overflow =? 0)%nat then (remainder, data)
        else (skipn (length data - overflow) data,
              firstn (length data - overflow) data) in
      match data with
      | [] => _decode_buffer_loop buf' remainder
      | _ =>
          match b64decode data with
          | None => ([], None)
          | Some decoded =>
              let (ys, r) := _decode_buffer_loop buf' remainder in
              (decoded :: ys, r)
          end
      end
  end.

(** [_decode_buffer]: the yielded chunks and the new [self.buffer]. *)
Definition _decode_buffer (buf : list str)
  : list bytes * option (list str) :=
  let (ys, r) := _decode_buffer_loop buf [] in
  (ys, option_map (fun remainder : str =>
                     match remainder with [] => [] | _ => [remainder] end) r).

(** [feed]: expat runs over the chunk and drives the handler, then the
    character buffer is flushed. *)
Definition feed (st : state) (x : expat) (data : bytes)
  : list bytes * result (state * expat) :=
  let '(x', evs, failed) := expat_feed x data false in
  let st1 := fold_left handle evs st in
  if failed then ([], Raise SAXParseException)
  else
  let (ys, b) := _decode_buffer (buffer st1) in
  match b with
  | None => (ys, Raise Base64Error)
  | Some buf' =>
        (ys, Ok (mk_state buf' (element_found st1) (_parsing st1), x'))
  end.

(** The [while buffer] loop of [parse]. [reads] lists what the
    successive [file.read(self._bufsize)] calls return; past its end
    [read] returns b''. *)
Fixpoint parse_loop (reads : list bytes) (st : state) (x : expat)
         (collected_data : bytes)
  : list bytes * result (state * expat * bytes) :=
  match reads with
  | [] => ([], Ok (st, x, collected_data))
  | [] :: _ => ([], Ok (st, x, collected_data))
  | buf :: reads' =>
      let collected_data :=
        if negb (element_found st) then collected_data ++ buf
        else collected_data in
      match feed st x buf with
      | (ys, Raise e) => (ys, Raise e)
      | (ys, Ok (st', x')) =>
          let (ys', r) := parse_loop reads' st' x' collected_data in
          (ys ++ ys', r)
      end
  end.

(** The content handler once [parse] has set [self.buffer = None]:
    [characters] inside the target element fails on [None.append], which
    [None] stands for here. *)
Definition handle_closed (st : state) (ev : sax_event) : option state :=
  match ev with
  | Characters _ => if _parsing st then None else Some st
  | _ => Some (handle st ev)
  end.

Fixpoint close_events (st : state) (evs : list sax_event) : option state :=
  match evs with
  | [] => Some st
  | ev :: evs' =>
      match handle_closed st ev with
      | Some st' => close_events st' evs'
      | None => None
      end
  end.

(** [parse]: the chunks the generator yields and how it ends. After the
    loop [self.close()] makes the final call of expat, whose events still
    reach the content handler, unless no chunk was fed: expat is set up by
    the first [feed], and without it [close] returns at once. *)
Definition parse (reads : list bytes) : list bytes * result unit :=
  let st0 := mk_state [] false false in
  match parse_loop reads st0 expat_reset [] with
  | (ys, Raise e) => (ys, Raise e)
  | (ys, Ok (st, x, collected_data)) =>
      match reads with
      | [] | [] :: _ => (ys, Raise (ElementNotFound collected_data))
      | _ =>
          let '(_, evs, failed) := expat_feed x [] true in
          match close_events st evs with
          | None => (ys, Raise AttributeError)
          | Some st' =>
              if failed then (ys, Raise SAXParseException)
              else if negb (element_found st')
                   then (ys, Raise (ElementNotFound collected_data))
                   else (ys, Ok tt)
          end
      end
  end.

(** The chunks [parse] actually reads: those before the first empty
    read. *)
Fixpoint chunks_read (reads : list bytes) : list bytes :=
  match reads with
  | [] => []
  | [] :: _ => []
  | buf :: reads' => buf :: chunks_read reads'
  end.

(** The events expat reports over the chunks read, and whether it raised
    on one of them. *)
Fixpoint sax_events (x : expat) (chunks : list bytes)
  : list sax_event * bool :=
  match chunks with
  | [] => ([], false)
  | buf :: chunks' =>
      let '(x', evs, failed) := expat_feed x buf false in
      if failed then (evs, true)
      else let (evs', f) := sax_events x' chunks' in (evs ++ evs', f)
  end.

(** The tokenizer state once the chunks have been fed. *)
Fixpoint expat_after (x : expat) (chunks : list bytes) : expat :=
  match chunks with
  | [] => x
  | buf :: chunks' =>
      let '(x', _, _) := expat_feed x buf false in expat_after x' chunks'
  end.

Definition enters_target (ev : sax_event) : bool :=
  match ev with
  | StartElementNS name => ns_name_eqb name target
  | _ => false
  end.

End Parser.

End StreamingBase64Parser.

(** ** A tokenizer for running the parser

    The parser is stated over any tokenizer. The one below is a small
    executable one, used to run the parser on concrete streams. *)

Module MiniExpat.
Import StreamingBase64Parser.

(** A restartable tokenizer for documents made of start tags [<name>],
    end tags [</name>] and character data, with names of letters and
    digits and data without markup characters, references or line breaks,
    fed in chunks that cut no tag in two (expat may put off a tag that is
    cut until a later call). On these it reports what expat reports, the
    character data up to the end of each chunk, and checks what expat
    checks: that the tags are closed in order, that there is one root
    element with nothing but white space outside it and, at the final
    call, that the document is complete. Its state says whether it stands
    in character data or inside a tag, and then which tag, which elements
    are open, and whether the root element has been opened. *)
Inductive mode :=
  | Text
  | Tag (closing : bool) (name : str).

Record t := mk {
  at_ : mode;
  opened : list str;
  rooted : bool
}.

(** The tokenizer before the first chunk. *)
Definition reset : t := mk Text [] false.

Definition xml_space (ch : ascii) : bool :=
  Ascii.eqb ch " " || Ascii.eqb ch "009" || Ascii.eqb ch "010"
  || Ascii.eqb ch "013".

Definition flush (text : str) (evs : list sax_event) : list sax_event :=
  match text with
  | [] => evs
  | _ => evs ++ [Characters text]
  end.

(** The scan of a chunk: the state it ends in, the events up to there,
    and whether it ended on an error. *)
Fixpoint scan (data : bytes) (x : t) (text : str)
         (evs : list sax_event) : t * list sax_event * bool :=
  match data with
  | [] => (x, flush text evs, false)
  | c :: data' =>
      let ch := ascii_of_byte c in
      match at_ x with
      | Text =>
          if Ascii.eqb ch "<"
          then scan data' (mk (Tag false []) (opened x) (rooted x)) []
                    (flush text evs)
          else
            match opened x with
            | [] => if xml_space ch then scan data' x text evs
                    else (x, evs, true)
            | _ => scan data' x (text ++ [ch]) evs
            end
      | Tag closing name =>
          if Ascii.eqb ch ">" then
            match name with
            | [] => (x, evs, true)
            | _ =>
                if closing then
                  match opened x with
                  | top :: rest =>
                      if str_eqb top name
                      then scan data' (mk Text rest true) []
                                (evs ++ [EndElementNS (None, name)])
                      else (x, evs, true)
                  | [] => (x, evs, true)
                  end
                else
                  if rooted x
                     && match opened x with [] => true | _ => false end
                  then (x, evs, true)
                  else scan data' (mk Text (name :: opened x) true) []
                            (evs ++ [StartElementNS (None, name)])
            end
          else if Ascii.eqb ch "/" && negb closing
                  && match name with [] => true | _ => false end
          then scan data' (mk (Tag true []) (opened x) (rooted x)) [] evs
          else scan data' (mk (Tag closing (name ++ [ch])) (opened x)
                              (rooted x)) [] evs
      end
  end.

(** Whether the document is complete: no tag under way, no element open,
    and a root element seen. *)
Definition complete (x : t) : bool :=
  match at_ x, opened x with
  | Text, [] => rooted x
  | _, _ => false
  end.

(** Feeding a chunk; at the final call an incomplete document is a parse
    error. *)
Definition feed (x : t) (data : bytes) (isFinal : bool)
  : t * list sax_event * bool :=
  let '(x', evs, failed) := scan data x [] [] in
  (x', evs, failed || (isFinal && negb (complete x'))).

End MiniExpat.

(** ** Concrete inputs used in examples *)

Module Examples.
Import Executor.
Local Open Scope Z_scope.

Definition ews_url : str := U "https://host/ews/exchange.asmx".

(** A real response from [ews_url]. *)
Definition response_of (status : Z) (hs : list (str * header_value))
           (body : bytes) : Response :=
  mk_response status ews_url (mk_headers true hs) body [].

(** A redirect response with the given [Location]. *)
Definition redirect_to (location : string) : Response :=
  response_of 302 [(U "Location", HStr (U location))] [].

Definition patient : RetryPolicy := mk_policy false 3600.
Definition impatient : RetryPolicy := mk_policy false 10.
Definition failing_fast : RetryPolicy := mk_policy true 3600.

(** A world at clock 100 with no back-off pending. *)
Definition calm : world := mk_world 100 None 7%nat [].

(** A body that is an XML document with its declaration. *)
Definition soap_fault : bytes :=
  B "<?xml version='1.0' encoding='utf-8'?><Envelope><Fault/></Envelope>".

(** The target element of the parser examples: [Content] in no
    namespace. *)
Definition content_element : StreamingBase64Parser.ns_name :=
  (None, U "Content").

(** The two concatenated envelopes of the splitter example; [x22] is the
    double quote. *)
Definition envelope1 : bytes :=
  B "<Envelope a=" ++ [x22] ++ B "1" ++ [x22] ++ B ">body1</Envelope>".

Definition envelope2 : bytes :=
  B "<Envelope a=" ++ [x22] ++ B "2" ++ [x22] ++ B ">body2</Envelope>".

Definition two_envelopes : bytes := envelope1 ++ envelope2.

End Examples.

(** ** Helpers of util.py: chunkify, get_domain, safe_xml_value,
    xml_text_to_value *)

Module Util.

(** The slice [l[i:j]] for indices that are not negative. *)
Definition slice {A : Type} (l : list A) (i j : nat) : list A :=
  skipn i (firstn j l).

(** The values of [range(i, stop, step)] for a positive [step]; [fuel]
    bounds their number. *)
Fixpoint range_loop (fuel i stop step : nat) : list nat :=
  match fuel with
  | O => []
  | S fuel' =>
      if (i <? stop)%nat then i :: range_loop fuel' (i + step) stop step
      else []
  end.

(** [range(0, stop, step)]: a zero step is a [ValueError], a negative step
    gives no value. *)
Definition range0 (stop : nat) (step : Z) : result (list nat) :=
  if (step =? 0)%Z then Raise ValueError
  else if (step <? 0)%Z then Ok []
  else Ok (range_loop stop 0 stop (Z.to_nat step)).

(** What [chunkify] is given: an object with [__getitem__] that is no
    QuerySet (tuple, list), or anything else it can only iterate. *)
Inductive iterable (A : Type) :=
| Sequence (items : list A)
| Generator (items : list A).
Arguments Sequence {A} items.
Arguments Generator {A} items.

(** The [for i in iterable] loop of the second branch, [chunk] being the
    chunk under construction. *)
Fixpoint chunkify_loop {A : Type} (chunksize : Z) (items : list A)
         (chunk : list A) : list (list A) :=
  match items with
  | [] => match chunk with [] => [] | _ => [chunk] end
  | i :: items' =>
      let chunk := chunk ++ [i] in
      if (Z.of_nat (length chunk) =? chunksize)%Z
      then chunk :: chunkify_loop chunksize items' []
      else chunkify_loop chunksize items' chunk
  end.

(** [chunkify]: the chunks it yields, in order. *)
Definition chunkify {A : Type} (it : iterable A) (chunksize : Z)
  : result (list (list A)) :=
  match it with
  | Sequence l =>
      indices <- range0 (length l) chunksize ;;
      Ok (map (fun i => slice l i (i + Z.to_nat chunksize)) indices)
  | Generator l => Ok (chunkify_loop chunksize l [])
  end.

(** [s.split(c)] *)
Fixpoint split (c : ascii) (s : str) : list str :=
  match s with
  | [] => [[]]
  | a :: s' =>
      if Ascii.eqb a c then [] :: split c s'
      else match split c s' with
           | p :: ps => (a :: p) :: ps
           | [] => [[a]]
           end
  end.

(** [get_domain]: the [IndexError] of a missing second part is turned
    into [ValueError]. *)
Definition get_domain (email : str) : result str :=
  match split "@" email with
  | _ :: domain :: _ => Ok (Str.lower domain)
  | _ => Raise ValueError
  end.

(** Text as a list of Unicode code points, for [safe_xml_value]. *)
Definition text := list N.

(** The character class of [_ILLEGAL_XML_CHARS_RE]: the code points 0 to
    8, 11, 12, 14 to 31, the surrogates D800 to DFFF, FFFE and FFFF. *)
Definition illegal_xml_char (c : N) : bool :=
  ((c <=? 8) || (c =? 11) || (c =? 12) || ((14 <=? c) && (c <=? 31))
   || ((55296 <=? c) && (c <=? 57343)) || (c =? 65534) || (c =? 65535))%N.

(** The replacement of [re.sub] is a template. One without a backslash
    (code point 92) stands for itself. One with a backslash is parsed for
    escapes and group references, so that what is put in is not the
    template as it stands, or the call raises. *)
Definition literal_template (replacement : text) : bool :=
  negb (existsb (N.eqb 92) replacement).

(** [safe_xml_value(value, replacement)] for a replacement that [re.sub]
    takes literally. [None]: the replacement holds a backslash; what
    [re.sub] makes of it is not modelled. *)
Definition safe_xml_value (value replacement : text) : option text :=
  if literal_template replacement
  then Some (flat_map
               (fun c => if illegal_xml_char c then replacement else [c])
               value)
  else None.

(** The types [xml_text_to_value] is asked for. *)
Inductive value_type :=
| T_str
| T_bool
| T_bytes
| T_int
| T_Decimal
| T_timedelta
| T_EWSDate
| T_EWSDateTime
| T_other.

(** What [xml_text_to_value] returns. *)
Inductive py_value :=
| V_None
| V_str (s : str)
| V_bool (b : bool)
| V_bytes (b : bytes)
| V_converted (t : value_type) (v : str).

Section XmlTextToValue.

(** [base64.b64decode], and the converters of the other types ([int],
    [Decimal], [isodate.parse_duration], [EWSDate.from_string],
    [EWSDateTime.from_string]), which are not part of this module. *)
Variable b64decode : str -> option bytes.
Variable convert : value_type -> str -> result py_value.

Definition xml_text_to_value (value : str) (t : value_type)
  : result py_value :=
  match t with
  | T_str => Ok (V_str value)
  | T_bool =>
      let v := Str.lower value in
      if str_eqb v (U "true") then Ok (V_bool true)
      else if str_eqb v (U "on") then Ok (V_bool true)
      else if str_eqb v (U "false") then Ok (V_bool false)
      else if str_eqb v (U "off") then Ok (V_bool false)
      else Ok V_None
  | T_bytes =>
      match StreamingBase64Parser.safe_b64decode b64decode value with
      | Some b => Ok (V_bytes b)
      | None => Raise Base64Error
      end
  | T_other => Raise (KeyError (U "value_type"))
  | _ => convert t value
  end.

End XmlTextToValue.

End Util.

(** ** BytesGeneratorIO *)

Module BytesGeneratorIO.
Local Open Scope Z_scope.

(** The attributes of the object: the generator (what it has still to
    give), the stash [_next] ([None] once the generator is exhausted), the
    count [_tell] and the [closed] flag of [io.RawIOBase]. *)
Record t := mk {
  _bytes_generator : list bytes;
  _next : option bytes;
  _tell : Z;
  closed : bool
}.

Definition __init__ (bytes_generator : list bytes) : t :=
  mk bytes_generator (Some []) 0 false.

Definition readable (self : t) : bool := negb (closed self).

Definition tell (self : t) : Z := _tell self.

(** The [while size < 0 or len(res) < size] loop of [read]: the bytes
    gathered, whether the generator raised [StopIteration], and what is
    left of the generator. *)
Fixpoint read_loop (size : Z) (gen : list bytes) (res : bytes)
  : bytes * bool * list bytes :=
  if (size <? 0) || (Z.of_nat (length res) <? size) then
    match gen with
    | [] => (res, true, [])
    | chunk :: gen' => read_loop size gen' (res ++ chunk)
    end
  else (res, false, gen).

(** [read(size)]; [res] is the stash itself until the stash is set to
    [None] or replaced by the slice. *)
Definition read (self : t) (size : option Z) : result (bytes * t) :=
  if closed self then Raise ValueError
  else
    match _next self with
    | None => Ok ([], self)
    | Some stash =>
        let size := match size with None => -1 | Some n => n end in
        let '(res, exhausted, gen) :=
          read_loop size (_bytes_generator self) stash in
        let '(next, res) :=
          if (0 <? size) && negb exhausted
          then (Some (skipn (Z.to_nat size) res), firstn (Z.to_nat size) res)
          else (if exhausted then None else Some res, res) in
        Ok (res, mk gen next (_tell self + Z.of_nat (length res))
                    (closed self))
    end.

(** [close()]: the generator is closed with the stream. *)
Definition close (self : t) : t :=
  mk (if closed self then _bytes_generator self else [])
     (_next self) (_tell self) true.

(** The bytes the stream has still to give. *)
Definition remaining (self : t) : bytes :=
  match _next self with
  | Some stash => stash ++ concat (_bytes_generator self)
  | None => []
  end.

(** Reading with [size] again and again, as a parser does, until a read
    comes back empty: the data of the reads before it, and the object
    after it. [fuel] bounds the number of reads; [None] when it runs
    out or a read raises. *)
Fixpoint read_until_empty (fuel : nat) (self : t) (size : Z)
  : option (list bytes * t) :=
  match fuel with
  | O => None
  | S fuel' =>
      match read self (Some size) with
      | Raise _ => None
      | Ok ([], self') => Some ([], self')
      | Ok (data, self') =>
          match read_until_empty fuel' self' size with
          | Some (ds, self'') => Some (data :: ds, self'')
          | None => None
          end
      end
  end.

End BytesGeneratorIO.

(** ** The shape of the documents of DocumentYielder *)

Module DocumentShape.
Import DocumentYielder.

(** What the loop holds in its buffer: nothing outside a document, and
    inside one a text that begins with the start token. *)
Definition buffer_ok (self : t) (doc_started : bool) (buffer : list bytes)
  : Prop :=
  if doc_started then exists rest, concat buffer = _start_token self ++ rest
  else buffer = [].

(** What every yielded document looks like. *)
Definition framed (self : t) (doc : bytes) : Prop :=
  (exists body, doc = xml_declaration ++ _start_token self ++ body) /\
  endswith doc (_end_token self) = true.

(** An input cut into pieces: each piece a gap followed by the body of a
    document. *)
Definition pieces_text (pieces : list (bytes * bytes)) : bytes :=
  concat (map (fun gb => fst gb ++ snd gb) pieces).

End DocumentShape.

(** ** Reading the trace of a call *)

Module ExecutorTrace.
Import Executor.
Local Open Scope Z_scope.

Definition is_close (ev : event) : bool :=
  match ev with Close _ => true | _ => false end.

Definition is_refresh (ev : event) : bool :=
  match ev with RefreshCredentials _ _ => true | _ => false end.

(** The number of events of a kind. *)
Definition count (kind : event -> bool) (evs : list event) : nat :=
  length (filter kind evs).

(** The seconds of a list of waits together. *)
Definition total (waits : list Z) : Z := fold_right Z.add 0 waits.

(** The number of posts that go to another URL than the post before them,
    [url] being the URL the call was given. *)
Fixpoint url_changes (url : str) (evs : list event) : nat :=
  match evs with
  | [] => 0%nat
  | Post _ url' :: evs' =>
      ((if str_eqb url' url then 0 else 1) + url_changes url' evs')%nat
  | _ :: evs' => url_changes url evs'
  end.

(** The URL of the last post of [evs], or [url] when there is none. *)
Fixpoint last_url (url : str) (evs : list event) : str :=
  match evs with
  | [] => url
  | Post _ url' :: evs' => last_url url' evs'
  | _ :: evs' => last_url url evs'
  end.

(** A post that reports the OAuth token expired: the session raises
    [TokenExpiredError], or the server answers 401 with a
    [TokenExpiredError] header. *)
Definition token_expired (outcome : post_outcome) : bool :=
  match outcome with
  | RaisesTokenExpiredError _ => true
  | Responds r => _need_new_credentials r
  | _ => false
  end.

(** The call fails on its first post: it raises [e] after posting once to
    the URL it was given, without closing a response or backing off, and
    retires the session it posted with. *)
Definition fails_at_once (retry_policy : RetryPolicy)
           (script : list (post_outcome * Z)) (session0 : session_t)
           (url : str) (allow_redirects : bool) (w : world) (e : exn)
  : Prop :=
  exists w' evs s,
    post_ratelimited retry_policy script session0 url allow_redirects w
    = (Raises e, w') /\
    trace w' = trace w ++ evs ++ [RetireSession s] /\
    filter is_post evs = [Post s url] /\
    count is_close evs = 0%nat /\
    back_offs evs = [] /\
    keeps_session evs.

End ExecutorTrace.

(** ** The text of the target element *)

Module ParserText.
Import StreamingBase64Parser.

(** The character data the content handler appends to the buffer over the
    events [evs], were the buffer never flushed: the text of the target
    element as the tokenizer reports it. *)
Definition collected_text (target : ns_name) (evs : list sax_event) : str :=
  concat (buffer (fold_left (handle target) evs idle)).

End ParserText.

(** ** recurrence.py: enum names and the boundary shortcut *)

Module Recurrence.
Local Open Scope Z_scope.

(** The value of an enum field: a number, or its name. *)
Inductive enum_value :=
| EInt (i : Z)
| EStr (s : str).

(** [xs[i]] on a tuple, negative indices counting from the end; [None]
    stands for [IndexError]. *)
Definition getitem {A : Type} (xs : list A) (i : Z) : option A :=
  let n := Z.of_nat (length xs) in
  if (0 <=? i) && (i <? n) then nth_error xs (Z.to_nat i)
  else if (- n <=? i) && (i <? 0) then nth_error xs (Z.to_nat (i + n))
  else None.

Section Enums.

(** The tuples of names of the fields module. *)
Variable MONTHS WEEKDAYS WEEK_NUMBERS : list str.

Definition _month_to_str (month : enum_value) : option enum_value :=
  match month with
  | EInt i => option_map EStr (getitem MONTHS (i - 1))
  | EStr _ => Some month
  end.

Definition _weekday_to_str (weekday : enum_value) : option enum_value :=
  match weekday with
  | EInt i => option_map EStr (getitem WEEKDAYS (i - 1))
  | EStr _ => Some weekday
  end.

Definition _week_number_to_str (week_number : enum_value)
  : option enum_value :=
  match week_number with
  | EInt i => option_map EStr (getitem WEEK_NUMBERS (i - 1))
  | EStr _ => Some week_number
  end.

End Enums.

Section Shortcut.

(** Dates and patterns are opaque here; a date is always true. *)
Variable date : Type.
Variable pattern : Type.

Inductive boundary :=
| NoEndPattern (start : date)
| EndDatePattern (start end_ : date)
| NumberedPattern (start : date) (number : Z).

Definition boundary_start (b : boundary) : date :=
  match b with
  | NoEndPattern s | EndDatePattern s _ | NumberedPattern s _ => s
  end.

Definition boundary_end (b : boundary) : option date :=
  match b with
  | EndDatePattern _ e => Some e
  | _ => None
  end.

Definition boundary_number (b : boundary) : option Z :=
  match b with
  | NumberedPattern _ n => Some n
  | _ => None
  end.

(** A keyword argument of [Recurrence]. *)
Inductive value :=
| VNone
| VPattern (p : pattern)
| VBoundary (b : boundary).

(** [**kwargs], in insertion order. *)
Definition kwargs := list (str * value).

(** ['boundary' in kwargs] *)
Definition has_key (key : str) (kw : kwargs) : bool :=
  existsb (fun kv => str_eqb (fst kv) key) kw.

(** Python truth of [number]: [None] and 0 are false. *)
Definition number_given (number : option Z) : option Z :=
  match number with
  | Some n => if n =? 0 then None else Some n
  | None => None
  end.

(** [Recurrence.__init__], with [start], [end] and [number] already
    popped: the keyword arguments it hands on to [EWSElement.__init__]. *)
Definition __init__ (kw : kwargs) (start end_ : option date)
           (number : option Z) : result kwargs :=
  match start, end_, number_given number with
  | None, None, None => Ok kw
  | _, _, _ =>
      if has_key (U "boundary") kw then Raise ValueError
      else
        match start, end_, number_given number with
        | Some s, None, None =>
            Ok (kw ++ [(U "boundary", VBoundary (NoEndPattern s))])
        | Some s, Some e, None =>
            Ok (kw ++ [(U "boundary", VBoundary (EndDatePattern s e))])
        | Some s, None, Some n =>
            Ok (kw ++ [(U "boundary", VBoundary (NumberedPattern s n))])
        | _, _, _ => Raise ValueError
        end
  end.

End Shortcut.

End Recurrence.

(** * Properties *)

(** ** Properties of DocumentYielder *)

Module DocumentYielderFacts.
Import DocumentYielder.

Lemma get_tag_loop_rest (stop_byte : bytes) (it : list bytes) :
  forall tag_buffer,
    (length (snd (get_tag_loop stop_byte it tag_buffer)) <= length it)%nat.
Proof.
  induction it as [|c it IH]; intros tag_buffer; simpl.
  - lia.
  - destruct (bytes_eqb c stop_byte); simpl.
    + lia.
    + specialize (IH (tag_buffer ++ [c])). lia.
Qed.

Lemma get_tag_rest (stop_byte : bytes) (it : list bytes) tag it' :
  get_tag stop_byte it = (tag, it') -> (length it' <= length it)%nat.
Proof.
  unfold get_tag. intros H.
  pose proof (get_tag_loop_rest stop_byte it [B "<"]) as L.
  destruct (get_tag_loop stop_byte it [B "<"]) as [tb r].
  inversion H; subst. exact L.
Qed.

(** Fuel above the number of items left is never exhausted, and any two
    such amounts give the same run. *)
Lemma iter_loop_fuel (self : t) :
  forall n m it doc_started buffer,
    (length it < n)%nat -> (length it < m)%nat ->
    iter_loop self n it doc_started buffer
    = iter_loop self m it doc_started buffer.
Proof.
  induction n as [|n IH]; intros m it ds buf Hn Hm; [lia|].
  destruct m as [|m]; [lia|].
  destruct it as [|c it1]; [reflexivity|].
  simpl in Hn, Hm. cbn [iter_loop].
  destruct (get_tag (B " ") it1) as [tag1 r1] eqn:E1.
  destruct (get_tag (B ">") it1) as [tag2 r2] eqn:E2.
  apply get_tag_rest in E1. apply get_tag_rest in E2.
  destruct (negb ds && bytes_eqb c (B "<")).
  - destruct (startswith tag1 (_start_token self)); apply IH; lia.
  - destruct (ds && bytes_eqb c (B "<")).
    + destruct (endswith tag2 (_end_token self)).
      * f_equal. apply IH; lia.
      * apply IH; lia.
    + destruct ds; apply IH; lia.
Qed.

Lemma iter_loop_total (self : t) :
  forall n it doc_started buffer,
    (length it < n)%nat ->
    exists docs, iter_loop self n it doc_started buffer = Some docs.
Proof.
  induction n as [|n IH]; intros it ds buf Hn; [lia|].
  destruct it as [|c it1]; [exists []; reflexivity|].
  simpl in Hn. cbn [iter_loop].
  destruct (get_tag (B " ") it1) as [tag1 r1] eqn:E1.
  destruct (get_tag (B ">") it1) as [tag2 r2] eqn:E2.
  apply get_tag_rest in E1. apply get_tag_rest in E2.
  destruct (negb ds && bytes_eqb c (B "<")).
  - destruct (startswith tag1 (_start_token self)); apply IH; lia.
  - destruct (ds && bytes_eqb c (B "<")).
    + destruct (endswith tag2 (_end_token self)).
      * destruct (IH r2 false []) as [d Hd]; [lia|].
        rewrite Hd. eexists; reflexivity.
      * apply IH; lia.
    + destruct ds; apply IH; lia.
Qed.

(** [__iter__] always terminates with a list of documents. *)
Lemma iter_total (self : t) (it : list bytes) :
  exists docs, __iter__ self it = Some docs.
Proof. apply iter_loop_total. lia. Qed.

Lemma iter_loop_step (self : t) n c it1 doc_started buffer :
  iter_loop self (S n) (c :: it1) doc_started buffer
  = if negb doc_started && bytes_eqb c (B "<") then
      let (tag, it2) := get_tag (B " ") it1 in
      if startswith tag (_start_token self)
      then iter_loop self n it2 true (buffer ++ [tag])
      else iter_loop self n it2 doc_started buffer
    else if doc_started && bytes_eqb c (B "<") then
      let (tag, it2) := get_tag (B ">") it1 in
      if endswith tag (_end_token self)
      then option_map (cons (xml_declaration ++ concat (buffer ++ [tag])))
                      (iter_loop self n it2 false [])
      else iter_loop self n it2 doc_started (buffer ++ [tag])
    else if doc_started
    then iter_loop self n it1 doc_started (buffer ++ [c])
    else iter_loop self n it1 doc_started buffer.
Proof. reflexivity. Qed.

(** One turn of the loop, on the level of [resume]. *)
Lemma resume_open (self : t) (rest : list bytes) tag rest' :
  get_tag (B " ") rest = (tag, rest') ->
  startswith tag (_start_token self) = true ->
  resume self (B "<" :: rest) false [] = resume self rest' true [tag].
Proof.
  intros G S. unfold resume. rewrite iter_loop_step.
  replace (negb false && bytes_eqb (B "<") (B "<")) with true by reflexivity.
  rewrite G, S. cbn [app].
  apply iter_loop_fuel; apply get_tag_rest in G; simpl; lia.
Qed.

Lemma resume_close (self : t) (buffer rest : list bytes) tag rest' :
  get_tag (B ">") rest = (tag, rest') ->
  endswith tag (_end_token self) = true ->
  resume self (B "<" :: rest) true buffer
  = option_map (cons (xml_declaration ++ concat (buffer ++ [tag])))
               (resume self rest' false []).
Proof.
  intros G E. unfold resume. rewrite iter_loop_step.
  replace (negb true && bytes_eqb (B "<") (B "<")) with false by reflexivity.
  replace (true && bytes_eqb (B "<") (B "<")) with true by reflexivity.
  rewrite G, E. f_equal.
  apply iter_loop_fuel; apply get_tag_rest in G; simpl; lia.
Qed.

Lemma resume_keep_open (self : t) (buffer rest : list bytes) tag rest' :
  get_tag (B ">") rest = (tag, rest') ->
  endswith tag (_end_token self) = false ->
  resume self (B "<" :: rest) true buffer
  = resume self rest' true (buffer ++ [tag]).
Proof.
  intros G E. unfold resume. rewrite iter_loop_step.
  replace (negb true && bytes_eqb (B "<") (B "<")) with false by reflexivity.
  replace (true && bytes_eqb (B "<") (B "<")) with true by reflexivity.
  rewrite G, E.
  apply iter_loop_fuel; apply get_tag_rest in G; simpl; lia.
Qed.

(** With no [<] left in the iterator an open document is never emitted. *)
Lemma iter_loop_dropped (self : t) :
  forall n it buffer,
    (length it < n)%nat ->
    Forall (fun c => bytes_eqb c (B "<") = false) it ->
    iter_loop self n it true buffer = Some [].
Proof.
  induction n as [|n IH]; intros it buf Hn Hall; [lia|].
  destruct it as [|c it1]; [reflexivity|].
  inversion Hall as [|? ? Hc Hrest]; subst.
  simpl in Hn. cbn [iter_loop]. rewrite Hc. cbn [negb andb].
  apply IH; [lia|assumption].
Qed.

(** Claim C5. Fed the two concatenated envelopes byte by byte with root tag
    [Envelope], the splitter yields exactly two byte strings: the XML
    declaration followed by the first envelope, and the XML declaration
    followed by the second. Each is thus one complete element after a
    declaration. *)
Theorem two_envelopes_split :
  __iter__ (__init__ "Envelope") (byte_by_byte Examples.two_envelopes)
  = Some [xml_declaration ++ Examples.envelope1;
          xml_declaration ++ Examples.envelope2] /\
  xml_declaration = B "<?xml version='1.0' encoding='utf-8'?>" ++ [x0a] /\
  startswith (xml_declaration ++ Examples.envelope1) xml_declaration = true /\
  startswith (xml_declaration ++ Examples.envelope2) xml_declaration = true.
Proof. repeat split; vm_compute; reflexivity. Qed.

(** Claim C10, counterexample. As stated the claim fails at its own example:
    the tag [</FooEnvelope>] does not end with [/Envelope>] (its last ten
    bytes are [oEnvelope>]), so inside a document it closes nothing, and a
    stream that ends with it yields no document. *)
Lemma foo_envelope_counterexample :
  endswith (B "</FooEnvelope>") (_end_token (__init__ "Envelope")) = false /\
  __iter__ (__init__ "Envelope")
           (byte_by_byte (B "<Envelope a>body</FooEnvelope>"))
  = Some [].
Proof. split; vm_compute; reflexivity. Qed.

(** Claim C10, as amended. Tags are matched by prefix and suffix. Outside a
    document a tag that starts with [<] and the root tag opens one, whatever
    follows in the tag (as in [<EnvelopeFoo ...]). Inside a document a tag
    that ends with [/], the root tag and [>] closes the document, which is
    emitted after the declaration (as for [<Foo/Envelope>]; the tag
    [</FooEnvelope>] does not end so). A document that is open when the
    iterator is exhausted is dropped. *)
Theorem tags_match_by_prefix_and_suffix (self : t) :
  (forall rest tag rest',
      get_tag (B " ") rest = (tag, rest') ->
      startswith tag (_start_token self) = true ->
      resume self (B "<" :: rest) false [] = resume self rest' true [tag]) /\
  (forall buffer rest tag rest',
      get_tag (B ">") rest = (tag, rest') ->
      endswith tag (_end_token self) = true ->
      resume self (B "<" :: rest) true buffer
      = option_map (cons (xml_declaration ++ concat (buffer ++ [tag])))
                   (resume self rest' false [])) /\
  (forall buffer it,
      Forall (fun c => bytes_eqb c (B "<") = false) it ->
      resume self it true buffer = Some []) /\
  startswith (B "<EnvelopeFoo ") (_start_token (__init__ "Envelope")) = true /\
  endswith (B "<Foo/Envelope>") (_end_token (__init__ "Envelope")) = true /\
  __iter__ (__init__ "Envelope")
           (byte_by_byte (B "<EnvelopeFoo x>body<Foo/Envelope>"))
  = Some [xml_declaration ++ B "<EnvelopeFoo x>body<Foo/Envelope>"] /\
  __iter__ (__init__ "Envelope") (byte_by_byte (B "<Envelope a>body"))
  = Some [].
Proof.
  split; [intros; apply resume_open; assumption|].
  split; [intros; apply resume_close; assumption|].
  split; [intros; apply iter_loop_dropped; [lia|assumption]|].
  repeat split; vm_compute; reflexivity.
Qed.

Lemma tags_match_by_prefix_and_suffix_witness :
  resume (__init__ "Envelope")
         (B "<" :: byte_by_byte (B "EnvelopeFoo x>body<Foo/Envelope>"))
         false []
  = resume (__init__ "Envelope")
           (byte_by_byte (B "x>body<Foo/Envelope>")) true
           [B "<EnvelopeFoo "] /\
  resume (__init__ "Envelope") (B "<" :: byte_by_byte (B "Foo/Envelope>"))
         true [B "<EnvelopeFoo "; B "x>body"]
  = option_map
      (cons (xml_declaration
               ++ concat ([B "<EnvelopeFoo "; B "x>body"]
                            ++ [B "<Foo/Envelope>"])))
      (resume (__init__ "Envelope") [] false []) /\
  resume (__init__ "Envelope") (byte_by_byte (B "body")) true
         [B "<Envelope "]
  = Some [].
Proof.
  destruct (tags_match_by_prefix_and_suffix (__init__ "Envelope"))
    as [Hopen [Hclose [Hdrop _]]].
  split; [|split].
  - apply Hopen; reflexivity.
  - apply Hclose; reflexivity.
  - apply Hdrop. repeat constructor.
Defined.

End DocumentYielderFacts.

(** ** Properties of StreamingBase64Parser *)

Module StreamingBase64ParserFacts.
Import StreamingBase64Parser.

Section Flush.

Variable b64decode : str -> option bytes.

(** What one turn of the loop withholds and what it decodes. *)
Lemma aligned_split (d : str) :
  let o := (length d mod 4)%nat in
  (length (firstn (length d - o) d) mod 4 = 0)%nat /\
  length (skipn (length d - o) d) = o.
Proof.
  intros o.
  assert (Ho : (o <= length d)%nat) by (apply Nat.Div0.mod_le).
  rewrite firstn_length_le by lia. rewrite length_skipn.
  split; [|lia].
  unfold o. rewrite (Nat.Div0.mod_eq (length d) 4) at 1.
  pose proof (Nat.Div0.mul_div_le (length d) 4).
  replace (length d - (length d - 4 * (length d / 4)))%nat
  with ((length d / 4) * 4)%nat by lia.
  apply Nat.Div0.mod_mul.
Qed.

(** One turn of the loop: the remainder is joined to the fragment, the
    part of the joined text beyond a multiple of 4 is withheld and the
    rest decoded. *)
Lemma decode_loop_step (data : str) (buf : list str) (remainder : str) :
  _decode_buffer_loop b64decode (data :: buf) remainder
  = let d := remainder ++ data in
  let o := (length d mod 4)%nat in
  let piece := firstn (length d - o) d in
  let rem' := skipn (length d - o) d in
  match piece with
  | [] => _decode_buffer_loop b64decode buf rem'
  | _ =>
        match b64decode piece with
        | None => ([], None)
        | Some decoded =>
            let (ys, r) := _decode_buffer_loop b64decode buf rem' in
            (decoded :: ys, r)
        end
  end.
Proof.
  cbn [_decode_buffer_loop]. cbv zeta.
  rewrite <- length_app.
  replace (match remainder with [] => data | _ :: _ => remainder ++ data end)
  with (remainder ++ data) by (destruct remainder; reflexivity).
  destruct (Nat.eqb_spec (length (remainder ++ data) mod 4) 0) as [E|E].
  - rewrite E, Nat.sub_0_r, skipn_all, firstn_all. reflexivity.
  - reflexivity.
Qed.

Lemma decode_loop_pieces :
  forall (buf : list str) (remainder : str) ys r,
  _decode_buffer_loop b64decode buf remainder = (ys, Some r) ->
  exists pieces,
      remainder ++ concat buf = concat pieces ++ r /\
      Forall (fun p : str => (length p mod 4 = 0)%nat /\ p <> []) pieces /\
      map b64decode pieces = map Some ys /\
      ((length r < 4)%nat \/ r = remainder).
Proof.
  induction buf as [|data buf IH]; intros remainder ys r H.
  - simpl in H. inversion H; subst. exists []. simpl.
    rewrite app_nil_r. auto.
  - rewrite decode_loop_step in H. cbv zeta in H.
    set (d := remainder ++ data) in *.
    set (o := (length d mod 4)%nat) in *.
    pose proof (aligned_split d) as [Hal Hrem]. fold o in Hal, Hrem.
    assert (Ho : (o < 4)%nat) by (apply Nat.mod_upper_bound; lia).
    assert (Hcat : remainder ++ concat (data :: buf)
                   = firstn (length d - o) d
                       ++ (skipn (length d - o) d ++ concat buf)).
    { simpl. rewrite !app_assoc. fold d. rewrite firstn_skipn.
      reflexivity. }
    set (piece := firstn (length d - o) d) in *.
    set (rem' := skipn (length d - o) d) in *.
    assert (Hlast : forall r0 : str,
               (length r0 < 4)%nat \/ r0 = rem' -> (length r0 < 4)%nat)
      by (intros r0 [L|L]; [exact L | subst r0; lia]).
    destruct piece as [|p0 piece'] eqn:Ep.
    + destruct (IH rem' ys r H) as [pieces [Hc [Hf [Hm Hr]]]].
      exists pieces. rewrite Hcat, Hc. simpl.
      repeat split; auto.
    + destruct (b64decode (p0 :: piece')) as [decoded|] eqn:Ed;
        [|discriminate].
      destruct (_decode_buffer_loop b64decode buf rem') as [ys' r'] eqn:E.
      inversion H; subst ys r'.
      destruct (IH rem' ys' r E) as [pieces [Hc [Hf [Hm Hr]]]].
      exists ((p0 :: piece') :: pieces). rewrite Hcat, Hc.
      repeat split.
      * simpl. rewrite <- app_assoc. reflexivity.
      * constructor; [split; [exact Hal | discriminate] | exact Hf].
      * simpl. rewrite Ed, Hm. reflexivity.
      * left. auto.
Qed.

(** Pieces of a text, all but the last of which lie in its part before
    the last four characters. *)
Lemma plain_pieces :
  forall pieces : list str,
    Forall (fun p : str => (length p mod 4 = 0)%nat /\ p <> []) pieces ->
    Base64.plain (firstn (length (concat pieces) - 4) (concat pieces))
    = true ->
    Forall (fun p : str => Base64.plain p = true) (removelast pieces).
Proof.
  induction pieces as [|p pieces IH]; intros Hf Hplain; [constructor|].
  destruct pieces as [|q pieces]; [constructor|].
  inversion Hf as [|? ? _ Hf']; subst.
  assert (Hq : (4 <= length (concat (q :: pieces)))%nat).
  { inversion Hf' as [|? ? [Hq4 Hqn] _]; subst.
    cbn [concat]. rewrite length_app.
    destruct q as [|c q]; [contradiction|].
    destruct (length (c :: q)) as [|[|[|[|n]]]] eqn:El;
      try discriminate; lia. }
  change (removelast (p :: q :: pieces))
    with (p :: removelast (q :: pieces)).
  change (concat (p :: q :: pieces)) with (p ++ concat (q :: pieces))
    in Hplain.
  rewrite length_app in Hplain.
  replace (length p + length (concat (q :: pieces)) - 4)%nat
    with (length p + (length (concat (q :: pieces)) - 4))%nat
    in Hplain by lia.
  rewrite firstn_app_2 in Hplain. unfold Base64.plain in *.
  rewrite forallb_app in Hplain. apply andb_prop in Hplain.
  destruct Hplain as [Hp Hrest].
  constructor; [exact Hp | apply IH; assumption].
Qed.

(** Decoding piece by piece is decoding the joined pieces, for an
    additive decoder, when no piece but the last holds anything but
    characters of the alphabet. *)
Lemma additive_concat (A : additive b64decode) :
  forall (pieces : list str) ys,
  Forall (fun p : str => (length p mod 4 = 0)%nat /\ p <> []) pieces ->
  Forall (fun p : str => Base64.plain p = true) (removelast pieces) ->
  map b64decode pieces = map Some ys ->
  b64decode (concat pieces) = Some (concat ys).
Proof.
  destruct A as [A0 A1].
  induction pieces as [|p pieces IH]; intros ys Hf Hplain Hm.
  - destruct ys; [exact A0 | discriminate].
  - destruct ys as [|y ys]; [discriminate|].
    inversion Hf as [|? ? [Hp _] Hf']; subst.
    simpl in Hm. inversion Hm as [[Hy Hm']].
    destruct pieces as [|q pieces].
    + destruct ys; [|discriminate]. simpl. rewrite !app_nil_r.
      exact Hy.
    + change (removelast (p :: q :: pieces))
        with (p :: removelast (q :: pieces)) in Hplain.
      inversion Hplain as [|? ? Hpp Hplain']; subst.
      change (concat (p :: q :: pieces)) with (p ++ concat (q :: pieces)).
      change (concat (y :: ys)) with (y ++ concat ys).
      apply A1; auto.
Qed.

Lemma aligned_concat :
  forall pieces : list str,
  Forall (fun p : str => (length p mod 4 = 0)%nat /\ p <> []) pieces ->
  (length (concat pieces) mod 4 = 0)%nat.
Proof.
  induction 1 as [|p pieces [Hp _] _ IH]; [reflexivity|].
  cbn [concat]. rewrite length_app, Nat.Div0.add_mod, Hp, IH. reflexivity.
Qed.


End Flush.

(** A character of the alphabet is no pad. *)
Lemma alphabet_value (c : ascii) :
  Base64.alphabet c = true ->
  Base64.is_pad c = false /\ exists v, Base64.value c = Some v.
Proof.
  unfold Base64.alphabet, Base64.is_pad. intros H.
  destruct (Base64.value c) as [v|] eqn:E; [|discriminate].
  split; [|exists v; reflexivity].
  destruct (Ascii.eqb_spec c "="%char) as [->|_]; [|reflexivity].
  discriminate E.
Qed.

(** Over an aligned text of the alphabet the decoder comes back to the
    state it started in, having put out the bytes of the text. *)
Lemma a2b_base64_plain :
  forall (n : nat) (a : str),
    length a = (4 * n)%nat -> Base64.plain a = true ->
    exists x, forall c,
        Base64.a2b_base64 (a ++ c) []
        = option_map (app x) (Base64.a2b_base64 c []).
Proof.
  induction n as [|n IH]; intros a Hlen Hplain.
  - destruct a; [|discriminate]. exists []. intros c. cbn.
    destruct (Base64.a2b_base64 c []); reflexivity.
  - destruct a as [|c1 [|c2 [|c3 [|c4 rest]]]]; try (cbn in Hlen; lia).
    cbn [Base64.plain forallb] in Hplain.
    apply andb_prop in Hplain. destruct Hplain as [H1 Hplain].
    apply andb_prop in Hplain. destruct Hplain as [H2 Hplain].
    apply andb_prop in Hplain. destruct Hplain as [H3 Hplain].
    apply andb_prop in Hplain. destruct Hplain as [H4 Hplain].
    destruct (alphabet_value _ H1) as [P1 [v1 V1]].
    destruct (alphabet_value _ H2) as [P2 [v2 V2]].
    destruct (alphabet_value _ H3) as [P3 [v3 V3]].
    destruct (alphabet_value _ H4) as [P4 [v4 V4]].
    destruct (IH rest) as [x Hx]; [cbn in Hlen; lia | exact Hplain |].
    exists (Base64.bytes_of_quad [v1; v2; v3; v4] ++ x). intros c.
    cbn [app Base64.a2b_base64].
    rewrite P1, V1. cbn [length Nat.eqb app].
    rewrite P2, V2. cbn [length Nat.eqb app].
    rewrite P3, V3. cbn [length Nat.eqb app].
    rewrite P4, V4. cbn [length Nat.eqb app].
    rewrite Hx. destruct (Base64.a2b_base64 c []); cbn [option_map];
      [rewrite <- app_assoc|]; reflexivity.
Qed.

(** [b64decode] is additive on aligned input of the alphabet. *)
Lemma b64decode_additive : additive Base64.b64decode.
Proof.
  split; [reflexivity|].
  intros a c x y Hal Hplain Ha Hc. unfold Base64.b64decode in *.
  rewrite existsb_app.
  destruct (existsb (fun ch => (127 <? N_of_ascii ch)%N) a); [discriminate|].
  destruct (existsb (fun ch => (127 <? N_of_ascii ch)%N) c); [discriminate|].
  cbn [orb].
  destruct (@a2b_base64_plain (length a / 4) a) as [x0 Hx]; auto.
  { pose proof (Nat.div_mod_eq (length a) 4). lia. }
  pose proof (Hx []) as Hnil. rewrite app_nil_r, Ha in Hnil.
  cbn in Hnil. rewrite app_nil_r in Hnil. inversion Hnil; subst x0.
  rewrite Hx, Hc. reflexivity.
Qed.

Section Parse.

Variable b64decode : str -> option bytes.
Variable expat : Type.
Variable expat_reset : expat.
Variable expat_feed : expat -> bytes -> bool -> expat * list sax_event * bool.
Variable target : ns_name.

Local Abbreviation handle := (handle target).
Local Abbreviation enters_target := (enters_target target).
Local Abbreviation feed := (feed b64decode expat_feed target).
Local Abbreviation parse_loop := (parse_loop b64decode expat_feed target).
Local Abbreviation parse := (parse b64decode expat_reset expat_feed target).
Local Abbreviation sax_events := (sax_events expat_feed).
Local Abbreviation expat_after := (expat_after expat_feed).



Lemma handle_found (st : state) (ev : sax_event) :
  element_found (handle st ev) = element_found st || enters_target ev.
Proof.
  destruct ev as [name|name|content]; simpl.
  - unfold startElementNS. destruct (ns_name_eqb name target); simpl.
    + rewrite orb_true_r. reflexivity.
    + rewrite orb_false_r. reflexivity.
  - unfold endElementNS. destruct (ns_name_eqb name target); simpl;
      rewrite orb_false_r; reflexivity.
  - unfold characters. destruct (_parsing st); simpl;
      rewrite orb_false_r; reflexivity.
Qed.

Lemma fold_handle_found (evs : list sax_event) :
  forall st,
  element_found (fold_left handle evs st)
  = element_found st || existsb enters_target evs.
Proof.
  induction evs as [|ev evs IH]; intros st; simpl.
  - rewrite orb_false_r. reflexivity.
  - rewrite IH, handle_found, orb_assoc. reflexivity.
Qed.


(** How the loop can end: with a tokenizer or decoder error, or having
    fed every chunk read, the target found exactly when some event
    entered it. *)
Lemma parse_loop_outcome :
  forall (reads : list bytes) (st : state) (x : expat)
         (collected : bytes) ys res,
  parse_loop reads st x collected = (ys, res) ->
  match res with
  | Raise e =>
        (e = SAXParseException /\
         snd (sax_events x (chunks_read reads)) = true)
        \/ e = Base64Error
  | Ok (st', x', _) =>
        x' = expat_after x (chunks_read reads) /\
        snd (sax_events x (chunks_read reads)) = false /\
        element_found st'
        = element_found st
          || existsb enters_target (fst (sax_events x (chunks_read reads)))
  end.
Proof.
  induction reads as [|buf reads IH]; intros st x collected ys res H.
  - simpl in H. inversion H; subst. simpl.
    rewrite orb_false_r. auto.
  - destruct buf as [|b0 buf].
    + simpl in H. inversion H; subst. simpl.
      rewrite orb_false_r. auto.
    + cbn [chunks_read sax_events expat_after] in *.
      cbn [parse_loop] in H. unfold feed in H.
      destruct (expat_feed x (b0 :: buf) false) as [[x' evs1] failed].
      destruct failed.
      { inversion H; subst. left. auto. }
      set (st1 := fold_left handle evs1 st) in *.
      destruct (_decode_buffer b64decode (buffer st1)) as [ys1 [buf'|]].
      2:{ inversion H; subst. right. reflexivity. }
      set (st2 := mk_state buf' (element_found st1) (_parsing st1)) in *.
      set (coll := if negb (element_found st) then collected ++ b0 :: buf
                   else collected) in *.
      destruct (parse_loop reads st2 x' coll) as [ys2 res2] eqn:E.
      inversion H; subst ys res2.
      specialize (IH st2 x' coll ys2 res E).
      destruct (sax_events x' (chunks_read reads)) as [evs2 f2].
      destruct res as [[[st' x''] c']|e]; simpl in *.
      * destruct IH as [Hx [Hf Hfound]]. repeat split; auto.
        rewrite Hfound. unfold st1.
        rewrite fold_handle_found, existsb_app, orb_assoc. reflexivity.
      * destruct IH as [[He Hf]|He]; auto.
Qed.




(** When nothing was read the loop is not entered. *)
Lemma nothing_read (reads : list bytes) :
  chunks_read reads = [] ->
  match reads with [] | [] :: _ => True | _ => False end.
Proof.
  destruct reads as [|[|b0 buf] reads]; [auto | auto | discriminate].
Qed.



End Parse.





End StreamingBase64ParserFacts.

(** ** Properties of the retrying request executor *)

Module ExecutorFacts.
Import Executor.
Local Open Scope Z_scope.

(** Closes equations between traces and sessions after a step. *)
Ltac side_condition :=
  cbn; rewrite <- ?app_assoc; auto; try reflexivity.

Lemma current_session_app (s : session_t) (evs1 evs2 : list event) :
  current_session s (evs1 ++ evs2)
  = current_session (current_session s evs1) evs2.
Proof. unfold current_session. apply fold_left_app. Qed.

Lemma back_offs_app (evs1 evs2 : list event) :
  back_offs (evs1 ++ evs2) = back_offs evs1 ++ back_offs evs2.
Proof. unfold back_offs. apply flat_map_app. Qed.

Lemma keeps_session_app (evs1 evs2 : list event) :
  keeps_session evs1 -> keeps_session evs2 -> keeps_session (evs1 ++ evs2).
Proof.
  unfold keeps_session. intros H1 H2. rewrite forallb_app, H1, H2.
  reflexivity.
Qed.

(** What the top of a turn does: it sleeps out a pending back-off and then
    renews the session, or does neither; then it posts. *)
Lemma arrive_spec (l : locals) (w : world) (d : Z) :
  exists evs,
    trace (snd (arrive l w d)) = trace w ++ evs /\
    session (fst (arrive l w d)) = current_session (session l) evs /\
    back_offs evs = [] /\
    filter is_post evs
    = [Post (session (fst (arrive l w d))) (post_url l)] /\
    keeps_session evs /\
    now (snd (arrive l w d)) = wake w + d /\
    back_off_until (snd (arrive l w d)) = back_off_until w /\
    post_url (fst (arrive l w d)) = post_url l /\
    wait (fst (arrive l w d)) = wait l /\
    retry (fst (arrive l w d)) = retry l /\
    redirects (fst (arrive l w d)) = redirects l.
Proof.
  unfold arrive, _back_off_if_needed, wake.
  destruct (back_off_until w) as [t|] eqn:Eb.
  - destruct (Z.ltb_spec 0 (t - now w)) as [Hs|Hs].
    + exists [Sleep (t - now w); RenewSession (session l) (next_session w);
              Post (next_session w) (post_url l)].
      cbn. rewrite <- !app_assoc. cbn.
      repeat split; auto; lia.
    + exists [Post (session l) (post_url l)].
      cbn. rewrite Eb. repeat split; auto; lia.
  - exists [Post (session l) (post_url l)].
    cbn. rewrite Eb. repeat split; auto.
Qed.

(** When no back-off is pending the turn starts with the post. *)
Lemma arrive_at_once (l : locals) (w : world) (d : Z) :
  wake w = now w ->
  arrive l w d
  = (mk_locals (session l) (post_url l) (wait l) (retry l) (redirects l),
     tick d (log (Post (session l) (post_url l)) w)).
Proof.
  unfold arrive, _back_off_if_needed, wake.
  destruct (back_off_until w) as [t|]; [|reflexivity].
  intros H. destruct (Z.ltb_spec 0 (t - now w)); [lia|reflexivity].
Qed.

Section Loop.

Variable retry_policy : RetryPolicy.
Variable allow_redirects : bool.
Variable t_start : Z.

Local Abbreviation retry_loop :=
  (retry_loop retry_policy allow_redirects t_start).

(** One turn of the loop. *)
Lemma retry_loop_turn (outcome : post_outcome) (response_time : Z)
      (script : list (post_outcome * Z)) (l : locals) (w : world) :
  retry_loop ((outcome, response_time) :: script) l w
  = let (l1, w1) := arrive l w response_time in
  match received l1 outcome with
  | Raise e => (Raised e, l1, w1)
  | Ok r =>
        if _need_new_credentials r then
          let w2 := log (Close (status_code r)) w1 in
          let (s, w3) := refresh_credentials (session l1) w2 in
          retry_loop script
            (mk_locals s (post_url l1) (wait l1) (retry l1) (redirects l1)) w3
        else
          match _may_retry_on_error r retry_policy (now w1 - t_start) with
          | Raise e => (Raised e, l1, w1)
          | Ok true =>
              retry_loop script
                (mk_locals (session l1) (post_url l1) (wait l1 * 2)
                           (retry l1 + 1) (redirects l1))
                (back_off (wait l1) (log (Close (status_code r)) w1))
          | Ok false =>
              if (status_code r =? 301) || (status_code r =? 302) then
                match _redirect_or_fail r (redirects l1) allow_redirects with
                | Raise e => (Raised e, l1, log (Close (status_code r)) w1)
                | Ok (url', redirects') =>
                    retry_loop script
                      (mk_locals (session l1) url' (wait l1) (retry l1)
                                 redirects')
                      (log (Close (status_code r)) w1)
                end
              else (Break r, l1, w1)
          end
  end.
Proof.
  cbn [Executor.retry_loop]. unfold arrive.
  destruct (_back_off_if_needed w) as [backed_off w0].
  destruct (if backed_off then renew_session (session l) w0
            else (session l, w0)) as [s w1].
  reflexivity.
Qed.

(** Inside the loop the session is never retired, and the session held at
    the exit is the last one the protocol handed out. *)
Lemma retry_loop_trace :
  forall (script : list (post_outcome * Z)) (l : locals) (w : world)
         ex l' w',
  retry_loop script l w = (ex, l', w') ->
  exists evs,
      trace w' = trace w ++ evs /\
      session l' = current_session (session l) evs /\
      keeps_session evs.
Proof.
  induction script as [|[o d] script IH]; intros l w ex l' w' H.
  - simpl in H. inversion H; subst. exists []. rewrite app_nil_r.
    repeat split; reflexivity.
  - rewrite retry_loop_turn in H.
    destruct (arrive_spec l w d)
      as [evs1 [Ht [Hs [_ [_ [Hk _]]]]]].
    destruct (arrive l w d) as [l1 w1]. cbn [fst snd] in *.
    assert (Hclose : forall c ex0 l0 w0,
               (ex0, l0, w0) = (ex, l', w') ->
               l0 = l1 -> w0 = log (Close c) w1 \/ w0 = w1 ->
               exists evs,
                 trace w' = trace w ++ evs /\
                 session l' = current_session (session l) evs /\
                 keeps_session evs).
    { intros c ex0 l0 w0 E El Ew. inversion E; subst.
      destruct Ew as [Ew|Ew]; subst w'.
      - exists (evs1 ++ [Close c]). cbn. rewrite Ht, <- app_assoc.
        rewrite current_session_app, <- Hs.
        repeat split; auto. apply keeps_session_app; auto. reflexivity.
      - exists evs1. auto. }
    assert (Hnext : forall evs2 l2 w2,
               trace w2 = trace w1 ++ evs2 ->
               session l2 = current_session (session l1) evs2 ->
               keeps_session evs2 ->
               retry_loop script l2 w2 = (ex, l', w') ->
               exists evs,
                 trace w' = trace w ++ evs /\
                 session l' = current_session (session l) evs /\
                 keeps_session evs).
    { intros evs2 l2 w2 Ht2 Hs2 Hk2 E.
      destruct (IH _ _ _ _ _ E) as [evs3 [Ht3 [Hs3 Hk3]]].
      exists (evs1 ++ evs2 ++ evs3).
      rewrite Ht3, Ht2, Ht, <- !app_assoc.
      rewrite !current_session_app, <- Hs, <- Hs2.
      repeat split; auto.
      repeat apply keeps_session_app; auto. }
    destruct (received l1 o) as [r|e].
    2:{ eapply (Hclose 0); eauto. }
    destruct (_need_new_credentials r).
    { eapply (Hnext [Close (status_code r);
                     RefreshCredentials (session l1) (next_session w1)]);
        [| | | exact H]; side_condition. }
    destruct (_may_retry_on_error r retry_policy (now w1 - t_start))
      as [[|]|e].
    + eapply (Hnext [Close (status_code r); BackOff (wait l1)]);
        [| | | exact H]; side_condition.
    + destruct ((status_code r =? 301) || (status_code r =? 302)).
      * destruct (_redirect_or_fail r (redirects l1) allow_redirects)
          as [[url' redirects']|e].
        -- eapply (Hnext [Close (status_code r)]); [| | | exact H];
             side_condition.
        -- eapply (Hclose (status_code r)); eauto.
      * eapply (Hclose 0); eauto.
    + eapply (Hclose 0); eauto.
Qed.

(** A response with status 200 leaves the loop at once. *)
Lemma retry_loop_200 (r : Response) (d : Z)
      (script : list (post_outcome * Z)) (l : locals) (w : world) :
  status_code r = 200 ->
  retry_loop ((Responds r, d) :: script) l w
  = (Break r, fst (arrive l w d), snd (arrive l w d)).
Proof.
  intros H200. rewrite retry_loop_turn.
  destruct (arrive l w d) as [l1 w1]. cbn [received fst snd].
  unfold _need_new_credentials, _may_retry_on_error, retry_status.
  rewrite H200. reflexivity.
Qed.

(** A response with status 503 under a policy that is not fail-fast: past
    [max_wait] the loop raises, else it backs off for [wait], doubles
    [wait] and goes round again. *)
Lemma may_retry_503 (r : Response) (total_wait : Z) :
  status_code r = 503 ->
  fail_fast retry_policy = false ->
  _may_retry_on_error r retry_policy total_wait
  = if max_wait retry_policy <? total_wait
  then Raise (RateLimitError (url r) 503 total_wait)
  else Ok true.
Proof.
  intros H503 Hff. unfold _may_retry_on_error, retry_status.
  rewrite H503, Hff. cbn.
  destruct (max_wait retry_policy <? total_wait); [reflexivity|].
  destruct (header_is _ _); reflexivity.
Qed.

Lemma retry_loop_503 (r : Response) (d : Z)
      (script : list (post_outcome * Z)) (l : locals) (w : world) :
  status_code r = 503 ->
  fail_fast retry_policy = false ->
  retry_loop ((Responds r, d) :: script) l w
  = let l1 := fst (arrive l w d) in
  let w1 := snd (arrive l w d) in
  if max_wait retry_policy <? now w1 - t_start
  then (Raised (RateLimitError (url r) 503 (now w1 - t_start)), l1, w1)
  else retry_loop script
           (mk_locals (session l1) (post_url l1) (wait l1 * 2)
                      (retry l1 + 1) (redirects l1))
           (back_off (wait l1) (log (Close 503) w1)).
Proof.
  intros H503 Hff. rewrite retry_loop_turn.
  destruct (arrive l w d) as [l1 w1]. cbn [received fst snd].
  rewrite may_retry_503 by assumption.
  unfold _need_new_credentials. rewrite H503. cbn.
  destruct (max_wait retry_policy <? now w1 - t_start); reflexivity.
Qed.

End Loop.

(** Claim C9. A response with status 200 is returned at once, with the
    session the call holds: the one call to [session.post] is the only one,
    no back-off is recorded on the retry policy and the session is not
    retired. *)
Theorem post_ratelimited_200 (retry_policy : RetryPolicy) (r : Response)
        (d : Z) (script : list (post_outcome * Z)) (session0 : session_t)
        (url0 : str) (allow_redirects : bool) (w : world) :
  status_code r = 200 ->
  exists s w' evs,
    post_ratelimited retry_policy ((Responds r, d) :: script) session0 url0
                     allow_redirects w
    = (Returns r s, w') /\
    trace w' = trace w ++ evs /\
    s = current_session session0 evs /\
    filter is_post evs = [Post s url0] /\
    back_offs evs = [] /\
    keeps_session evs /\
    back_off_until w' = back_off_until w.
Proof.
  intros H200. unfold post_ratelimited.
  rewrite retry_loop_200 by assumption.
  destruct (arrive_spec (initial_locals session0 url0) w d)
    as [evs [Ht [Hs [Hb [Hp [Hk [_ [Hu _]]]]]]]].
  exists (session (fst (arrive (initial_locals session0 url0) w d))),
         (snd (arrive (initial_locals session0 url0) w d)), evs.
  unfold after_loop. rewrite H200. cbn.
  repeat split; auto.
Qed.

Lemma post_ratelimited_200_witness :
  exists s w' evs,
    post_ratelimited (mk_policy false 3600)
      [(Responds (mk_response 200 (U "https://host/ews/exchange.asmx")
                              (mk_headers true []) (B "<a/>") []), 1)]
      0%nat (U "https://host/ews/exchange.asmx") false
      (mk_world 100 (Some 130) 7%nat [])
    = (Returns (mk_response 200 (U "https://host/ews/exchange.asmx")
                            (mk_headers true []) (B "<a/>") []) s, w') /\
    trace w' = [] ++ evs /\
    s = current_session 0%nat evs /\
    filter is_post evs = [Post s (U "https://host/ews/exchange.asmx")] /\
    back_offs evs = [] /\
    keeps_session evs /\
    back_off_until w' = Some 130.
Proof.
  exact (post_ratelimited_200 (mk_policy false 3600)
           (mk_response 200 (U "https://host/ews/exchange.asmx")
                        (mk_headers true []) (B "<a/>") [])
           1 [] 0%nat (U "https://host/ews/exchange.asmx") false
           (mk_world 100 (Some 130) 7%nat []) eq_refl).
Defined.


Section Backoff.

Variable retry_policy : RetryPolicy.
Variable allow_redirects : bool.
Variable t_start : Z.

Local Abbreviation retry_loop :=
  (retry_loop retry_policy allow_redirects t_start).

Lemma doubling_succ (wait : Z) (k : nat) :
  doubling wait (S k) = wait :: doubling (wait * 2) k.
Proof.
  unfold doubling. cbn [seq map]. rewrite Z.pow_0_r, Z.mul_1_r. f_equal.
  rewrite <- seq_shift, map_map. apply map_ext. intros i.
  rewrite Nat2Z.inj_succ, Z.pow_succ_r by lia. ring.
Qed.

(** Backing off after a response arrived sets the next wake-up time. *)
Lemma wake_back_off (l : locals) (w : world) (d : Z) c :
  0 <= d -> 0 <= wait l ->
  wake (back_off (wait l) (log (Close c) (snd (arrive l w d))))
  = wake w + d + wait l.
Proof.
  intros Hd Hw.
  destruct (arrive_spec l w d) as [_ [_ [_ [_ [_ [_ [Hn [Hb _]]]]]]]].
  unfold wake in *. cbn. rewrite Hb, Hn.
  destruct (back_off_until w); lia.
Qed.

(** A run of 503 responses, each arriving within [max_wait], is retried
    one by one. *)
Lemma retry_loop_503s :
  forall (rds : list (Response * Z)) (rest : list (post_outcome * Z))
         (l : locals) (w : world),
  fail_fast retry_policy = false ->
  0 <= wait l ->
  Forall (fun rd => status_code (fst rd) = 503 /\ 0 <= snd rd) rds ->
  Forall (fun T => T - t_start <= max_wait retry_policy)
           (arrival_times (wake w) (wait l) (map snd rds)) ->
  exists l' w' evs,
      retry_loop (responses rds ++ rest) l w = retry_loop rest l' w' /\
      wait l' = wait l * 2 ^ Z.of_nat (length rds) /\
      retry l' = retry l + Z.of_nat (length rds) /\
      post_url l' = post_url l /\
      redirects l' = redirects l /\
      trace w' = trace w ++ evs /\
      session l' = current_session (session l) evs /\
      back_offs evs = doubling (wait l) (length rds) /\
      length (filter is_post evs) = length rds /\
      keeps_session evs /\
      wake w' = next_wake (wake w) (wait l) (map snd rds).
Proof.
  induction rds as [|[r d] rds IH]; intros rest l w Hff Hw Hall Htimes.
  - exists l, w, []. cbn. rewrite app_nil_r. repeat split; auto; lia.
  - inversion Hall as [|? ? [H503 Hd] Hall']; subst. cbn [fst snd] in *.
    cbn [map arrival_times] in Htimes.
    inversion Htimes as [|? ? Hfirst Hnext]; subst.
    cbn [responses map app fst snd].
    rewrite retry_loop_503 by assumption. cbv zeta.
    destruct (arrive_spec l w d)
      as [evs1 [Ht [Hs [Hb [Hp [Hk [Hn [_ [Hu [Hwt [Hr Hrd]]]]]]]]]]].
    pose proof (wake_back_off l w 503 Hd Hw) as Hwake.
    destruct (arrive l w d) as [l1 w1]. cbn [fst snd] in *.
    rewrite Hn.
    destruct (Z.ltb_spec (max_wait retry_policy) (wake w + d - t_start));
      [lia|].
    set (l2 := mk_locals (session l1) (post_url l1) (wait l1 * 2)
                         (retry l1 + 1) (redirects l1)).
    set (w2 := back_off (wait l1) (log (Close 503) w1)).
    destruct (IH rest l2 w2) as [l' [w' [evs3 IHs]]]; auto.
    { unfold l2. cbn. lia. }
    { unfold l2, w2. cbn [wait]. rewrite Hwt, Hwake. exact Hnext. }
    destruct IHs
      as [Hloop [Hw' [Hr' [Hu' [Hrd' [Ht' [Hs' [Hb' [Hp' [Hk' Hnw]]]]]]]]]].
    exists l', w', (evs1 ++ [Close 503; BackOff (wait l)] ++ evs3).
    unfold l2 in *. cbn [wait retry post_url redirects session] in *.
    split; [exact Hloop|].
    split.
    { rewrite Hw', Hwt. cbn [length].
      rewrite Nat2Z.inj_succ, Z.pow_succ_r by lia. ring. }
    split; [cbn [length]; rewrite Hr', Hr, Nat2Z.inj_succ; lia|].
    split; [congruence|]. split; [congruence|].
    split.
    { rewrite Ht'. unfold w2. cbn. rewrite Ht, Hwt, <- !app_assoc.
      reflexivity. }
    split.
    { rewrite Hs', Hs, !current_session_app. reflexivity. }
    split.
    { rewrite !back_offs_app, Hb, Hb', Hwt. cbn [length].
      rewrite doubling_succ. reflexivity. }
    split.
    { rewrite !filter_app, !length_app, Hp, Hp'. reflexivity. }
    split.
    { repeat apply keeps_session_app; auto. reflexivity. }
    rewrite Hnw. unfold w2. rewrite Hwt, Hwake. reflexivity.
Qed.

End Backoff.

(** Claim C1. Under a policy that is not fail-fast, a 503 response at any
    turn of the loop either arrives later than [max_wait] after the start of
    the call, and then [RateLimitError] is raised with the URL of the
    response, status 503 and the total wait, or is retried after a back-off
    of the wait in hand, which is doubled. So a run of 503 responses that
    each arrive within [max_wait] of the start is retried one by one, the
    waits passed to [back_off] being 10, 20, 40, ...; the wait in hand after
    [k] retries is [10 * 2 ^ k]. A response with status 200 after the run is
    returned. A further 503 response that arrives later than [max_wait]
    after the start is not retried: [RateLimitError] is raised and the
    session is retired. *)
Theorem post_ratelimited_503 (retry_policy : RetryPolicy)
        (rds : list (Response * Z)) (rest : list (post_outcome * Z))
        (session0 : session_t) (url0 : str) (allow_redirects : bool)
        (w : world) :
  fail_fast retry_policy = false ->
  Forall (fun rd => status_code (fst rd) = 503 /\ 0 <= snd rd) rds ->
  Forall (fun T => T - now w <= max_wait retry_policy)
         (arrival_times (wake w) RETRY_WAIT (map snd rds)) ->
  let k := length rds in
  let t := next_wake (wake w) RETRY_WAIT (map snd rds) in
  let call := post_ratelimited retry_policy (responses rds ++ rest)
                               session0 url0 allow_redirects w in
  doubling RETRY_WAIT 3 = [10; 20; 40] /\
  (forall t_start script l w0 r d,
      status_code r = 503 ->
      retry_loop retry_policy allow_redirects t_start
                 ((Responds r, d) :: script) l w0
      = let l1 := fst (arrive l w0 d) in
        let w1 := snd (arrive l w0 d) in
        if max_wait retry_policy <? now w1 - t_start
        then (Raised (RateLimitError (url r) 503 (now w1 - t_start)), l1, w1)
        else retry_loop retry_policy allow_redirects t_start script
               (mk_locals (session l1) (post_url l1) (wait l1 * 2)
                          (retry l1 + 1) (redirects l1))
               (back_off (wait l1) (log (Close 503) w1))) /\
  exists l' w' evs,
    call = after_loop retry_policy
             (retry_loop retry_policy allow_redirects (now w) rest l' w') /\
    wait l' = RETRY_WAIT * 2 ^ Z.of_nat k /\
    retry l' = Z.of_nat k /\
    trace w' = trace w ++ evs /\
    back_offs evs = doubling RETRY_WAIT k /\
    length (filter is_post evs) = k /\
    keeps_session evs /\
    (forall r d rest',
        rest = (Responds r, d) :: rest' -> status_code r = 200 ->
        exists s w'' evs',
          call = (Returns r s, w'') /\
          trace w'' = trace w ++ evs' /\
          back_offs evs' = doubling RETRY_WAIT k /\
          length (filter is_post evs') = S k) /\
    (forall r d rest',
        rest = (Responds r, d) :: rest' -> status_code r = 503 ->
        max_wait retry_policy < t + d - now w ->
        exists s w'' evs',
          call = (Raises (RateLimitError (url r) 503 (t + d - now w)), w'') /\
          trace w'' = trace w ++ evs' ++ [RetireSession s] /\
          back_offs evs' = doubling RETRY_WAIT k /\
          length (filter is_post evs') = S k).
Proof.
  intros Hff Hall Htimes k t call. split; [reflexivity|].
  split; [intros; apply retry_loop_503; assumption|].
  destruct (@retry_loop_503s retry_policy allow_redirects (now w) rds rest
              (initial_locals session0 url0) w Hff)
    as [l' [w' [evs H]]]; auto.
  { cbn. unfold RETRY_WAIT. lia. }
  destruct H as [Hloop [Hw [Hr [_ [_ [Ht [_ [Hb [Hp [Hk Hnw]]]]]]]]]].
  cbn [initial_locals wait retry] in *.
  exists l', w', evs.
  assert (Hcall : call = after_loop retry_policy
            (retry_loop retry_policy allow_redirects (now w) rest l' w'))
    by (unfold call, post_ratelimited; rewrite Hloop; reflexivity).
  repeat split; auto.
  - intros r d rest' -> H200.
    rewrite Hcall, retry_loop_200 by assumption.
    destruct (arrive_spec l' w' d)
      as [evs1 [Ht1 [_ [Hb1 [Hp1 _]]]]].
    exists (session (fst (arrive l' w' d))), (snd (arrive l' w' d)),
           (evs ++ evs1).
    unfold after_loop. rewrite H200. cbn.
    rewrite Ht1, Ht, <- app_assoc, back_offs_app, Hb, Hb1, app_nil_r.
    rewrite filter_app, length_app, Hp, Hp1. cbn.
    repeat split; auto. fold k. lia.
  - intros r d rest' -> H503 Hlate.
    rewrite Hcall, retry_loop_503 by assumption. cbv zeta.
    destruct (arrive_spec l' w' d)
      as [evs1 [Ht1 [_ [Hb1 [Hp1 [_ [Hn1 _]]]]]]].
    rewrite Hn1, Hnw. fold t.
    destruct (Z.ltb_spec (max_wait retry_policy) (t + d - now w)); [|lia].
    exists (session (fst (arrive l' w' d))),
           (retire_session (session (fst (arrive l' w' d)))
                           (snd (arrive l' w' d))),
           (evs ++ evs1).
    cbn. rewrite Ht1, Ht, <- !app_assoc, back_offs_app, Hb, Hb1, app_nil_r.
    rewrite filter_app, length_app, Hp, Hp1. cbn.
    repeat split; auto. fold k. lia.
Qed.

Lemma post_ratelimited_503_witness :
  exists s w'',
    post_ratelimited Examples.patient
      (responses [(Examples.response_of 503 [] [], 1);
                  (Examples.response_of 503 [] [], 2)]
       ++ [(Responds (Examples.response_of 200 [] []), 1)])
      0%nat Examples.ews_url false Examples.calm
    = (Returns (Examples.response_of 200 [] []) s, w'') /\
    back_offs (trace w'') = [10; 20].
Proof.
  destruct (@post_ratelimited_503 Examples.patient
              [(Examples.response_of 503 [] [], 1);
               (Examples.response_of 503 [] [], 2)]
              [(Responds (Examples.response_of 200 [] []), 1)]
              0%nat Examples.ews_url false Examples.calm eq_refl)
    as [_ [_ [l' [w' [evs [_ [_ [_ [_ [_ [_ [_ [Hok _]]]]]]]]]]]]].
  - repeat constructor; cbn; lia.
  - repeat constructor; cbn; lia.
  - destruct (Hok (Examples.response_of 200 [] []) 1 [] eq_refl eq_refl)
      as [s [w'' [evs' [Hcall [Ht [Hb _]]]]]].
    exists s, w''. split; [exact Hcall|].
    rewrite Ht. exact Hb.
Defined.


Section Terminal.

Variable retry_policy : RetryPolicy.
Variable allow_redirects : bool.
Variable t_start : Z.

Local Abbreviation retry_loop :=
  (retry_loop retry_policy allow_redirects t_start).

(** When the retry step leaves a 500 response alone. *)
Lemma may_retry_500 (r : Response) (total_wait : Z) :
  status_code r = 500 ->
  fail_fast retry_policy = true
  \/ (total_wait <= max_wait retry_policy /\
      header_is (headers_get (headers r) (U "connection")) (U "close")
      = false /\
      bytes_in server_error_marker (content r) = false) ->
  _may_retry_on_error r retry_policy total_wait = Ok false.
Proof.
  intros H500 [Hff|[Hw [Hc Hm]]]; unfold _may_retry_on_error, retry_status.
  - rewrite H500, Hff. reflexivity.
  - rewrite Hc, Hm, H500.
    destruct (fail_fast retry_policy); [reflexivity|].
    destruct (Z.ltb_spec (max_wait retry_policy) total_wait); [lia|].
    reflexivity.
Qed.

(** A response the retry step leaves alone and that is no redirect ends
    the loop. *)
Lemma retry_loop_break (r : Response) (d : Z)
      (script : list (post_outcome * Z)) (l : locals) (w : world) :
  status_code r <> 401 -> status_code r <> 301 -> status_code r <> 302 ->
  _may_retry_on_error r retry_policy (wake w + d - t_start) = Ok false ->
  retry_loop ((Responds r, d) :: script) l w
  = (Break r, fst (arrive l w d), snd (arrive l w d)).
Proof.
  intros H401 H301 H302 Hno. rewrite retry_loop_turn.
  destruct (arrive_spec l w d) as [_ [_ [_ [_ [_ [_ [Hn _]]]]]]].
  destruct (arrive l w d) as [l1 w1]. cbn [received fst snd] in *.
  unfold _need_new_credentials.
  destruct (Z.eqb_spec (status_code r) 401); [contradiction|].
  cbn [andb]. rewrite Hn, Hno.
  destruct (Z.eqb_spec (status_code r) 301); [contradiction|].
  destruct (Z.eqb_spec (status_code r) 302); [contradiction|].
  reflexivity.
Qed.

(** A redirect the retry step leaves alone and that [get_redirect_url]
    refuses ends the loop with the exception. *)
Lemma retry_loop_redirect_refused (r : Response) (d : Z)
      (script : list (post_outcome * Z)) (l : locals) (w : world) why :
  status_code r = 301 \/ status_code r = 302 ->
  get_redirect_url r false false = Raise (TransportError why) ->
  _may_retry_on_error r retry_policy (wake w + d - t_start) = Ok false ->
  retry_loop ((Responds r, d) :: script) l w
  = (Raised (TransportError why), fst (arrive l w d),
     log (Close (status_code r)) (snd (arrive l w d))).
Proof.
  intros Hst Hget Hno. rewrite retry_loop_turn.
  destruct (arrive_spec l w d) as [_ [_ [_ [_ [_ [_ [Hn _]]]]]]].
  destruct (arrive l w d) as [l1 w1]. cbn [received fst snd] in *.
  unfold _need_new_credentials.
  replace (status_code r =? 401) with false
  by (destruct Hst as [E|E]; rewrite E; reflexivity).
  cbn [andb]. rewrite Hn, Hno.
  replace ((status_code r =? 301) || (status_code r =? 302)) with true
  by (destruct Hst as [E|E]; rewrite E; reflexivity).
  unfold _redirect_or_fail. rewrite Hget. reflexivity.
Qed.

End Terminal.

(** Claim C2, counterexample. As stated the claim fails: a 500 response
    whose body is an XML document, arriving later than [max_wait] under a
    policy that is not fail-fast, makes the call raise [RateLimitError] and
    retire the session; and a 500 response whose body is the XML document
    [<a/>], which has no declaration, fails the [is_xml] test, so that the
    call raises [TransportError] and retires the session. *)
Lemma post_ratelimited_500_xml_counterexample :
  (status_code (Examples.response_of 500 [] Examples.soap_fault) = 500 /\
   is_xml Examples.soap_fault = true /\
   post_ratelimited Examples.impatient
     [(Responds (Examples.response_of 500 [] Examples.soap_fault), 11)]
     0%nat Examples.ews_url false Examples.calm
   = (Raises (RateLimitError Examples.ews_url 500 11),
      mk_world 111 None 7%nat
               [Post 0%nat Examples.ews_url; RetireSession 0%nat])) /\
  (is_xml (B "<a/>") = false /\
   post_ratelimited Examples.failing_fast
     [(Responds (Examples.response_of 500 [] (B "<a/>")), 1)]
     0%nat Examples.ews_url false Examples.calm
   = (Raises (TransportError (UnknownFailure 500)),
      mk_world 101 None 7%nat
               [Post 0%nat Examples.ews_url; RetireSession 0%nat])).
Proof. repeat split; vm_compute; reflexivity. Qed.

(** Claim C2, as amended. A 500 response whose body is not empty and passes
    [is_xml] (it starts with [<?xml], after a byte order mark if there is
    one), and which the retry step leaves alone (the policy is fail-fast, or
    the response arrived within [max_wait], has no [connection: close]
    header and its body lacks the server error marker), is returned with the
    session held: nothing is raised, the session is not retired and no back-
    off is recorded. *)
Theorem post_ratelimited_500_xml (retry_policy : RetryPolicy) (r : Response)
        (d : Z) (script : list (post_outcome * Z)) (session0 : session_t)
        (url0 : str) (allow_redirects : bool) (w : world) :
  status_code r = 500 ->
  content r <> [] ->
  is_xml (content r) = true ->
  fail_fast retry_policy = true
  \/ (wake w + d - now w <= max_wait retry_policy /\
      header_is (headers_get (headers r) (U "connection")) (U "close")
      = false /\
      bytes_in server_error_marker (content r) = false) ->
  exists s w' evs,
    post_ratelimited retry_policy ((Responds r, d) :: script) session0 url0
                     allow_redirects w
    = (Returns r s, w') /\
    trace w' = trace w ++ evs /\
    s = current_session session0 evs /\
    filter is_post evs = [Post s url0] /\
    back_offs evs = [] /\
    keeps_session evs.
Proof.
  intros H500 Hbody Hxml Hleft. unfold post_ratelimited.
  rewrite retry_loop_break;
    [| rewrite H500; discriminate | rewrite H500; discriminate
     | rewrite H500; discriminate | apply may_retry_500; assumption].
  destruct (arrive_spec (initial_locals session0 url0) w d)
    as [evs [Ht [Hs [Hb [Hp [Hk _]]]]]].
  exists (session (fst (arrive (initial_locals session0 url0) w d))),
         (snd (arrive (initial_locals session0 url0) w d)), evs.
  unfold after_loop. rewrite H500, Hxml.
  destruct (content r); [contradiction|]. cbn.
  repeat split; auto.
Qed.

Lemma post_ratelimited_500_xml_witness :
  exists s w' evs,
    post_ratelimited Examples.patient
      [(Responds (Examples.response_of 500 [] Examples.soap_fault), 1)]
      0%nat Examples.ews_url false Examples.calm
    = (Returns (Examples.response_of 500 [] Examples.soap_fault) s, w') /\
    trace w' = trace Examples.calm ++ evs /\
    s = current_session 0%nat evs /\
    filter is_post evs = [Post s Examples.ews_url] /\
    back_offs evs = [] /\
    keeps_session evs.
Proof.
  apply (@post_ratelimited_500_xml Examples.patient
           (Examples.response_of 500 [] Examples.soap_fault) 1 []
           0%nat Examples.ews_url false Examples.calm).
  - reflexivity.
  - discriminate.
  - reflexivity.
  - right. split; [cbn; lia | split; [reflexivity | vm_compute; reflexivity]].
Defined.

(** Every redirect followed counts, and the count never passes
    [MAX_REDIRECTS]. *)
Lemma redirects_capped (r : Response) (redirects : Z)
      (allow_redirects : bool) url' redirects' :
  _redirect_or_fail r redirects allow_redirects = Ok (url', redirects') ->
  redirects' = redirects + 1 /\ redirects' <= MAX_REDIRECTS.
Proof.
  unfold _redirect_or_fail.
  destruct (get_redirect_url r false false) as [u|e].
  - destruct (negb allow_redirects); [discriminate|].
    destruct (Z.ltb_spec MAX_REDIRECTS (redirects + 1)) as [Hgt|Hle];
      [discriminate|].
    intros E. inversion E; subst. split; [reflexivity|assumption].
  - destruct e; discriminate.
Qed.

(** Claim C3, counterexample. As stated the claim fails: on a 302 response
    whose [Location] is the request URL the call does not go on with the
    loop. It raises [TransportError] for the redirect to the same location
    and retires the session; the second response of the script is never
    asked for. *)
Lemma post_ratelimited_same_location_counterexample :
  post_ratelimited Examples.patient
    [(Responds (Examples.redirect_to "https://host/ews/exchange.asmx"), 1);
     (Responds (Examples.response_of 200 [] []), 1)]
    0%nat Examples.ews_url true Examples.calm
  = (Raises (TransportError (SameLocation Examples.ews_url)),
     mk_world 101 None 7%nat
              [Post 0%nat Examples.ews_url; Close 302; RetireSession 0%nat]).
Proof. vm_compute. reflexivity. Qed.

(** Claim C3, as amended. A redirect response (status 301 or 302) whose
    resolved [Location] equals the request URL, and which the retry step
    leaves alone, is not followed and the loop does not go on: the call
    raises the [TransportError] of [get_redirect_url] for a redirect to the
    same location, after closing the response and retiring the session,
    having made the one request. Redirects that are followed are counted,
    and the count never passes [MAX_REDIRECTS]. *)
Theorem post_ratelimited_same_location (retry_policy : RetryPolicy)
        (r : Response) (d : Z) (script : list (post_outcome * Z))
        (session0 : session_t) (url0 : str) (allow_redirects : bool)
        (w : world) (target : str) :
  status_code r = 301 \/ status_code r = 302 ->
  get_redirect_url r false false
  = Raise (TransportError (SameLocation target)) ->
  _may_retry_on_error r retry_policy (wake w + d - now w) = Ok false ->
  (exists s w' evs,
      post_ratelimited retry_policy ((Responds r, d) :: script) session0
                       url0 allow_redirects w
      = (Raises (TransportError (SameLocation target)), w') /\
      trace w'
      = trace w ++ evs ++ [Close (status_code r); RetireSession s] /\
      s = current_session session0 evs /\
      filter is_post evs = [Post s url0] /\
      back_offs evs = [] /\
      keeps_session evs) /\
  (forall r' redirects url' redirects',
      _redirect_or_fail r' redirects allow_redirects = Ok (url', redirects') ->
      redirects' = redirects + 1 /\ redirects' <= MAX_REDIRECTS).
Proof.
  intros Hst Hget Hno. split; [|intros; eapply redirects_capped; eauto].
  unfold post_ratelimited.
  rewrite retry_loop_redirect_refused with (why := SameLocation target)
    by assumption.
  destruct (arrive_spec (initial_locals session0 url0) w d)
    as [evs [Ht [Hs [Hb [Hp [Hk _]]]]]].
  exists (session (fst (arrive (initial_locals session0 url0) w d))),
         (retire_session
            (session (fst (arrive (initial_locals session0 url0) w d)))
            (log (Close (status_code r))
                 (snd (arrive (initial_locals session0 url0) w d)))),
         evs.
  cbn. rewrite Ht, <- !app_assoc.
  repeat split; auto.
Qed.

Lemma post_ratelimited_same_location_witness :
  (exists s w' evs,
      post_ratelimited Examples.failing_fast
        [(Responds (Examples.redirect_to "https://host/ews/exchange.asmx"), 1)]
        0%nat Examples.ews_url true Examples.calm
      = (Raises (TransportError (SameLocation Examples.ews_url)), w') /\
      trace w'
      = trace Examples.calm ++ evs ++ [Close 302; RetireSession s] /\
      s = current_session 0%nat evs /\
      filter is_post evs = [Post s Examples.ews_url] /\
      back_offs evs = [] /\
      keeps_session evs) /\
  (forall r' redirects url' redirects',
      _redirect_or_fail r' redirects true = Ok (url', redirects') ->
      redirects' = redirects + 1 /\ redirects' <= MAX_REDIRECTS).
Proof.
  apply (@post_ratelimited_same_location Examples.failing_fast
           (Examples.redirect_to "https://host/ews/exchange.asmx") 1 []
           0%nat Examples.ews_url true Examples.calm Examples.ews_url).
  - right. reflexivity.
  - vm_compute. reflexivity.
  - reflexivity.
Defined.

End ExecutorFacts.

(** ** Properties of redirect resolution *)

Module RedirectFacts.




End RedirectFacts.

(** ** Equality tests and prefixes *)

Module Basics.

Lemma bytes_eqb_eq (x y : bytes) : bytes_eqb x y = true <-> x = y.
Proof.
  revert y. induction x as [|a x IH]; destruct y as [|c y]; simpl;
    try (split; discriminate); [tauto|].
  rewrite andb_true_iff, IH. split.
  - intros [H1 H2]. apply Byte.byte_dec_bl in H1. subst. reflexivity.
  - intros H. inversion H; subst. split; [apply Byte.byte_dec_lb|]; auto.
Qed.

Lemma str_eqb_eq (x y : str) : str_eqb x y = true <-> x = y.
Proof.
  revert y. induction x as [|a x IH]; destruct y as [|c y]; simpl;
    try (split; discriminate); [tauto|].
  rewrite andb_true_iff, IH, Ascii.eqb_eq. split.
  - intros [H1 H2]. subst. reflexivity.
  - intros H. inversion H; subst. auto.
Qed.

Lemma str_eqb_refl (x : str) : str_eqb x x = true.
Proof. apply str_eqb_eq. reflexivity. Qed.

(** A list starts with [p] when its first [length p] items are [p]. *)
Lemma firstn_prefix {A : Type} (p t : list A) :
  firstn (length p) t = p <-> exists rest, t = p ++ rest.
Proof.
  split.
  - intros H. exists (skipn (length p) t).
    rewrite <- H at 1. symmetry. apply firstn_skipn.
  - intros [rest ->]. rewrite firstn_app, Nat.sub_diag, firstn_all.
    cbn. apply app_nil_r.
Qed.

Lemma startswith_iff (t p : bytes) :
  startswith t p = true <-> exists rest, t = p ++ rest.
Proof. unfold startswith. rewrite bytes_eqb_eq. apply firstn_prefix. Qed.

End Basics.

(** ** Properties of the helpers of util.py *)

Module UtilFacts.
Import Util Basics.

Section Chunks.

Variable A : Type.

(** The chunk size as a count, when it is positive. *)
Variable c : nat.
Hypothesis c_positive : (0 < c)%nat.

Local Abbreviation loop := (@chunkify_loop A (Z.of_nat c)).

(** The loop fills the chunk under construction up to [c] items and then
    starts a new one. *)
Lemma chunkify_loop_fill :
  forall (xs chunk : list A),
    (length chunk < c)%nat ->
    loop xs chunk
    = if (length chunk + length xs <? c)%nat
      then match chunk ++ xs with [] => [] | _ => [chunk ++ xs] end
      else (chunk ++ firstn (c - length chunk) xs)
             :: loop (skipn (c - length chunk) xs) [].
Proof.
  induction xs as [|i xs IH]; intros chunk Hc.
  - cbn [chunkify_loop length]. rewrite Nat.add_0_r, app_nil_r.
    destruct (Nat.ltb_spec (length chunk) c); [|lia].
    destruct chunk; reflexivity.
  - cbn [chunkify_loop]. rewrite length_app. cbn [length].
    destruct (Z.eqb_spec (Z.of_nat (length chunk + 1)) (Z.of_nat c))
      as [E|E].
    + apply Nat2Z.inj in E.
      destruct (Nat.ltb_spec (length chunk + S (length xs)) c); [lia|].
      replace (c - length chunk)%nat with 1%nat by lia. reflexivity.
    + rewrite IH by (rewrite length_app; cbn; lia).
      rewrite length_app. cbn [length].
      replace (length chunk + 1 + length xs)%nat
        with (length chunk + S (length xs))%nat by lia.
      destruct (Nat.ltb_spec (length chunk + S (length xs)) c).
      * rewrite <- app_assoc. reflexivity.
      * replace (c - length chunk)%nat
          with (S (c - (length chunk + 1)))%nat by lia.
        cbn [firstn skipn]. rewrite <- app_assoc. reflexivity.
Qed.

Lemma chunkify_loop_unfold (xs : list A) :
  loop xs []
  = if (length xs <? c)%nat
    then match xs with [] => [] | _ => [xs] end
    else firstn c xs :: loop (skipn c xs) [].
Proof.
  rewrite chunkify_loop_fill by (cbn; lia).
  cbn [length app Nat.add]. rewrite Nat.sub_0_r. reflexivity.
Qed.

(** The chunks of the loop: they add up to the items, none is empty or
    longer than [c], and all but the last have [c] items. *)
Lemma chunkify_loop_chunks :
  forall (n : nat) (xs : list A),
    (length xs <= n)%nat ->
    concat (loop xs []) = xs /\
    Forall (fun ch => (1 <= length ch <= c)%nat) (loop xs []) /\
    (forall k, (S k < length (loop xs []))%nat ->
               length (nth k (loop xs []) []) = c).
Proof.
  induction n as [|n IH]; intros xs Hn; rewrite chunkify_loop_unfold;
    destruct (Nat.ltb_spec (length xs) c) as [Hlt|Hge].
  - destruct xs; [|cbn in Hn; lia].
    repeat split; [constructor | cbn; lia].
  - lia.
  - destruct xs as [|a xs]; cbn [concat length].
    + repeat split; [constructor | lia].
    + rewrite app_nil_r. repeat split; [|lia].
      constructor; [cbn in *; lia | constructor].
  - destruct (IH (skipn c xs)) as [Hcat [Hall Hnth]].
    { rewrite length_skipn. lia. }
    cbn [concat]. rewrite Hcat, firstn_skipn.
    repeat split.
    + constructor; [rewrite firstn_length_le by lia; lia | exact Hall].
    + intros [|k] Hk; cbn [nth].
      * apply firstn_length_le. lia.
      * apply Hnth. cbn [length] in Hk. lia.
Qed.

(** The slices of the first branch are the chunks of the loop. *)
Lemma slices_are_chunks :
  forall (fuel : nat) (pre rest : list A),
    (length rest <= fuel)%nat ->
    map (fun i => slice (pre ++ rest) i (i + c))
        (range_loop fuel (length pre) (length (pre ++ rest)) c)
    = loop rest [].
Proof.
  induction fuel as [|fuel IH]; intros pre rest Hf.
  - destruct rest; [|cbn in Hf; lia]. reflexivity.
  - cbn [range_loop]. rewrite chunkify_loop_unfold, length_app.
    destruct rest as [|a rest].
    + cbn [length]. rewrite Nat.add_0_r, Nat.ltb_irrefl.
      destruct (Nat.ltb_spec 0 c); [reflexivity|lia].
    + destruct (Nat.ltb_spec (length pre) (length pre + length (a :: rest)));
        [|cbn in *; lia].
      cbn [map].
      assert (Hslice : slice (pre ++ a :: rest) (length pre) (length pre + c)
                       = firstn c (a :: rest)).
      { unfold slice. rewrite firstn_app_2, skipn_app, skipn_all.
        rewrite Nat.sub_diag. reflexivity. }
      rewrite Hslice.
      destruct (Nat.ltb_spec (length (a :: rest)) c) as [Hlt|Hge].
      * rewrite firstn_all2 by lia. f_equal.
        destruct fuel; [reflexivity|]. cbn [range_loop].
        destruct (Nat.ltb_spec (length pre + c)
                               (length pre + length (a :: rest)));
          [lia|reflexivity].
      * f_equal.
        specialize (IH (pre ++ firstn c (a :: rest)) (skipn c (a :: rest))).
        rewrite <- app_assoc, firstn_skipn in IH.
        rewrite length_app, firstn_length_le in IH by lia.
        rewrite length_app in IH. apply IH.
        rewrite length_skipn. cbn [length] in *. lia.
Qed.

End Chunks.

(** For a positive chunk size both branches yield the chunks of the
    loop. *)
Lemma chunkify_positive (A : Type) (it : iterable A) (chunksize : Z) :
  (0 < chunksize)%Z ->
  chunkify it chunksize
  = Ok (chunkify_loop chunksize
          match it with Sequence l | Generator l => l end []).
Proof.
  intros Hpos. destruct it as [l|l]; [|reflexivity].
  unfold chunkify, range0.
  destruct (Z.eqb_spec chunksize 0); [lia|].
  destruct (Z.ltb_spec chunksize 0); [lia|]. cbn [bind]. f_equal.
  rewrite <- (Z2Nat.id chunksize) at 2 by lia.
  rewrite <- (@slices_are_chunks A (Z.to_nat chunksize)) with
    (fuel := length l) (pre := []) by lia.
  reflexivity.
Qed.

(** With a chunk size that is not positive the loop never closes a
    chunk. *)
Lemma chunkify_loop_never_full (A : Type) (chunksize : Z) :
  (chunksize <= 0)%Z ->
  forall xs chunk : list A,
    chunkify_loop chunksize xs chunk
    = match chunk ++ xs with [] => [] | _ => [chunk ++ xs] end.
Proof.
  intros Hc. induction xs as [|x xs IH]; intros chunk.
  - cbn. rewrite app_nil_r. destruct chunk; reflexivity.
  - cbn [chunkify_loop]. rewrite length_app. cbn [length].
    destruct (Z.eqb_spec (Z.of_nat (length chunk + 1)) chunksize); [lia|].
    rewrite IH, <- app_assoc. reflexivity.
Qed.

(** [chunkify] with a positive chunk size, on a list as on a generator:
    the chunks add up to the items in order, no chunk is empty or longer
    than the chunk size, and every chunk but the last has exactly that
    many items. *)
Theorem chunkify_chunks (A : Type) (it : iterable A) (chunksize : Z) :
  (0 < chunksize)%Z ->
  exists chunks,
    chunkify it chunksize = Ok chunks /\
    concat chunks = match it with Sequence l | Generator l => l end /\
    Forall (fun ch => (1 <= Z.of_nat (length ch) <= chunksize)%Z) chunks /\
    (forall k, (S k < length chunks)%nat ->
               Z.of_nat (length (nth k chunks [])) = chunksize).
Proof.
  intros Hpos. rewrite chunkify_positive by assumption.
  set (l := match it with Sequence l | Generator l => l end).
  eexists. split; [reflexivity|].
  rewrite <- (Z2Nat.id chunksize) by lia.
  destruct (@chunkify_loop_chunks A (Z.to_nat chunksize)) with
    (n := length l) (xs := l) as [Hcat [Hall Hnth]]; [lia | lia |].
  split; [exact Hcat|]. split.
  - eapply Forall_impl; [|exact Hall]. cbn. intros ch H. lia.
  - intros k Hk. rewrite Hnth by exact Hk. reflexivity.
Qed.

Lemma chunkify_chunks_witness :
  exists chunks,
    chunkify (Sequence [1; 2; 3; 4; 5; 6; 7]%nat) 3 = Ok chunks /\
    concat chunks = [1; 2; 3; 4; 5; 6; 7]%nat /\
    Forall (fun ch => (1 <= Z.of_nat (length ch) <= 3)%Z) chunks /\
    (forall k, (S k < length chunks)%nat ->
               Z.of_nat (length (nth k chunks [])) = 3%Z).
Proof.
  apply (@chunkify_chunks nat (Sequence [1; 2; 3; 4; 5; 6; 7]%nat) 3).
  reflexivity.
Defined.

(** A list and a generator of the same items are cut into the same chunks
    when the chunk size is positive. *)
Theorem chunkify_branches_agree (A : Type) (l : list A) (chunksize : Z) :
  (0 < chunksize)%Z ->
  chunkify (Generator l) chunksize = chunkify (Sequence l) chunksize.
Proof.
  intros Hpos. rewrite !chunkify_positive by assumption. reflexivity.
Qed.

Lemma chunkify_branches_agree_witness :
  chunkify (Generator [1; 2; 3; 4; 5]%nat) 2
  = chunkify (Sequence [1; 2; 3; 4; 5]%nat) 2.
Proof.
  apply (@chunkify_branches_agree nat [1; 2; 3; 4; 5]%nat 2). reflexivity.
Defined.

(** With a chunk size that is not positive the branches part: on a list a
    chunk size of 0 raises [ValueError] (the zero step of [range]) and a
    negative one yields nothing, while a generator is yielded whole, as
    one chunk, when it is not empty. *)
Theorem chunkify_nonpositive (A : Type) (l : list A) (chunksize : Z) :
  (chunksize <= 0)%Z ->
  chunkify (Sequence l) chunksize
  = (if (chunksize =? 0)%Z then Raise ValueError else Ok []) /\
  chunkify (Generator l) chunksize
  = Ok (match l with [] => [] | _ => [l] end).
Proof.
  intros Hc. split.
  - unfold chunkify, range0.
    destruct (Z.eqb_spec chunksize 0); [reflexivity|].
    destruct (Z.ltb_spec chunksize 0); [reflexivity|lia].
  - unfold chunkify. rewrite chunkify_loop_never_full by assumption.
    reflexivity.
Qed.

Lemma chunkify_nonpositive_witness :
  chunkify (Sequence [1; 2; 3]%nat) 0 = Raise ValueError /\
  chunkify (Generator [1; 2; 3]%nat) 0 = Ok [[1; 2; 3]%nat].
Proof.
  apply (@chunkify_nonpositive nat [1; 2; 3]%nat 0). lia.
Defined.

Lemma padded_aligned (data : str) :
  (length (data ++ repeat "="%char (StreamingBase64Parser.padding_len data))
   mod 4 = 0)%nat.
Proof.
  unfold StreamingBase64Parser.padding_len.
  rewrite length_app, repeat_length. cbv zeta.
  pose proof (Nat.mod_upper_bound (length data) 4 ltac:(lia)) as Hb.
  destruct (Nat.eqb_spec (length data mod 4) 0) as [E|E].
  - rewrite Nat.add_0_r. exact E.
  - rewrite (Nat.div_mod_eq (length data) 4) at 1.
    replace (4 * (length data / 4) + length data mod 4
             + (4 - length data mod 4))%nat
      with ((length data / 4 + 1) * 4)%nat by lia.
    apply Nat.Div0.mod_mul.
Qed.

Lemma safe_b64decode_aligned (b64decode : str -> option bytes) (d : str) :
  (length d mod 4 = 0)%nat ->
  StreamingBase64Parser.safe_b64decode b64decode d = b64decode d.
Proof.
  intros Hd.
  unfold StreamingBase64Parser.safe_b64decode,
    StreamingBase64Parser.padding_len.
  rewrite Hd. cbn. rewrite app_nil_r. reflexivity.
Qed.

Lemma safe_b64decode_padded (b64decode : str -> option bytes) (data : str) :
  StreamingBase64Parser.safe_b64decode b64decode
    (data ++ repeat "="%char (StreamingBase64Parser.padding_len data))
  = StreamingBase64Parser.safe_b64decode b64decode data.
Proof.
  rewrite safe_b64decode_aligned by apply padded_aligned. reflexivity.
Qed.

(** [safe_b64decode] always hands [b64decode] a text whose length is a
    multiple of 4: it appends at most three padding characters, none to a
    text that is aligned already, so that padding twice is padding once
    and a padded text decodes as [b64decode] decodes it. *)
Theorem safe_b64decode_pads (b64decode : str -> option bytes) (data : str) :
  let padding := StreamingBase64Parser.padding_len data in
  let padded := data ++ repeat "="%char padding in
  StreamingBase64Parser.safe_b64decode b64decode data = b64decode padded /\
  (length padded mod 4 = 0)%nat /\
  (padding <= 3)%nat /\
  ((length data mod 4 = 0)%nat ->
   StreamingBase64Parser.safe_b64decode b64decode data = b64decode data) /\
  StreamingBase64Parser.safe_b64decode b64decode padded
  = StreamingBase64Parser.safe_b64decode b64decode data.
Proof.
  intros padding padded.
  split; [reflexivity|]. split; [apply padded_aligned|]. split.
  - unfold padding, StreamingBase64Parser.padding_len. cbv zeta.
    destruct (Nat.eqb_spec (length data mod 4) 0); lia.
  - split; [apply safe_b64decode_aligned | apply safe_b64decode_padded].
Qed.

(** [is_xml] holds exactly of the byte strings that begin with [<?xml],
    or with the UTF-8 byte order mark followed by [<?xml]. *)
Theorem is_xml_iff (text : bytes) :
  is_xml text = true <->
  (exists rest, text = B "<?xml" ++ rest) \/
  (exists rest, text = BOM_UTF8 ++ B "<?xml" ++ rest).
Proof.
  unfold is_xml.
  change (length BOM_UTF8) with 3%nat.
  change (length (B "<?xml")) with 5%nat.
  destruct (bytes_eqb (firstn 3 text) BOM_UTF8) eqn:Ebom.
  - apply bytes_eqb_eq in Ebom.
    apply (firstn_prefix BOM_UTF8 text) in Ebom. destruct Ebom as [t' ->].
    change (skipn 3 (BOM_UTF8 ++ t')) with t'.
    rewrite bytes_eqb_eq.
    rewrite (firstn_prefix (B "<?xml") t').
    split.
    + intros [rest ->]. right. exists rest. reflexivity.
    + intros [[rest H]|[rest H]].
      * discriminate H.
      * apply app_inv_head in H. exists rest. exact H.
  - rewrite bytes_eqb_eq. rewrite (firstn_prefix (B "<?xml") text).
    split.
    + intros H. left. exact H.
    + intros [H|[rest ->]]; [exact H|].
      change (firstn 3 (BOM_UTF8 ++ B "<?xml" ++ rest)) with BOM_UTF8 in Ebom.
      discriminate Ebom.
Qed.

Lemma lower_char_idempotent (a : ascii) :
  Str.lower_char (Str.lower_char a) = Str.lower_char a.
Proof. destruct a as [[] [] [] [] [] [] [] []]; reflexivity. Qed.

Lemma lower_char_at (a : ascii) :
  Ascii.eqb (Str.lower_char a) "@" = Ascii.eqb a "@".
Proof. destruct a as [[] [] [] [] [] [] [] []]; reflexivity. Qed.

Lemma lower_idempotent (s : str) : Str.lower (Str.lower s) = Str.lower s.
Proof.
  unfold Str.lower. rewrite map_map. apply map_ext.
  exact lower_char_idempotent.
Qed.

Lemma lower_keeps_at (s : str) : Str.mem "@" (Str.lower s) = Str.mem "@" s.
Proof.
  unfold Str.lower. induction s as [|a s IH]; [reflexivity|].
  cbn [map Str.mem]. rewrite lower_char_at, IH. reflexivity.
Qed.

Lemma split_without (c : ascii) (s : str) :
  Str.mem c s = false -> split c s = [s].
Proof.
  induction s as [|a s IH]; [reflexivity|]. cbn.
  intros H. apply orb_false_iff in H. destruct H as [Ha Hs].
  rewrite Ha, (IH Hs). reflexivity.
Qed.

Lemma split_at_first (c : ascii) (l r : str) :
  Str.mem c l = false -> split c (l ++ c :: r) = l :: split c r.
Proof.
  induction l as [|a l IH]; cbn.
  - rewrite Ascii.eqb_refl. reflexivity.
  - intros H. apply orb_false_iff in H. destruct H as [Ha Hl].
    rewrite Ha, (IH Hl). reflexivity.
Qed.

Lemma split_parts (c : ascii) (s : str) :
  split c s <> [] /\ Forall (fun p => Str.mem c p = false) (split c s).
Proof.
  induction s as [|a s [Hne Hall]]; cbn.
  - split; [discriminate | repeat constructor].
  - destruct (Ascii.eqb a c) eqn:E.
    + split; [discriminate | constructor; [reflexivity | exact Hall]].
    + destruct (split c s) as [|p ps]; [contradiction|].
      inversion Hall; subst.
      split; [discriminate|]. constructor; [|assumption].
      cbn. rewrite E. assumption.
Qed.

(** [get_domain]: an address without [@] is a [ValueError]; of
    [local@domain], with no [@] in either part, it gives the domain in
    lower case; whatever it returns holds no [@] and no upper-case ASCII
    letter (lowering it again changes nothing). Of an address with more
    than one [@] it gives the part between the first two. *)
Theorem get_domain_spec :
  (forall email, Str.mem "@" email = false ->
                 get_domain email = Raise ValueError) /\
  (forall local domain,
      Str.mem "@" local = false -> Str.mem "@" domain = false ->
      get_domain (local ++ "@"%char :: domain) = Ok (Str.lower domain)) /\
  (forall local middle rest,
      Str.mem "@" local = false -> Str.mem "@" middle = false ->
      get_domain (local ++ "@"%char :: middle ++ "@"%char :: rest)
      = Ok (Str.lower middle)) /\
  (forall email domain,
      get_domain email = Ok domain ->
      Str.mem "@" domain = false /\ Str.lower domain = domain).
Proof.
  split; [|split; [|split]].
  - intros email H. unfold get_domain. rewrite split_without by exact H.
    reflexivity.
  - intros local domain Hl Hd. unfold get_domain.
    rewrite split_at_first, split_without by assumption. reflexivity.
  - intros local middle rest Hl Hm. unfold get_domain.
    rewrite !split_at_first by assumption. reflexivity.
  - intros email domain. unfold get_domain.
    destruct (split_parts "@" email) as [_ Hall].
    destruct (split "@" email) as [|p [|d ps]]; try discriminate.
    intros H. inversion H; subst.
    inversion Hall as [|? ? _ Hall']; subst.
    inversion Hall' as [|? ? Hd _]; subst.
    rewrite lower_keeps_at, lower_idempotent. auto.
Qed.

Lemma get_domain_spec_witness :
  get_domain (U "John.Doe@Example.COM") = Ok (U "example.com") /\
  get_domain (U "example.com") = Raise ValueError /\
  get_domain (U "a@B@c") = Ok (U "b").
Proof.
  destruct get_domain_spec as [Hnone [Hone [Htwo _]]].
  split; [|split].
  - apply (Hone (U "John.Doe") (U "Example.COM")); reflexivity.
  - apply Hnone. reflexivity.
  - apply (Htwo (U "a") (U "B") (U "c")); reflexivity.
Defined.

(** [safe_xml_value] with a replacement that holds no backslash, so that
    [re.sub] takes it literally, and no illegal character: the result has
    no illegal character; text without one is returned as it is; applying
    the function again changes nothing; and with a replacement of one
    character the length is kept. *)
Theorem safe_xml_value_clean (value replacement : text) :
  literal_template replacement = true ->
  Forall (fun c => illegal_xml_char c = false) replacement ->
  exists cleaned,
    safe_xml_value value replacement = Some cleaned /\
    Forall (fun c => illegal_xml_char c = false) cleaned /\
    (Forall (fun c => illegal_xml_char c = false) value ->
     cleaned = value) /\
    safe_xml_value cleaned replacement = Some cleaned /\
    (length replacement = 1%nat -> length cleaned = length value).
Proof.
  intros Hlit Hr. unfold safe_xml_value. rewrite Hlit.
  set (f := fun c => if illegal_xml_char c then replacement else [c]).
  assert (Hclean : forall v,
             Forall (fun c => illegal_xml_char c = false) (flat_map f v)).
  { induction v as [|c v IH]; [constructor|].
    cbn [flat_map]. apply Forall_app. split; [|exact IH].
    unfold f. destruct (illegal_xml_char c) eqn:E; [exact Hr|].
    constructor; [exact E | constructor]. }
  assert (Hid : forall v,
             Forall (fun c => illegal_xml_char c = false) v ->
             flat_map f v = v).
  { induction v as [|c v IH]; [reflexivity|].
    intros H. inversion H as [|? ? Hc Hv]; subst.
    cbn [flat_map]. unfold f at 1. rewrite Hc, (IH Hv). reflexivity. }
  exists (flat_map f value).
  split; [reflexivity|]. split; [apply Hclean|]. split; [apply Hid|].
  split; [rewrite Hid by apply Hclean; reflexivity|].
  intros Hlen. induction value as [|c value IH]; [reflexivity|].
  cbn [flat_map length]. rewrite length_app, IH. unfold f.
  destruct (illegal_xml_char c); [rewrite Hlen|]; reflexivity.
Qed.

(** The text [a], a NUL, [b], a vertical tab and a surrogate, with the
    default replacement [?] (code point 63). *)
Lemma safe_xml_value_clean_witness :
  safe_xml_value [97; 0; 98; 11; 55296]%N [63%N]
  = Some [97; 63; 98; 63; 63]%N /\
  exists cleaned,
    safe_xml_value [97; 0; 98; 11; 55296]%N [63%N] = Some cleaned /\
    Forall (fun c => illegal_xml_char c = false) cleaned.
Proof.
  split; [reflexivity|].
  destruct (@safe_xml_value_clean [97; 0; 98; 11; 55296]%N [63%N])
    as [cleaned [Hs [Hc _]]].
  - reflexivity.
  - repeat constructor.
  - exists cleaned. split; assumption.
Defined.

(** [xml_text_to_value] for [bool] never raises and looks at the text in
    lower case only: [true] and [on] give True, [false] and [off] give
    False, in any mix of cases, and every other text gives None, among
    them the [1] and [0] that [value_to_xml_text] writes for a bool. For
    [bytes] a text and the same text padded to a multiple of 4 give the
    same result. *)
Theorem xml_text_to_value_reads (b64decode : str -> option bytes)
        (convert : value_type -> str -> result py_value) (value : str) :
  let read := xml_text_to_value b64decode convert in
  (read value T_bool = Ok (V_bool true) <->
   Str.lower value = U "true" \/ Str.lower value = U "on") /\
  (read value T_bool = Ok (V_bool false) <->
   Str.lower value = U "false" \/ Str.lower value = U "off") /\
  (read value T_bool = Ok V_None \/ exists b, read value T_bool = Ok (V_bool b))
  /\
  read (U "1") T_bool = Ok V_None /\
  read (U "0") T_bool = Ok V_None /\
  read (value ++ repeat "="%char (StreamingBase64Parser.padding_len value))
       T_bytes
  = read value T_bytes.
Proof.
  intros read. unfold read, xml_text_to_value.
  destruct (str_eqb (Str.lower value) (U "true")) eqn:E1;
    [apply str_eqb_eq in E1|];
    [|destruct (str_eqb (Str.lower value) (U "on")) eqn:E2;
      [apply str_eqb_eq in E2|];
      [|destruct (str_eqb (Str.lower value) (U "false")) eqn:E3;
        [apply str_eqb_eq in E3|];
        [|destruct (str_eqb (Str.lower value) (U "off")) eqn:E4;
          [apply str_eqb_eq in E4|]]]].
  all: repeat split; try reflexivity; eauto;
    try (intros H; discriminate H);
    try (intros [H|H]; rewrite H in *; discriminate);
    try (rewrite safe_b64decode_padded; reflexivity).
  all: intros [H|H];
    match goal with
    | E : str_eqb ?x ?y = false |- _ =>
        rewrite H in E; vm_compute in E; discriminate E
    end.
Qed.

End UtilFacts.

(** ** Properties of BytesGeneratorIO *)

Module BytesGeneratorIOFacts.
Import BytesGeneratorIO.
Local Open Scope Z_scope.

(** Splits what is known about the size argument and closes the
    arithmetic. *)
Ltac settle :=
  repeat match goal with
         | H : _ \/ _ |- _ => destruct H
         | H : exists _, _ |- _ => destruct H
         | H : _ /\ _ |- _ => destruct H
         | H : ?s = Some _ |- _ => rewrite H in *; clear H
         | H : ?s = None |- _ => rewrite H in *; clear H
         end;
  cbn in *; try lia; try reflexivity; auto.

(** What the loop of [read] gathers: nothing is lost, it stops with at
    least [size] bytes in hand unless the generator is exhausted, and it
    runs to exhaustion for a negative [size]. *)
Lemma read_loop_spec (size : Z) :
  forall (gen : list bytes) (res : bytes),
    let '(res', exhausted, gen') := read_loop size gen res in
    res ++ concat gen = res' ++ concat gen' /\
    (exhausted = true ->
     gen' = [] /\ (size < 0 \/ Z.of_nat (length res') < size)) /\
    (exhausted = false -> 0 <= size <= Z.of_nat (length res')).
Proof.
  induction gen as [|chunk gen IH]; intros res.
  - cbn [read_loop].
    destruct (Z.ltb_spec size 0); cbn [orb].
    + repeat split; auto; discriminate.
    + destruct (Z.ltb_spec (Z.of_nat (length res)) size).
      * repeat split; auto; discriminate.
      * repeat split; try discriminate; lia.
  - cbn [read_loop].
    destruct ((size <? 0) || (Z.of_nat (length res) <? size)) eqn:E.
    + specialize (IH (res ++ chunk)).
      destruct (read_loop size gen (res ++ chunk)) as [[res' ex] gen'].
      destruct IH as [Hcat H]. split; [|exact H].
      rewrite <- Hcat. cbn [concat]. rewrite app_assoc. reflexivity.
    + apply orb_false_iff in E. destruct E as [E1 E2].
      apply Z.ltb_ge in E1. apply Z.ltb_ge in E2.
      repeat split; try discriminate; lia.
Qed.

(** A read with a size other than 0 on an open stream. *)
Lemma read_step (self : t) (size : option Z) :
  closed self = false ->
  size <> Some 0 ->
  exists data self',
    read self size = Ok (data, self') /\
    remaining self = data ++ remaining self' /\
    _tell self' = _tell self + Z.of_nat (length data) /\
    closed self' = false /\
    (forall n, size = Some n -> 0 < n ->
               Z.of_nat (length data) <= n /\
               (Z.of_nat (length data) < n -> _next self' = None)) /\
    (size = None \/ (exists n, size = Some n /\ n < 0) ->
     data = remaining self /\ _next self' = None).
Proof.
  intros Hopen Hsize. unfold read, remaining. rewrite Hopen.
  destruct (_next self) as [stash|] eqn:En.
  2:{ exists [], self. rewrite En. cbn. repeat split; auto; lia. }
  set (n := match size with None => -1 | Some n => n end).
  pose proof (read_loop_spec n (_bytes_generator self) stash) as Hloop.
  destruct (read_loop n (_bytes_generator self) stash) as [[res ex] gen].
  destruct Hloop as [Hcat [Hex Hnot]].
  assert (Hn0 : n <> 0) by (unfold n; destruct size; congruence).
  destruct ex.
  - destruct (Hex eq_refl) as [-> Hshort]. cbn [negb andb].
    rewrite andb_false_r.
    eexists. eexists. split; [reflexivity|]. cbn.
    rewrite Hcat. cbn [concat]. rewrite !app_nil_r.
    repeat split; auto; intros; unfold n in *; settle.
  - specialize (Hnot eq_refl). cbn [negb]. rewrite andb_true_r.
    destruct (Z.ltb_spec 0 n); [|lia].
    eexists. eexists. split; [reflexivity|]. cbn.
    rewrite Hcat, app_assoc, firstn_skipn.
    assert (Hlen : Z.of_nat (length (firstn (Z.to_nat n) res)) = n).
    { rewrite firstn_length_le by lia. lia. }
    repeat split; auto; intros; unfold n in *; settle.
Qed.

(** [read(size)] on an open stream, for a size other than 0, loses and
    repeats nothing: the data returned followed by what the stream has
    still to give is what it had to give before, and [tell] advances by the
    length of the data. For a positive size the data is at most [size]
    bytes, and shorter only when the generator is exhausted; without a size
    or with a negative one the data is all that was left. *)
Theorem read_conserves (self : t) (size : option Z) :
  closed self = false ->
  size <> Some 0 ->
  exists data self',
    read self size = Ok (data, self') /\
    remaining self = data ++ remaining self' /\
    _tell self' = _tell self + Z.of_nat (length data) /\
    closed self' = false /\
    (forall n, size = Some n -> 0 < n ->
               Z.of_nat (length data) <= n /\
               (Z.of_nat (length data) < n -> _next self' = None)) /\
    (size = None \/ (exists n, size = Some n /\ n < 0) ->
     data = remaining self /\ _next self' = None).
Proof. apply read_step. Qed.

Lemma read_conserves_witness :
  exists data self',
    read (__init__ [B "abc"; B "de"; B "fgh"]) (Some 4) = Ok (data, self') /\
    remaining (__init__ [B "abc"; B "de"; B "fgh"])
    = data ++ remaining self' /\
    _tell self' = 0 + Z.of_nat (length data) /\
    closed self' = false /\
    (forall n, Some 4 = Some n -> 0 < n ->
               Z.of_nat (length data) <= n /\
               (Z.of_nat (length data) < n -> _next self' = None)) /\
    (Some 4 = None \/ (exists n, Some 4 = Some n /\ n < 0) ->
     data = remaining (__init__ [B "abc"; B "de"; B "fgh"])
     /\ _next self' = None).
Proof.
  apply (@read_conserves (__init__ [B "abc"; B "de"; B "fgh"]) (Some 4)).
  - reflexivity.
  - discriminate.
Defined.

(** [read(0)] on an open stream returns the whole stash and keeps it: the
    object changes in [_tell] only, so that the bytes returned are given
    out again by the next read, and [tell] has counted them twice. On a
    fresh stream, whose stash is empty, it returns no byte. A closed stream
    raises [ValueError], and an exhausted one returns no byte. *)
Theorem read_zero_keeps_stash (self : t) (stash : bytes) :
  closed self = false ->
  _next self = Some stash ->
  read self (Some 0)
  = Ok (stash, mk (_bytes_generator self) (Some stash)
                  (_tell self + Z.of_nat (length stash)) false) /\
  (forall gen, read (__init__ gen) (Some 0)
               = Ok ([], mk gen (Some []) 0 false)) /\
  (forall size, read (close self) size = Raise ValueError) /\
  (forall gen tell size,
      read (mk gen None tell false) size = Ok ([], mk gen None tell false)).
Proof.
  intros Hopen Hnext. split; [|split; [|split]].
  - unfold read. rewrite Hopen, Hnext.
    destruct (_bytes_generator self); cbn [read_loop];
      (replace ((0 <? 0) || (Z.of_nat (length stash) <? 0)) with false
        by (symmetry; apply orb_false_iff; split;
            [reflexivity | apply Z.ltb_ge; lia]));
      reflexivity.
  - intros gen. unfold read. cbn. destruct gen; reflexivity.
  - reflexivity.
  - reflexivity.
Qed.

Lemma read_zero_keeps_stash_witness :
  read (mk [B "fgh"] (Some (B "e")) 4 false) (Some 0)
  = Ok (B "e", mk [B "fgh"] (Some (B "e")) 5 false).
Proof.
  apply (@read_zero_keeps_stash (mk [B "fgh"] (Some (B "e")) 4 false)
                                (B "e") eq_refl eq_refl).
Defined.

(** Reading with a positive size until a read comes back empty gives all
    the bytes of the stream, in order: every read before the empty one
    returns between 1 and [size] bytes, all but the last of them exactly
    [size]; and afterwards the stream is exhausted and [tell] has advanced
    by the number of bytes. The number of reads needed is at most the
    number of bytes left plus one. *)
Theorem read_until_empty_drains (self : t) (size : Z) :
  closed self = false ->
  0 < size ->
  exists ds self',
    read_until_empty (S (length (remaining self))) self size
    = Some (ds, self') /\
    concat ds = remaining self /\
    Forall (fun d => 1 <= Z.of_nat (length d) <= size) ds /\
    (forall k, (S k < length ds)%nat ->
               Z.of_nat (length (nth k ds [])) = size) /\
    _next self' = None /\
    _tell self' = _tell self + Z.of_nat (length (remaining self)).
Proof.
  intros Hopen Hsize.
  assert (H : forall fuel s,
             closed s = false ->
             (length (remaining s) < fuel)%nat ->
             exists ds s',
               read_until_empty fuel s size = Some (ds, s') /\
               concat ds = remaining s /\
               Forall (fun d => 1 <= Z.of_nat (length d) <= size) ds /\
               (forall k, (S k < length ds)%nat ->
                          Z.of_nat (length (nth k ds [])) = size) /\
               _next s' = None /\
               _tell s' = _tell s + Z.of_nat (length (remaining s))).
  { induction fuel as [|fuel IH]; intros s Ho Hf; [lia|].
    cbn [read_until_empty].
    destruct (@read_step s (Some size) Ho)
      as [data [s1 [Hr [Hrem [Ht [Ho1 [Hpos _]]]]]]];
      [intros E; inversion E; lia|].
    destruct (Hpos size eq_refl Hsize) as [Hle Hshort].
    rewrite Hr. destruct data as [|b data].
    - exists [], s1. split; [reflexivity|].
      assert (Hn : _next s1 = None) by (apply Hshort; cbn; lia).
      assert (Hz : remaining s1 = [])
        by (unfold remaining; rewrite Hn; reflexivity).
      rewrite Hrem, Hz. cbn. repeat split; auto; lia.
    - destruct (IH s1 Ho1) as [ds [s2 [Hd [Hc [Hall [Hnth [Hn Ht2]]]]]]].
      { rewrite Hrem, length_app in Hf. cbn [length] in Hf. lia. }
      rewrite Hd. exists ((b :: data) :: ds), s2.
      split; [reflexivity|]. cbn [concat]. rewrite Hc, <- Hrem.
      split; [reflexivity|]. split.
      { constructor; [cbn [length] in *; lia | exact Hall]. }
      split.
      { intros [|k] Hk; cbn [nth].
        - destruct (Z.eq_dec (Z.of_nat (length (b :: data))) size) as [E|E];
            [exact E|].
          assert (Hn1 : _next s1 = None) by (apply Hshort; lia).
          assert (Hz : remaining s1 = [])
            by (unfold remaining; rewrite Hn1; reflexivity).
          rewrite Hz in Hc. destruct ds as [|d ds]; [cbn in Hk; lia|].
          inversion Hall as [|? ? Hd1 _]; subst.
          cbn [concat] in Hc. apply app_eq_nil in Hc. destruct Hc as [-> _].
          cbn in Hd1. lia.
        - apply Hnth. cbn [length] in Hk. lia. }
      split; [exact Hn|].
      rewrite Ht2, Ht, Hrem, length_app. lia. }
  apply H; [exact Hopen | lia].
Qed.

Lemma read_until_empty_drains_witness :
  exists ds self',
    read_until_empty 9 (__init__ [B "abc"; B "de"; B "fgh"]) 3
    = Some (ds, self') /\
    concat ds = B "abcdefgh" /\
    _tell self' = 8.
Proof.
  destruct (@read_until_empty_drains (__init__ [B "abc"; B "de"; B "fgh"]) 3
              eq_refl eq_refl)
    as [ds [self' [Hr [Hc [_ [_ [_ Ht]]]]]]].
  exists ds, self'. split; [exact Hr|]. split; [exact Hc | exact Ht].
Defined.

End BytesGeneratorIOFacts.

(** ** More properties of DocumentYielder *)

Module DocumentYielderInvariants.
Import DocumentYielder DocumentShape Basics.

Lemma endswith_iff (s p : bytes) :
  endswith s p = true <-> exists pre, s = pre ++ p.
Proof.
  unfold endswith. rewrite andb_true_iff, Nat.leb_le, bytes_eqb_eq. split.
  - intros [Hle Heq]. exists (firstn (length s - length p) s).
    pose proof (firstn_skipn (length s - length p) s) as Hsplit.
    rewrite Heq in Hsplit. symmetry. exact Hsplit.
  - intros [pre ->]. rewrite length_app. split; [lia|].
    replace (length pre + length p - length p)%nat with (length pre) by lia.
    rewrite skipn_app, skipn_all, Nat.sub_diag. reflexivity.
Qed.

Lemma iter_loop_framed (self : t) :
  forall fuel it doc_started buffer docs,
    buffer_ok self doc_started buffer ->
    iter_loop self fuel it doc_started buffer = Some docs ->
    Forall (framed self) docs.
Proof.
  induction fuel as [|fuel IH]; intros it ds buf docs Hok H;
    [discriminate|].
  destruct it as [|c it1].
  - cbn in H. inversion H. constructor.
  - rewrite DocumentYielderFacts.iter_loop_step in H.
    destruct (get_tag (B " ") it1) as [tag1 r1].
    destruct (get_tag (B ">") it1) as [tag2 r2].
    destruct ds; cbn [negb andb] in H.
    + destruct Hok as [rest Hrest].
      assert (Hnext : forall x, buffer_ok self true (buf ++ [x])).
      { intros x. exists (rest ++ x). rewrite concat_app, Hrest. cbn.
        rewrite app_nil_r, app_assoc. reflexivity. }
      destruct (bytes_eqb c (B "<")).
      * destruct (endswith tag2 (_end_token self)) eqn:Eend.
        -- destruct (iter_loop self fuel r2 false []) as [more|] eqn:Em;
             [|discriminate].
           inversion H; subst. constructor.
           ++ split.
              ** exists (rest ++ tag2). rewrite concat_app, Hrest. cbn.
                 rewrite app_nil_r, <- app_assoc. reflexivity.
              ** apply endswith_iff. apply endswith_iff in Eend.
                 destruct Eend as [pre ->].
                 exists (xml_declaration ++ concat buf ++ pre).
                 rewrite concat_app. cbn. rewrite app_nil_r, <- !app_assoc.
                 reflexivity.
           ++ eapply IH; [|exact Em]. reflexivity.
        -- eapply IH; [|exact H]. apply Hnext.
      * eapply IH; [|exact H]. apply Hnext.
    + unfold buffer_ok in Hok. subst buf.
      destruct (bytes_eqb c (B "<")).
      * destruct (startswith tag1 (_start_token self)) eqn:Es.
        -- eapply IH; [|exact H]. apply startswith_iff in Es.
           destruct Es as [rest ->]. exists rest. cbn.
           rewrite app_nil_r. reflexivity.
        -- eapply IH; [|exact H]. reflexivity.
      * eapply IH; [|exact H]. reflexivity.
Qed.

(** Every document the splitter yields, on any input, is the XML
    declaration followed by a text that begins with the start token
    ([<] and the root tag) and ends with the end token ([/], the root tag
    and [>]). *)
Theorem documents_framed (self : t) (it : list bytes) (docs : list bytes) :
  __iter__ self it = Some docs ->
  Forall (fun doc =>
            (exists body,
                doc = xml_declaration ++ _start_token self ++ body) /\
            endswith doc (_end_token self) = true) docs.
Proof.
  intros H. eapply iter_loop_framed; [|exact H]. reflexivity.
Qed.

Lemma documents_framed_witness :
  Forall (fun doc =>
            (exists body,
                doc = xml_declaration
                        ++ _start_token (__init__ "Envelope") ++ body) /\
            endswith doc (_end_token (__init__ "Envelope")) = true)
         [xml_declaration ++ Examples.envelope1;
          xml_declaration ++ Examples.envelope2].
Proof.
  apply (@documents_framed (__init__ "Envelope")
           (byte_by_byte Examples.two_envelopes)).
  vm_compute. reflexivity.
Defined.

Lemma get_tag_loop_to_end (stop_byte : bytes) :
  forall (it tag_buffer : list bytes),
    Forall (fun c => bytes_eqb c stop_byte = false) it ->
    get_tag_loop stop_byte it tag_buffer = (tag_buffer ++ it, []).
Proof.
  induction it as [|c it IH]; intros tb H.
  - cbn. rewrite app_nil_r. reflexivity.
  - inversion H as [|? ? Hc Hit]; subst. cbn [get_tag_loop].
    rewrite Hc, (IH _ Hit), <- app_assoc. reflexivity.
Qed.

Lemma iter_loop_silent (self : t) :
  forall fuel it doc_started buffer,
    (length it < fuel)%nat ->
    (Forall (fun c => bytes_eqb c (B " ") = false) it
     /\ doc_started = false)
    \/ Forall (fun c => bytes_eqb c (B "<") = false) it ->
    iter_loop self fuel it doc_started buffer = Some [].
Proof.
  induction fuel as [|fuel IH]; intros it ds buf Hf Hno; [lia|].
  destruct it as [|c it1]; [reflexivity|].
  rewrite DocumentYielderFacts.iter_loop_step. cbn [length] in Hf.
  destruct Hno as [[Hsp ->]|Hlt].
  - inversion Hsp as [|? ? Hc Hit]; subst. cbn [negb andb].
    unfold get_tag. rewrite (@get_tag_loop_to_end _ _ _ Hit).
    destruct (bytes_eqb c (B "<")).
    + destruct (startswith _ _); destruct fuel; try lia; reflexivity.
    + apply IH; [lia|]. left. auto.
  - inversion Hlt as [|? ? Hc Hit]; subst. rewrite Hc.
    rewrite !andb_false_r.
    destruct ds; apply IH; try lia; right; exact Hit.
Qed.

(** The splitter yields nothing at all from an input without an item
    [b' '], whatever tags it holds: the opening tag is read up to the next
    space, and without one up to the end of the input. Nor does it yield
    anything from an input without an item [b'<'], as when the iterator
    hands out chunks of several bytes. *)
Theorem no_space_no_document (self : t) (it : list bytes) :
  Forall (fun c => bytes_eqb c (B " ") = false) it
  \/ Forall (fun c => bytes_eqb c (B "<") = false) it ->
  __iter__ self it = Some [].
Proof.
  intros H. apply iter_loop_silent; [lia|].
  destruct H as [H|H]; [left; auto | right; exact H].
Qed.

Lemma no_space_no_document_witness :
  __iter__ (__init__ "Envelope")
           (byte_by_byte (B "<Envelope><Body/></Envelope>"))
  = Some [] /\
  __iter__ (__init__ "Envelope") [B "<Envelope a>"; B "x</Envelope>"]
  = Some [].
Proof.
  split.
  - apply (@no_space_no_document (__init__ "Envelope")
             (byte_by_byte (B "<Envelope><Body/></Envelope>"))).
    left. repeat constructor.
  - apply (@no_space_no_document (__init__ "Envelope")
             [B "<Envelope a>"; B "x</Envelope>"]).
    right. repeat constructor.
Defined.

Lemma get_tag_loop_text (stop_byte : bytes) :
  forall (it tag_buffer : list bytes),
    concat (fst (get_tag_loop stop_byte it tag_buffer))
      ++ concat (snd (get_tag_loop stop_byte it tag_buffer))
    = concat tag_buffer ++ concat it.
Proof.
  induction it as [|c it IH]; intros tb; cbn [get_tag_loop].
  - reflexivity.
  - destruct (bytes_eqb c stop_byte); cbn [fst snd].
    + rewrite concat_app. cbn. rewrite app_nil_r, <- app_assoc.
      reflexivity.
    + rewrite IH, concat_app. cbn. rewrite app_nil_r, <- app_assoc.
      reflexivity.
Qed.

(** A tag and what is left of the iterator make up the [<] and the
    iterator it was read from. *)
Lemma get_tag_text (stop_byte : bytes) (it : list bytes) tag it' :
  get_tag stop_byte it = (tag, it') ->
  tag ++ concat it' = B "<" ++ concat it.
Proof.
  unfold get_tag. intros H.
  pose proof (get_tag_loop_text stop_byte it [B "<"]) as L.
  destruct (get_tag_loop stop_byte it [B "<"]) as [tb r].
  inversion H; subst. exact L.
Qed.

(** Bytes in front of the pieces widen the first gap, or the tail when
    there is no piece. *)
Lemma widen_gap (x : bytes) (pieces : list (bytes * bytes)) (tail : bytes) :
  exists pieces' tail',
    x ++ pieces_text pieces ++ tail = pieces_text pieces' ++ tail' /\
    map snd pieces' = map snd pieces.
Proof.
  destruct pieces as [|[g b] pieces].
  - exists [], (x ++ tail). split; reflexivity.
  - exists ((x ++ g, b) :: pieces), tail. split; [|reflexivity].
    unfold pieces_text. cbn. rewrite <- !app_assoc. reflexivity.
Qed.

Lemma iter_loop_pieces (self : t) :
  forall fuel it doc_started buffer docs,
    (doc_started = false -> buffer = []) ->
    iter_loop self fuel it doc_started buffer = Some docs ->
    exists pieces tail,
      concat buffer ++ concat it = pieces_text pieces ++ tail /\
      docs = map (fun b => xml_declaration ++ b) (map snd pieces) /\
      (doc_started = true ->
       match pieces with (g, _) :: _ => g = [] | [] => True end).
Proof.
  assert (Hopen : forall b : list bytes, true = false -> b = [])
    by discriminate.
  induction fuel as [|fuel IH]; intros it ds buf docs Hbuf H;
    [discriminate|].
  destruct it as [|c it1].
  - cbn in H. inversion H. exists [], (concat buf ++ []).
    repeat split; auto.
  - rewrite DocumentYielderFacts.iter_loop_step in H.
    destruct (get_tag (B " ") it1) as [tag1 r1] eqn:E1.
    destruct (get_tag (B ">") it1) as [tag2 r2] eqn:E2.
    apply get_tag_text in E1. apply get_tag_text in E2.
    cbn [concat].
    destruct ds; cbn [negb andb] in H.
    + destruct (bytes_eqb c (B "<")) eqn:Ec.
      * apply bytes_eqb_eq in Ec. subst c. rewrite <- E2.
        destruct (endswith tag2 (_end_token self)).
        -- destruct (iter_loop self fuel r2 false []) as [more|] eqn:Em;
             [|discriminate].
           destruct (IH _ _ _ _ (fun _ => eq_refl) Em)
             as [pieces [tail [Hc [Hd _]]]].
           inversion H; subst docs. cbn [concat app] in Hc.
           exists (([], concat (buf ++ [tag2])) :: pieces), tail.
           split.
           { unfold pieces_text in *. cbn [map concat fst snd app].
             rewrite concat_app. cbn [concat].
             rewrite app_nil_r, <- !app_assoc, Hc. reflexivity. }
           split; [rewrite Hd; reflexivity | reflexivity].
        -- destruct (IH _ _ _ _ (Hopen _) H)
             as [pieces [tail [Hc Hrest]]].
           exists pieces, tail. split; [|exact Hrest].
           rewrite <- Hc, concat_app. cbn [concat].
           rewrite app_nil_r, <- !app_assoc. reflexivity.
      * destruct (IH _ _ _ _ (Hopen _) H)
          as [pieces [tail [Hc Hrest]]].
        exists pieces, tail. split; [|exact Hrest].
        rewrite <- Hc, concat_app. cbn [concat].
        rewrite app_nil_r, <- !app_assoc. reflexivity.
    + rewrite (Hbuf eq_refl) in *. cbn [concat app].
      destruct (bytes_eqb c (B "<")) eqn:Ec.
      * apply bytes_eqb_eq in Ec. subst c. rewrite <- E1.
        destruct (startswith tag1 (_start_token self)).
        -- destruct (IH _ _ _ _ (Hopen _) H)
             as [pieces [tail [Hc [Hd _]]]].
           exists pieces, tail. cbn in Hc. rewrite app_nil_r in Hc.
           repeat split; auto. discriminate.
        -- destruct (IH _ _ _ _ (fun _ => eq_refl) H)
             as [pieces [tail [Hc [Hd _]]]].
           cbn [concat app] in Hc. rewrite Hc.
           destruct (widen_gap tag1 pieces tail)
             as [pieces' [tail' [Hw Hs]]].
           exists pieces', tail'. rewrite Hs.
           repeat split; auto. discriminate.
      * destruct (IH _ _ _ _ (fun _ => eq_refl) H)
          as [pieces [tail [Hc [Hd _]]]].
        cbn [concat app] in Hc. rewrite Hc.
        destruct (widen_gap c pieces tail) as [pieces' [tail' [Hw Hs]]].
        exists pieces', tail'. rewrite Hs.
        repeat split; auto. discriminate.
Qed.

(** The splitter invents and reorders nothing. On every input it returns,
    and the input, joined, is cut into pieces, each a gap followed by a
    body, and a tail, such that the documents yielded are the bodies, in
    this order, each behind the XML declaration: every document is a
    stretch of the input as it stands, and the documents do not overlap. *)
Theorem documents_are_stretches (self : t) (it : list bytes) :
  exists docs pieces tail,
    __iter__ self it = Some docs /\
    concat it = pieces_text pieces ++ tail /\
    docs = map (fun gb => xml_declaration ++ snd gb) pieces.
Proof.
  destruct (DocumentYielderFacts.iter_total self it) as [docs H].
  destruct (@iter_loop_pieces self _ _ _ _ _ (fun _ => eq_refl) H)
    as [pieces [tail [Hc [Hd _]]]].
  exists docs, pieces, tail. split; [exact H|]. split; [exact Hc|].
  rewrite Hd, map_map. reflexivity.
Qed.

End DocumentYielderInvariants.

(** ** More properties of redirect resolution *)

Module RedirectInvariants.
Import Executor Basics.
Local Open Scope Z_scope.

Lemma split_after_scheme_raises (scheme u : str) e :
  Urllib.split_after_scheme scheme u = Raise e -> e = ValueError.
Proof.
  unfold Urllib.split_after_scheme.
  destruct (str_eqb (firstn 2 u) (U "//")).
  - destruct (Urllib._splitnetloc u 2) as [netloc rest].
    destruct (Urllib.unbalanced_brackets netloc); cbn [bind].
    + intros E. inversion E. reflexivity.
    + discriminate.
  - cbn [bind]. discriminate.
Qed.

(** [urlparse] raises nothing but [ValueError]. *)
Lemma split_url_raises (u : str) e :
  split_url u = Raise e -> e = ValueError.
Proof.
  unfold split_url, Urllib.urlparse.
  destruct (Urllib.urlsplit u) as [[[scheme netloc] rest]|e0] eqn:E;
    cbn [bind]; [discriminate|].
  intros H. inversion H; subst e0. clear H. revert E.
  unfold Urllib.urlsplit.
  repeat match goal with
         | |- context [match ?x with _ => _ end] => destruct x
         end;
    apply split_after_scheme_raises.
Qed.

(** The two flags of [get_redirect_url] never change the URL it works out,
    only whether that URL is returned or raised. Either the call fails in
    the same way under all flags, with an exception that is no
    [RelativeRedirect]; or there is one target, an [http://] or [https://]
    URL other than the request URL, such that the call returns it under
    the default flags and under any flags either returns it or raises
    [RelativeRedirect] with it. With [allow_relative=False] and
    [require_relative=True] the call never returns. *)
Theorem flags_only_refuse (response : Response) :
  (exists e,
      (forall u, e <> RelativeRedirect u) /\
      forall allow_relative require_relative,
        get_redirect_url response allow_relative require_relative = Raise e)
  \/
  (exists target,
      target <> request_url response /\
      (Str.startswith target (U "http://") = true
       \/ Str.startswith target (U "https://") = true) /\
      get_redirect_url response true false = Ok target /\
      get_redirect_url response false true
      = Raise (RelativeRedirect target) /\
      forall allow_relative require_relative,
        get_redirect_url response allow_relative require_relative
        = Ok target
        \/ get_redirect_url response allow_relative require_relative
           = Raise (RelativeRedirect target)).
Proof.
  unfold get_redirect_url, request_url.
  destruct (headers_get (headers response) (U "location"))
    as [[[|c location]|e]|].
  2:{ destruct (split_url (c :: location)) as [[[has_ssl server] path]|e]
        eqn:E1; cbn [bind].
      2:{ left. exists e. split; [|reflexivity].
          rewrite (split_url_raises _ E1). discriminate. }
      set (request := match history response with
                      | h0 :: _ => h0
                      | [] => url response
                      end).
      destruct (split_url request) as [[[qssl qserver] qpath]|e] eqn:E2;
        cbn [bind].
      2:{ left. exists e. split; [|reflexivity].
          rewrite (split_url_raises _ E2). discriminate. }
      destruct (split_url (url response)) as [[[rssl rserver] rpath]|e]
        eqn:E3; cbn [bind].
      2:{ left. exists e. split; [|reflexivity].
          rewrite (split_url_raises _ E3). discriminate. }
      cbv zeta.
      set (pair := match server with
                   | [] => (rserver, rssl)
                   | _ :: _ => (server, has_ssl)
                   end).
      destruct pair as [server' ssl'].
      set (path' := if Str.startswith path (U "/") then path
                    else match rpath with
                         | [] => U "/"
                         | _ :: _ => rpath
                         end ++ path).
      set (target := (if ssl' then U "https" else U "http")
                       ++ U "://" ++ server' ++ path').
      assert (Hscheme : Str.startswith target (U "http://") = true
                        \/ Str.startswith target (U "https://") = true).
      { unfold target. destruct ssl'; [right | left]; reflexivity. }
      clearbody target.
      destruct (str_eqb target request) eqn:Esame.
      { left. exists (TransportError (SameLocation target)).
        split; [discriminate | reflexivity]. }
      right. exists target.
      split.
      { intros Heq. rewrite Heq, str_eqb_refl in Esame. discriminate. }
      split; [exact Hscheme|].
      destruct (Bool.eqb qssl rssl), (str_eqb qserver server');
        cbn [negb andb orb];
        (split; [reflexivity|]); (split; [reflexivity|]);
        intros [|] [|]; cbn [negb andb orb]; auto. }
  all: left.
  - exists (TransportError NoLocationHeader).
    split; [discriminate | reflexivity].
  - exists TypeError. split; [discriminate | reflexivity].
  - exists (TransportError NoLocationHeader).
    split; [discriminate | reflexivity].
Qed.

(** The executor follows no redirect that stays on the server of the
    response. For a response without redirect history (the request URL is
    then the URL of the response), a [Location] that names no server or
    the server of the response URL makes [_redirect_or_fail] raise,
    whatever [allow_redirects] and the count are: [RedirectError] with the
    resolved URL or, when that is the URL of the response,
    [TransportError]. The scheme of the [Location] plays no part in this:
    a redirect from [http] to [https] on the same server is refused as
    well. *)
Theorem same_server_redirect_refused (response : Response)
        (location : str) (has_ssl : bool) (server path : str)
        (response_has_ssl : bool) (response_server response_path : str)
        (redirects : Z) (allow_redirects : bool) :
  history response = [] ->
  headers_get (headers response) (U "location") = Some (HStr location) ->
  location <> [] ->
  split_url location = Ok (has_ssl, server, path) ->
  split_url (url response)
  = Ok (response_has_ssl, response_server, response_path) ->
  server = [] \/ server = response_server ->
  let target :=
    scheme_of (match server with [] => response_has_ssl | _ => has_ssl end)
      ++ U "://" ++ response_server
      ++ (if Str.startswith path (U "/") then path
          else match response_path with
               | [] => U "/"
               | _ => response_path
               end ++ path) in
  _redirect_or_fail response redirects allow_redirects
  = Raise (if str_eqb target (url response)
           then TransportError (SameLocation target)
           else RedirectError target).
Proof.
  intros Hh Hloc Hne Hl Hrs Hsrv target.
  assert (Hget : get_redirect_url response false false
                 = if str_eqb target (url response)
                   then Raise (TransportError (SameLocation target))
                   else Raise (RelativeRedirect target)).
  { unfold get_redirect_url. rewrite Hloc.
    destruct location as [|c location]; [contradiction|].
    rewrite Hl, Hh. cbn [bind]. rewrite Hrs. cbn [bind]. cbv zeta.
    assert (Hpair : match server with
                    | [] => (response_server, response_has_ssl)
                    | _ :: _ => (server, has_ssl)
                    end
                    = (response_server,
                       match server with
                       | [] => response_has_ssl
                       | _ => has_ssl
                       end)).
    { destruct Hsrv as [->| ->]; [reflexivity|].
      destruct response_server; reflexivity. }
    rewrite Hpair. cbv beta iota zeta.
    rewrite eqb_reflx, str_eqb_refl. reflexivity. }
  unfold _redirect_or_fail. rewrite Hget.
  destruct (str_eqb target (url response)); reflexivity.
Qed.

Lemma same_server_redirect_refused_witness :
  _redirect_or_fail (Examples.redirect_to "/ews/other.asmx") 0 true
  = Raise (RedirectError (U "https://host/ews/other.asmx")) /\
  _redirect_or_fail
    (mk_response 301 (U "http://host/a")
                 (mk_headers true [(U "Location", HStr (U "https://host/a"))])
                 [] [])
    0 true
  = Raise (RedirectError (U "https://host/a")).
Proof.
  split.
  - apply (@same_server_redirect_refused
             (Examples.redirect_to "/ews/other.asmx") (U "/ews/other.asmx")
             false [] (U "/ews/other.asmx")
             true (U "host") (U "/ews/exchange.asmx") 0 true);
      try reflexivity; try discriminate. left. reflexivity.
  - apply (@same_server_redirect_refused
             (mk_response 301 (U "http://host/a")
                (mk_headers true
                   [(U "Location", HStr (U "https://host/a"))]) [] [])
             (U "https://host/a") true (U "host") (U "/a")
             false (U "host") (U "/a") 0 true);
      try reflexivity; try discriminate. right. reflexivity.
Defined.

End RedirectInvariants.

(** ** Invariants of the retrying executor *)

Module ExecutorInvariants.
Import Executor ExecutorTrace ExecutorFacts.
Local Open Scope Z_scope.

Lemma count_app (kind : event -> bool) (evs1 evs2 : list event) :
  count kind (evs1 ++ evs2) = (count kind evs1 + count kind evs2)%nat.
Proof. unfold count. rewrite filter_app, length_app. reflexivity. Qed.

Lemma may_retry_fail_fast (retry_policy : RetryPolicy) (r : Response)
      (total_wait : Z) :
  fail_fast retry_policy = true ->
  _may_retry_on_error r retry_policy total_wait = Ok false.
Proof.
  intros Hff. unfold _may_retry_on_error. rewrite Hff.
  destruct (negb (retry_status (status_code r))); reflexivity.
Qed.

Lemma may_retry_in_time (retry_policy : RetryPolicy) (r : Response)
      (total_wait : Z) :
  _may_retry_on_error r retry_policy total_wait = Ok true ->
  fail_fast retry_policy = false /\ total_wait <= max_wait retry_policy.
Proof.
  unfold _may_retry_on_error.
  destruct (negb (retry_status (status_code r))); [discriminate|].
  destruct (fail_fast retry_policy); [discriminate|].
  destruct (Z.ltb_spec (max_wait retry_policy) total_wait);
    [discriminate|].
  intros _. split; [reflexivity | assumption].
Qed.

(** The events of the top of a turn. *)
Lemma arrive_events (l : locals) (w : world) (d : Z) :
  exists evs0,
    trace (snd (arrive l w d))
    = trace w ++ evs0
        ++ [Post (session (fst (arrive l w d))) (post_url l)] /\
    (evs0 = []
     \/ exists t, evs0 = [Sleep t;
                          RenewSession (session l)
                                       (session (fst (arrive l w d)))]).
Proof.
  unfold arrive, _back_off_if_needed.
  destruct (back_off_until w) as [t|].
  - destruct (0 <? t - now w).
    + exists [Sleep (t - now w); RenewSession (session l) (next_session w)].
      cbn. rewrite <- !app_assoc. split; [reflexivity|].
      right. exists (t - now w). reflexivity.
    + exists []. cbn. split; [reflexivity | left; reflexivity].
  - exists []. cbn. split; [reflexivity | left; reflexivity].
Qed.

Lemma url_changes_app (u : str) (evs1 evs2 : list event) :
  url_changes u (evs1 ++ evs2)
  = (url_changes u evs1 + url_changes (last_url u evs1) evs2)%nat.
Proof.
  revert u. induction evs1 as [|ev evs1 IH]; intros u; [reflexivity|].
  destruct ev; cbn [app url_changes last_url]; rewrite ?IH; auto.
  lia.
Qed.

(** The URL before the first post counts for one change at most. *)
Lemma url_changes_shift (u u' : str) (evs : list event) :
  (url_changes u evs <= url_changes u' evs + 1)%nat.
Proof.
  revert u u'. induction evs as [|ev evs IH]; intros u u'; [cbn; lia|].
  destruct ev as [?|? ?|? ?|s v|?|?|?]; cbn [url_changes]; auto.
  specialize (IH v v).
  destruct (str_eqb v u), (str_eqb v u'); lia.
Qed.

Section Loop.

Variable retry_policy : RetryPolicy.
Variable allow_redirects : bool.
Variable t_start : Z.

Local Abbreviation retry_loop :=
  (retry_loop retry_policy allow_redirects t_start).

(** The waits passed to [back_off] in the loop, from any point on. *)
Lemma retry_loop_back_offs :
  forall (script : list (post_outcome * Z)) (l : locals) (w : world)
         ex l' w',
    retry_loop script l w = (ex, l', w') ->
    exists evs k,
      trace w' = trace w ++ evs /\
      back_offs evs = doubling (wait l) k /\
      wait l' = wait l * 2 ^ Z.of_nat k /\
      count is_back_off evs = k /\
      (fail_fast retry_policy = true -> k = 0%nat).
Proof.
  induction script as [|[o d] script IH]; intros l w ex l' w' H.
  - cbn in H. inversion H; subst. exists [], 0%nat.
    rewrite app_nil_r. cbn. repeat split; auto; lia.
  - rewrite retry_loop_turn in H.
    destruct (arrive_spec l w d)
      as [evs1 [Ht [_ [Hb [Hp [_ [_ [_ [_ [Hwt _]]]]]]]]]].
    assert (Hc1 : count is_back_off evs1 = 0%nat).
    { clear - Hb. unfold count. induction evs1 as [|ev evs1 IH1];
        [reflexivity|].
      destruct ev; cbn in *; try discriminate; auto. }
    destruct (arrive l w d) as [l1 w1]. cbn [fst snd] in *.
    assert (Hstop : forall ex0 l0 w0 evs2,
               (ex0, l0, w0) = (ex, l', w') ->
               l0 = l1 -> trace w0 = trace w1 ++ evs2 ->
               back_offs evs2 = [] -> count is_back_off evs2 = 0%nat ->
               exists evs k,
                 trace w' = trace w ++ evs /\
                 back_offs evs = doubling (wait l) k /\
                 wait l' = wait l * 2 ^ Z.of_nat k /\
                 count is_back_off evs = k /\
                 (fail_fast retry_policy = true -> k = 0%nat)).
    { intros ex0 l0 w0 evs2 E El Et Hb2 Hc2. inversion E; subst.
      exists (evs1 ++ evs2), 0%nat.
      rewrite Et, Ht, <- app_assoc, back_offs_app, count_app, Hb, Hb2,
        Hc1, Hc2, Hwt.
      cbn. repeat split; auto; lia. }
    assert (Hgo : forall evs2 l2 w2,
               trace w2 = trace w1 ++ evs2 ->
               back_offs evs2 = [] -> count is_back_off evs2 = 0%nat ->
               wait l2 = wait l1 ->
               retry_loop script l2 w2 = (ex, l', w') ->
               exists evs k,
                 trace w' = trace w ++ evs /\
                 back_offs evs = doubling (wait l) k /\
                 wait l' = wait l * 2 ^ Z.of_nat k /\
                 count is_back_off evs = k /\
                 (fail_fast retry_policy = true -> k = 0%nat)).
    { intros evs2 l2 w2 Ht2 Hb2 Hc2 Hw2 E.
      destruct (IH _ _ _ _ _ E) as [evs3 [k [Ht3 [Hb3 [Hw3 [Hc3 Hf3]]]]]].
      exists (evs1 ++ evs2 ++ evs3), k.
      rewrite Ht3, Ht2, Ht, <- !app_assoc, !back_offs_app, !count_app,
        Hb, Hb2, Hc1, Hc2, Hb3, Hw3, Hw2, Hwt.
      cbn. repeat split; auto. }
    destruct (received l1 o) as [r|e].
    2:{ eapply (Hstop _ _ _ []); eauto. rewrite app_nil_r. reflexivity. }
    destruct (_need_new_credentials r).
    { eapply (Hgo [Close (status_code r);
                   RefreshCredentials (session l1) (next_session w1)]);
        [| | | |exact H]; side_condition. }
    destruct (_may_retry_on_error r retry_policy (now w1 - t_start))
      as [[|]|e] eqn:Em.
    + destruct (IH _ _ _ _ _ H) as [evs3 [k [Ht3 [Hb3 [Hw3 [Hc3 _]]]]]].
      exists (evs1 ++ [Close (status_code r); BackOff (wait l1)] ++ evs3),
             (S k).
      cbn [wait] in *.
      split.
      { rewrite Ht3. cbn [back_off log trace].
        rewrite Ht, <- !app_assoc. reflexivity. }
      split.
      { rewrite !back_offs_app, Hb, Hb3, doubling_succ, Hwt. reflexivity. }
      split.
      { rewrite Hw3, Hwt, Nat2Z.inj_succ, Z.pow_succ_r by lia. ring. }
      split.
      { rewrite !count_app, Hc1, Hc3. reflexivity. }
      intros Hff. destruct (may_retry_in_time _ _ _ Em) as [Hno _].
      congruence.
    + destruct ((status_code r =? 301) || (status_code r =? 302)).
      * destruct (_redirect_or_fail r (redirects l1) allow_redirects)
          as [[url' redirects']|e].
        -- eapply (Hgo [Close (status_code r)]); [| | | |exact H];
             side_condition.
        -- eapply (Hstop _ _ _ [Close (status_code r)]); eauto.
      * eapply (Hstop _ _ _ []); eauto. rewrite app_nil_r. reflexivity.
    + eapply (Hstop _ _ _ []); eauto. rewrite app_nil_r. reflexivity.
Qed.

(** The clock runs ahead of the back-offs: when a back-off is recorded,
    the waits recorded before it have passed and are within [max_wait]. *)
Lemma retry_loop_patience :
  forall (script : list (post_outcome * Z)) (l : locals) (w : world)
         ex l' w',
    Forall (fun od => 0 <= snd od) script ->
    0 <= wait l ->
    retry_loop script l w = (ex, l', w') ->
    exists evs,
      trace w' = trace w ++ evs /\
      forall earlier x,
        back_offs evs = earlier ++ [x] ->
        wake w - t_start + total earlier <= max_wait retry_policy.
Proof.
  induction script as [|[o d] script IH]; intros l w ex l' w' Hds Hwait H.
  - cbn in H. inversion H; subst. exists []. rewrite app_nil_r.
    split; [reflexivity|]. intros [|? ?] x E; discriminate.
  - inversion Hds as [|? ? Hd Hds']; subst. cbn [snd] in Hd.
    rewrite retry_loop_turn in H.
    pose proof (fun c => @wake_back_off l w d c Hd Hwait) as Hwake.
    destruct (arrive_spec l w d)
      as [evs1 [Ht [_ [Hb [_ [_ [Hn [Hbo [_ [Hwt _]]]]]]]]]].
    destruct (arrive l w d) as [l1 w1]. cbn [fst snd] in *.
    assert (Hw1 : wake w <= wake w1).
    { unfold wake in *. rewrite Hbo. destruct (back_off_until w); lia. }
    assert (Hstop : forall ex0 l0 w0 evs2,
               (ex0, l0, w0) = (ex, l', w') ->
               trace w0 = trace w1 ++ evs2 ->
               back_offs evs2 = [] ->
               exists evs,
                 trace w' = trace w ++ evs /\
                 forall earlier x,
                   back_offs evs = earlier ++ [x] ->
                   wake w - t_start + total earlier
                   <= max_wait retry_policy).
    { intros ex0 l0 w0 evs2 E Et Hb2. inversion E; subst.
      exists (evs1 ++ evs2). rewrite Et, Ht, <- app_assoc.
      split; [reflexivity|]. rewrite back_offs_app, Hb, Hb2.
      intros [|? ?] x E'; discriminate. }
    assert (Hgo : forall evs2 l2 w2,
               trace w2 = trace w1 ++ evs2 ->
               back_offs evs2 = [] ->
               wake w1 <= wake w2 ->
               wait l2 = wait l1 ->
               retry_loop script l2 w2 = (ex, l', w') ->
               exists evs,
                 trace w' = trace w ++ evs /\
                 forall earlier x,
                   back_offs evs = earlier ++ [x] ->
                   wake w - t_start + total earlier
                   <= max_wait retry_policy).
    { intros evs2 l2 w2 Ht2 Hb2 Hw2 Hwt2 E.
      assert (Hpos : 0 <= wait l2) by lia.
      destruct (IH _ _ _ _ _ Hds' Hpos E) as [evs3 [Ht3 Hp3]].
      exists (evs1 ++ evs2 ++ evs3).
      rewrite Ht3, Ht2, Ht, <- !app_assoc. split; [reflexivity|].
      rewrite !back_offs_app, Hb, Hb2. cbn [app].
      intros earlier x E'. specialize (Hp3 _ _ E'). lia. }
    destruct (received l1 o) as [r|e].
    2:{ eapply (Hstop _ _ _ []); eauto. rewrite app_nil_r. reflexivity. }
    destruct (_need_new_credentials r).
    { eapply (Hgo [Close (status_code r);
                   RefreshCredentials (session l1) (next_session w1)]);
        [| | | |exact H]; side_condition; try (unfold wake; cbn; lia). }
    destruct (_may_retry_on_error r retry_policy (now w1 - t_start))
      as [[|]|e] eqn:Em.
    + destruct (may_retry_in_time _ _ _ Em) as [_ Hin].
      assert (Hpos : 0 <= wait l1 * 2) by lia.
      destruct (IH (mk_locals (session l1) (post_url l1) (wait l1 * 2)
                              (retry l1 + 1) (redirects l1))
                   _ _ _ _ Hds' Hpos H) as [evs3 [Ht3 Hp3]].
      exists (evs1 ++ [Close (status_code r); BackOff (wait l1)] ++ evs3).
      split.
      { rewrite Ht3. cbn [back_off log trace].
        rewrite Ht, <- !app_assoc. reflexivity. }
      rewrite !back_offs_app, Hb. cbn [app back_offs flat_map].
      fold (back_offs evs3). rewrite Hwt in *.
      specialize (Hwake (status_code r)).
      intros [|b earlier] x E'.
      * cbn [total fold_right]. lia.
      * cbn [app] in E'. inversion E' as [[Eb Ee]]. subst b.
        specialize (Hp3 _ _ Ee). cbn [total fold_right].
        fold (total earlier). lia.
    + destruct ((status_code r =? 301) || (status_code r =? 302)).
      * destruct (_redirect_or_fail r (redirects l1) allow_redirects)
          as [[url' redirects']|e].
        -- eapply (Hgo [Close (status_code r)]); [| | | |exact H];
             side_condition; try (unfold wake; cbn; lia).
        -- eapply (Hstop _ _ _ [Close (status_code r)]); eauto.
      * eapply (Hstop _ _ _ []); eauto. rewrite app_nil_r. reflexivity.
    + eapply (Hstop _ _ _ []); eauto. rewrite app_nil_r. reflexivity.
Qed.

(** How the loop ends: with the script used up, every post made and every
    response closed; or by breaking with the response to the last post,
    left open, every response before it closed. *)
Lemma retry_loop_exit :
  forall (script : list (post_outcome * Z)) (l : locals) (w : world)
         ex l' w',
    retry_loop script l w = (ex, l', w') ->
    exists evs,
      trace w' = trace w ++ evs /\
      match ex with
      | Break r =>
          exists evs0 used o d unused,
            evs = evs0 ++ [Post (session l') (post_url l')] /\
            script = used ++ (o, d) :: unused /\
            (o = Responds r \/ status_code r = 503) /\
            count is_post evs0 = length used /\
            count is_close evs0 = length used
      | Raised _ => True
      | Starved =>
          count is_post evs = length script /\
          count is_close evs = length script
      end.
Proof.
  induction script as [|[o d] script IH]; intros l w ex l' w' H.
  - cbn in H. inversion H; subst. exists []. rewrite app_nil_r.
    repeat split; reflexivity.
  - rewrite retry_loop_turn in H.
    destruct (arrive_spec l w d)
      as [evs1 [Ht [_ [_ [Hp _]]]]].
    assert (Hshape : exists evs0,
               evs1 = evs0 ++ [Post (session (fst (arrive l w d)))
                                    (post_url (fst (arrive l w d)))] /\
               count is_post evs0 = 0%nat /\
               count is_close evs0 = 0%nat /\
               trace (snd (arrive l w d)) = trace w ++ evs1).
    { clear H IH. revert Ht. unfold arrive, _back_off_if_needed.
      destruct (back_off_until w) as [t|].
      - destruct (0 <? t - now w).
        + intros Ht. cbn in Ht. rewrite <- !app_assoc in Ht.
          apply app_inv_head in Ht. subst evs1.
          exists [Sleep (t - now w);
                  RenewSession (session l) (next_session w)].
          cbn. rewrite <- !app_assoc. repeat split; reflexivity.
        + intros Ht. cbn in Ht. apply app_inv_head in Ht. subst evs1.
          exists []. repeat split; reflexivity.
      - intros Ht. cbn in Ht. apply app_inv_head in Ht. subst evs1.
        exists []. repeat split; reflexivity. }
    clear Ht Hp.
    destruct (arrive l w d) as [l1 w1]. cbn [fst snd] in *.
    destruct Hshape as [evs0 [-> [Hp0 [Hc0 Ht]]]].
    assert (Hp1 : count is_post (evs0 ++ [Post (session l1) (post_url l1)])
                  = 1%nat)
      by (rewrite count_app, Hp0; reflexivity).
    assert (Hc1 : count is_close (evs0 ++ [Post (session l1) (post_url l1)])
                  = 0%nat)
      by (rewrite count_app, Hc0; reflexivity).
    assert (Hgo : forall c evs2 l2 w2,
               trace w2 = trace w1 ++ Close c :: evs2 ->
               count is_post evs2 = 0%nat ->
               count is_close evs2 = 0%nat ->
               retry_loop script l2 w2 = (ex, l', w') ->
               exists evs,
                 trace w' = trace w ++ evs /\
                 match ex with
                 | Break r =>
                     exists evs0 used o0 d0 unused,
                       evs = evs0 ++ [Post (session l') (post_url l')] /\
                       (o, d) :: script = used ++ (o0, d0) :: unused /\
                       (o0 = Responds r \/ status_code r = 503) /\
                       count is_post evs0 = length used /\
                       count is_close evs0 = length used
                 | Raised _ => True
                 | Starved =>
                     count is_post evs = length ((o, d) :: script) /\
                     count is_close evs = length ((o, d) :: script)
                 end).
    { intros c evs2 l2 w2 Ht2 Hp2 Hc2 E.
      destruct (IH _ _ _ _ _ E) as [evs3 [Ht3 Hex]].
      set (turn := (evs0 ++ [Post (session l1) (post_url l1)])
                     ++ Close c :: evs2) in *.
      assert (Hpt : count is_post turn = 1%nat).
      { unfold turn. rewrite count_app, Hp1.
        change (Close c :: evs2) with ([Close c] ++ evs2).
        rewrite count_app, Hp2. reflexivity. }
      assert (Hct : count is_close turn = 1%nat).
      { unfold turn. rewrite count_app, Hc1.
        change (Close c :: evs2) with ([Close c] ++ evs2).
        rewrite count_app, Hc2. reflexivity. }
      exists (turn ++ evs3). split.
      { rewrite Ht3, Ht2, Ht. unfold turn. rewrite <- !app_assoc.
        reflexivity. }
      destruct ex as [r|e|].
      - destruct Hex
          as [evs4 [used [o0 [d0 [unused [-> [-> [Ho [Hp4 Hc4]]]]]]]]].
        exists (turn ++ evs4), ((o, d) :: used), o0, d0, unused.
        rewrite app_assoc, !count_app, Hpt, Hct, Hp4, Hc4.
        repeat split; auto.
      - exact I.
      - destruct Hex as [Hp4 Hc4].
        rewrite !count_app, Hpt, Hct, Hp4, Hc4. split; reflexivity. }
    destruct (received l1 o) as [r|e] eqn:Er.
    2:{ inversion H; subst. eexists. split; [exact Ht | exact I]. }
    destruct (_need_new_credentials r) eqn:En.
    { eapply (Hgo (status_code r)
                  [RefreshCredentials (session l1) (next_session w1)]);
        [| | |exact H]; side_condition. }
    destruct (_may_retry_on_error r retry_policy (now w1 - t_start))
      as [[|]|e] eqn:Em.
    + eapply (Hgo (status_code r) [BackOff (wait l1)]); [| | |exact H];
        side_condition.
    + destruct ((status_code r =? 301) || (status_code r =? 302)).
      * destruct (_redirect_or_fail r (redirects l1) allow_redirects)
          as [[url' redirects']|e].
        -- eapply (Hgo (status_code r) []); [| | |exact H]; side_condition.
        -- inversion H; subst. eexists. split; [|exact I].
           cbn. rewrite Ht, <- app_assoc. reflexivity.
      * inversion H; subst. eexists. split; [exact Ht|].
        exists evs0, [], o, d, script.
        split; [reflexivity|]. split; [reflexivity|].
        split; [|split; assumption].
        destruct o; cbn [received] in Er; try discriminate.
        -- inversion Er. left. reflexivity.
        -- inversion Er. right. reflexivity.
        -- inversion Er; subst r. vm_compute in En. discriminate.
        -- destruct (negb (str_eqb key (U "www-authenticate")));
             [discriminate|]. inversion Er. right. reflexivity.
    + inversion H; subst. eexists. split; [exact Ht | exact I].
Qed.

(** While every post reports the token expired the loop goes on. *)
Lemma retry_loop_token_expired :
  forall (script : list (post_outcome * Z)) (l : locals) (w : world),
    Forall (fun od => token_expired (fst od) = true) script ->
    exists l' w' evs,
      retry_loop script l w = (Starved, l', w') /\
      trace w' = trace w ++ evs /\
      count is_post evs = length script /\
      count is_refresh evs = length script /\
      back_offs evs = [] /\
      keeps_session evs.
Proof.
  induction script as [|[o d] script IH]; intros l w Hall.
  - exists l, w, []. rewrite app_nil_r. repeat split; reflexivity.
  - inversion Hall as [|? ? Ho Hall']; subst. cbn [fst] in Ho.
    rewrite retry_loop_turn.
    destruct (arrive_events l w d) as [evs0 [Ht Hshape]].
    destruct (arrive l w d) as [l1 w1]. cbn [fst snd] in *.
    assert (Hr : exists r, received l1 o = Ok r
                           /\ _need_new_credentials r = true).
    { destruct o; try discriminate.
      - exists r. split; [reflexivity | exact Ho].
      - eexists. split; reflexivity. }
    destruct Hr as [r [-> ->]]. cbn [refresh_credentials].
    match goal with
    | |- context [retry_loop script ?l2 ?w2] =>
        destruct (IH l2 w2 Hall')
          as [l' [w' [evs3 [Hloop [Ht3 [Hp3 [Hr3 [Hb3 Hk3]]]]]]]]
    end.
    exists l', w',
      ((evs0 ++ [Post (session l1) (post_url l)])
         ++ [Close (status_code r);
             RefreshCredentials (session l1) (next_session w1)] ++ evs3).
    split; [exact Hloop|].
    split.
    { rewrite Ht3. cbn. rewrite Ht, <- !app_assoc. reflexivity. }
    rewrite !count_app, !back_offs_app, Hp3, Hr3, Hb3.
    destruct Hshape as [->|[t ->]]; cbn;
      (repeat split; try reflexivity;
       repeat apply keeps_session_app; auto; reflexivity).
Qed.

(** Every change of the URL is a redirect followed, and these are
    counted. *)
Lemma retry_loop_redirects :
  forall (script : list (post_outcome * Z)) (l : locals) (w : world)
         ex l' w',
    redirects l <= MAX_REDIRECTS ->
    retry_loop script l w = (ex, l', w') ->
    exists evs,
      trace w' = trace w ++ evs /\
      Z.of_nat (url_changes (post_url l) evs) + redirects l
      <= MAX_REDIRECTS /\
      (allow_redirects = false -> url_changes (post_url l) evs = 0%nat).
Proof.
  induction script as [|[o d] script IH]; intros l w ex l' w' Hmax H.
  - cbn in H. inversion H; subst. exists []. rewrite app_nil_r.
    cbn. repeat split; auto.
  - rewrite retry_loop_turn in H.
    destruct (arrive_events l w d) as [evs0 [Ht Hshape]].
    destruct (arrive_spec l w d)
      as [_ [_ [_ [_ [_ [_ [_ [_ [Hu [_ [_ Hrd]]]]]]]]]]].
    destruct (arrive l w d) as [l1 w1]. cbn [fst snd] in *.
    set (evs1 := evs0 ++ [Post (session l1) (post_url l)]) in *.
    assert (Hc1 : url_changes (post_url l) evs1 = 0%nat
                  /\ last_url (post_url l) evs1 = post_url l).
    { unfold evs1. destruct Hshape as [->|[t ->]];
        cbn; rewrite Basics.str_eqb_refl; auto. }
    destruct Hc1 as [Hc1 Hl1].
    assert (Hstop : forall ex0 l0 w0 evs2,
               (ex0, l0, w0) = (ex, l', w') ->
               trace w0 = trace w1 ++ evs2 ->
               filter is_post evs2 = [] ->
               exists evs,
                 trace w' = trace w ++ evs /\
                 Z.of_nat (url_changes (post_url l) evs) + redirects l
                 <= MAX_REDIRECTS /\
                 (allow_redirects = false ->
                  url_changes (post_url l) evs = 0%nat)).
    { intros ex0 l0 w0 evs2 E Et Hp2. inversion E; subst.
      exists (evs1 ++ evs2). rewrite Et, Ht, <- app_assoc.
      split; [reflexivity|].
      assert (Hz : forall u, url_changes u evs2 = 0%nat).
      { clear - Hp2. induction evs2 as [|ev evs2 IH2]; intros u;
          [reflexivity|].
        destruct ev; cbn in *; try discriminate; auto. }
      rewrite url_changes_app, Hc1, Hz. cbn. split; [lia | auto]. }
    assert (Hgo : forall evs2 l2 w2,
               trace w2 = trace w1 ++ evs2 ->
               filter is_post evs2 = [] ->
               (post_url l2 = post_url l /\ redirects l2 = redirects l)
               \/ (allow_redirects = true
                   /\ redirects l2 = redirects l + 1
                   /\ redirects l2 <= MAX_REDIRECTS) ->
               retry_loop script l2 w2 = (ex, l', w') ->
               exists evs,
                 trace w' = trace w ++ evs /\
                 Z.of_nat (url_changes (post_url l) evs) + redirects l
                 <= MAX_REDIRECTS /\
                 (allow_redirects = false ->
                  url_changes (post_url l) evs = 0%nat)).
    { intros evs2 l2 w2 Ht2 Hp2 Hcase E.
      assert (Hmax2 : redirects l2 <= MAX_REDIRECTS)
        by (destruct Hcase as [[_ Hr]|[_ [_ Hr]]]; lia).
      destruct (IH _ _ _ _ _ Hmax2 E) as [evs3 [Ht3 [Hb3 Hn3]]].
      exists (evs1 ++ evs2 ++ evs3). rewrite Ht3, Ht2, Ht, <- !app_assoc.
      split; [reflexivity|].
      assert (Hz : forall u, url_changes u evs2 = 0%nat
                             /\ last_url u evs2 = u).
      { clear - Hp2. induction evs2 as [|ev evs2 IH2]; intros u;
          [split; reflexivity|].
        destruct ev; cbn in *; try discriminate; auto. }
      rewrite !url_changes_app, Hc1, Hl1.
      destruct (Hz (post_url l)) as [-> ->]. cbn [Nat.add].
      destruct Hcase as [[Hu2 Hr2]|[Ha [Hr2 _]]].
      - rewrite <- Hu2, <- Hr2. split; assumption.
      - pose proof (url_changes_shift (post_url l) (post_url l2) evs3).
        split; [lia|]. congruence. }
    destruct (received l1 o) as [r|e].
    2:{ eapply (Hstop _ _ _ []); eauto. rewrite app_nil_r. reflexivity. }
    destruct (_need_new_credentials r).
    { eapply (Hgo [Close (status_code r);
                   RefreshCredentials (session l1) (next_session w1)]);
        [| | |exact H]; side_condition. }
    destruct (_may_retry_on_error r retry_policy (now w1 - t_start))
      as [[|]|e].
    + eapply (Hgo [Close (status_code r); BackOff (wait l1)]);
        [| | |exact H]; side_condition.
    + destruct ((status_code r =? 301) || (status_code r =? 302)).
      * destruct (_redirect_or_fail r (redirects l1) allow_redirects)
          as [[url' redirects']|e] eqn:Er.
        -- eapply (Hgo [Close (status_code r)]); [| | |exact H];
             side_condition.
           right. cbn [redirects]. rewrite <- Hrd.
           destruct (redirects_capped _ _ _ Er) as [Hr1 Hr2].
           repeat split; auto.
           unfold _redirect_or_fail in Er.
           destruct (get_redirect_url r false false) as [target|e];
             [|destruct e; discriminate].
           destruct allow_redirects; [reflexivity | discriminate].
        -- eapply (Hstop _ _ _ [Close (status_code r)]); eauto.
      * eapply (Hstop _ _ _ []); eauto. rewrite app_nil_r. reflexivity.
    + eapply (Hstop _ _ _ []); eauto. rewrite app_nil_r. reflexivity.
Qed.

End Loop.

(** In any call of [post_ratelimited], whatever the transport does, the
    waits passed to [back_off] are 10, 20, 40, ... in this order: the
    [i]-th is [RETRY_WAIT * 2 ^ i]. Under a fail-fast policy there is no
    back-off at all. *)
Theorem back_offs_double (retry_policy : RetryPolicy)
        (script : list (post_outcome * Z)) (session0 : session_t)
        (url0 : str) (allow_redirects : bool) (w : world) :
  exists evs,
    trace (snd (post_ratelimited retry_policy script session0 url0
                                 allow_redirects w))
    = trace w ++ evs /\
    back_offs evs = doubling RETRY_WAIT (count is_back_off evs) /\
    (fail_fast retry_policy = true -> back_offs evs = []).
Proof.
  unfold post_ratelimited.
  destruct (Executor.retry_loop retry_policy allow_redirects (now w) script
                       (initial_locals session0 url0) w)
    as [[ex l1] w1] eqn:E.
  destruct (retry_loop_back_offs _ _ _ _ _ _ E)
    as [evs [k [Ht [Hb [_ [Hc Hf]]]]]].
  cbn [initial_locals wait] in Hb.
  assert (Hdone : forall evs2,
             back_offs evs2 = [] -> count is_back_off evs2 = 0%nat ->
             back_offs (evs ++ evs2)
             = doubling RETRY_WAIT (count is_back_off (evs ++ evs2)) /\
             (fail_fast retry_policy = true -> back_offs (evs ++ evs2) = [])).
  { intros evs2 Hb2 Hc2.
    rewrite back_offs_app, count_app, Hb2, Hc2, Hc, Hb, app_nil_r,
      Nat.add_0_r.
    split; [reflexivity|]. intros Hff. rewrite (Hf Hff). reflexivity. }
  unfold after_loop. destruct ex as [r|e|].
  - destruct ((status_code r =? 500)
              && match content r with [] => false | _ => true end
              && is_xml (content r)).
    + exists evs. rewrite <- (app_nil_r evs) at 2 3 4.
      split; [exact Ht|]. apply Hdone; reflexivity.
    + destruct (negb (status_code r =? 200)).
      * exists (evs ++ [RetireSession (session l1)]). cbn.
        rewrite Ht, <- app_assoc. split; [reflexivity|].
        apply Hdone; reflexivity.
      * exists evs. rewrite <- (app_nil_r evs) at 2 3 4.
        split; [exact Ht|]. apply Hdone; reflexivity.
  - exists (evs ++ [RetireSession (session l1)]). cbn.
    rewrite Ht, <- app_assoc. split; [reflexivity|].
    apply Hdone; reflexivity.
  - exists evs. rewrite <- (app_nil_r evs) at 2 3 4.
    split; [exact Ht|]. apply Hdone; reflexivity.
Qed.

Lemma doubling_last (wait : Z) (k : nat) :
  doubling wait (S k) = doubling wait k ++ [wait * 2 ^ Z.of_nat k].
Proof. unfold doubling. rewrite seq_S, map_app. reflexivity. Qed.

Lemma total_doubling (wait : Z) (k : nat) :
  total (doubling wait k) = wait * (2 ^ Z.of_nat k - 1).
Proof.
  revert wait. induction k as [|k IH]; intros wait.
  - cbn. ring.
  - rewrite doubling_succ. cbn [total fold_right].
    fold (total (doubling (wait * 2) k)).
    rewrite IH, Nat2Z.inj_succ, Z.pow_succ_r by lia. ring.
Qed.

(** The call gives up on the time waited, and this bounds the number of
    retries: when no post takes negative time and the call has backed off
    [k + 1] times, the first [k] waits, [RETRY_WAIT * (2 ^ k - 1)] seconds
    together, are within [max_wait]. Whatever the transport does, a call
    under a policy with [max_wait] 3600 backs off at most 9 times. *)
Theorem retries_bounded (retry_policy : RetryPolicy)
        (script : list (post_outcome * Z)) (session0 : session_t)
        (url0 : str) (allow_redirects : bool) (w : world) :
  Forall (fun od => 0 <= snd od) script ->
  exists evs,
    trace (snd (post_ratelimited retry_policy script session0 url0
                                 allow_redirects w))
    = trace w ++ evs /\
    (forall k, count is_back_off evs = S k ->
               RETRY_WAIT * (2 ^ Z.of_nat k - 1) <= max_wait retry_policy) /\
    (max_wait retry_policy = 3600 -> (count is_back_off evs <= 9)%nat).
Proof.
  intros Hds. unfold post_ratelimited.
  destruct (Executor.retry_loop retry_policy allow_redirects (now w) script
                       (initial_locals session0 url0) w)
    as [[ex l1] w1] eqn:E.
  destruct (retry_loop_back_offs _ _ _ _ _ _ E)
    as [evs [k [Ht [Hb [_ [Hc _]]]]]].
  assert (Hpos : 0 <= wait (initial_locals session0 url0))
    by (cbn; unfold RETRY_WAIT; lia).
  destruct (@retry_loop_patience _ _ _ _ _ _ _ _ _ Hds Hpos E)
    as [evs' [Ht' Hp]].
  rewrite Ht in Ht'. apply app_inv_head in Ht'. subst evs'.
  cbn [initial_locals wait] in Hb.
  assert (Hbound : forall j, k = S j ->
                     RETRY_WAIT * (2 ^ Z.of_nat j - 1)
                     <= max_wait retry_policy).
  { intros j ->. rewrite doubling_last in Hb. specialize (Hp _ _ Hb).
    rewrite total_doubling in Hp.
    assert (now w <= wake w)
      by (unfold wake; destruct (back_off_until w); lia).
    lia. }
  assert (Hnine : max_wait retry_policy = 3600 -> (k <= 9)%nat).
  { intros Hmax. destruct (Nat.le_gt_cases k 9) as [Hle|Hgt]; [exact Hle|].
    destruct k as [|j]; [lia|]. specialize (Hbound j eq_refl).
    assert (2 ^ 9 <= 2 ^ Z.of_nat j)
      by (apply Z.pow_le_mono_r; lia).
    unfold RETRY_WAIT in Hbound. lia. }
  assert (Hdone : forall evs2 tr,
             count is_back_off evs2 = 0%nat ->
             tr = trace w1 ++ evs2 ->
             exists evs0,
               tr = trace w ++ evs0 /\
               (forall j, count is_back_off evs0 = S j ->
                          RETRY_WAIT * (2 ^ Z.of_nat j - 1)
                          <= max_wait retry_policy) /\
               (max_wait retry_policy = 3600 ->
                (count is_back_off evs0 <= 9)%nat)).
  { intros evs2 tr Hc2 ->. exists (evs ++ evs2).
    rewrite Ht, <- app_assoc, count_app, Hc2, Hc, Nat.add_0_r.
    split; [reflexivity|]. split; assumption. }
  unfold after_loop. destruct ex as [r|e|].
  - destruct ((status_code r =? 500)
              && match content r with [] => false | _ => true end
              && is_xml (content r)).
    + apply (Hdone []); [reflexivity | cbn; rewrite app_nil_r; reflexivity].
    + destruct (negb (status_code r =? 200)).
      * apply (Hdone [RetireSession (session l1)]); reflexivity.
      * apply (Hdone []);
          [reflexivity | cbn; rewrite app_nil_r; reflexivity].
  - apply (Hdone [RetireSession (session l1)]); reflexivity.
  - apply (Hdone []); [reflexivity | cbn; rewrite app_nil_r; reflexivity].
Qed.

Lemma retries_bounded_witness :
  exists evs,
    trace (snd (post_ratelimited Examples.impatient
                  [(Responds (Examples.response_of 503 [] []), 1);
                   (Responds (Examples.response_of 503 [] []), 1);
                   (Responds (Examples.response_of 200 [] []), 1)]
                  0%nat Examples.ews_url false Examples.calm))
    = trace Examples.calm ++ evs /\
    (forall k, count is_back_off evs = S k ->
               RETRY_WAIT * (2 ^ Z.of_nat k - 1)
               <= max_wait Examples.impatient) /\
    (max_wait Examples.impatient = 3600 ->
     (count is_back_off evs <= 9)%nat).
Proof.
  apply (@retries_bounded Examples.impatient
           [(Responds (Examples.response_of 503 [] []), 1);
            (Responds (Examples.response_of 503 [] []), 1);
            (Responds (Examples.response_of 200 [] []), 1)]
           0%nat Examples.ews_url false Examples.calm).
  repeat (constructor; [cbn; lia|]). constructor.
Defined.

(** The response [post_ratelimited] returns is the transport's answer to
    the last post the call made, and the only one it left open: every
    response before it was closed, one for each earlier post. It has status
    200, or status 500 and a body that passes [is_xml]; it is never one of
    the dummy responses the call makes up for an exception. The session
    returned is the one of that last post, and no session was retired. *)
Theorem returned_response_is_last (retry_policy : RetryPolicy)
        (script : list (post_outcome * Z)) (session0 : session_t)
        (url0 : str) (allow_redirects : bool) (w : world)
        (r : Response) (s : session_t) (w' : world) :
  post_ratelimited retry_policy script session0 url0 allow_redirects w
  = (Returns r s, w') ->
  exists evs used d unused u,
    trace w' = trace w ++ evs ++ [Post s u] /\
    script = used ++ (Responds r, d) :: unused /\
    count is_post evs = length used /\
    count is_close evs = length used /\
    s = current_session session0 evs /\
    keeps_session evs /\
    (status_code r = 200
     \/ (status_code r = 500 /\ is_xml (content r) = true)).
Proof.
  unfold post_ratelimited. intros H.
  destruct (Executor.retry_loop retry_policy allow_redirects (now w) script
                       (initial_locals session0 url0) w)
    as [[ex l1] w1] eqn:E.
  destruct (retry_loop_exit _ _ _ _ _ _ E) as [evs [Ht Hex]].
  destruct (retry_loop_trace _ _ _ _ _ _ E) as [evs' [Ht' [Hs Hk]]].
  rewrite Ht in Ht'. apply app_inv_head in Ht'. subst evs'.
  cbn [initial_locals session] in Hs.
  unfold after_loop in H. destruct ex as [r0|e|]; [|discriminate..].
  destruct Hex as [evs0 [used [o [d [unused [-> [-> [Ho [Hp Hc]]]]]]]]].
  assert (Hst : r0 = r /\ session l1 = s /\ w1 = w'
                /\ (status_code r = 200
                    \/ (status_code r = 500 /\ is_xml (content r) = true))).
  { destruct (Z.eqb_spec (status_code r0) 500) as [E5|E5];
      cbn [andb] in H.
    - destruct (match content r0 with [] => false | _ => true end);
        cbn [andb] in H.
      + destruct (is_xml (content r0)) eqn:Ex.
        * inversion H; subst. repeat split; auto.
        * rewrite E5 in H. cbn in H. discriminate.
      + rewrite E5 in H. cbn in H. discriminate.
    - destruct (Z.eqb_spec (status_code r0) 200) as [E2|E2];
        cbn [negb] in H; [|discriminate].
      inversion H; subst. repeat split; auto. }
  destruct Hst as [-> [Hs' [-> Hstatus]]].
  exists evs0, used, d, unused, (post_url l1). rewrite <- Hs'.
  split; [rewrite Ht; reflexivity|].
  split.
  { destruct Ho as [->|H503]; [reflexivity|].
    destruct Hstatus as [H200|[H500 _]]; lia. }
  split; [exact Hp|]. split; [exact Hc|].
  split.
  { rewrite Hs, current_session_app. reflexivity. }
  split; [|exact Hstatus].
  unfold keeps_session in *. rewrite forallb_app in Hk.
  apply andb_true_iff in Hk. apply Hk.
Qed.

Lemma returned_response_is_last_witness :
  exists evs used d unused u,
    trace (mk_world 102 None 7%nat
             [Post 0%nat Examples.ews_url])
    = trace Examples.calm ++ evs ++ [Post 0%nat u] /\
    [(Responds (Examples.response_of 200 [] []), 2)]
    = used ++ (Responds (Examples.response_of 200 [] []), d) :: unused /\
    count is_post evs = length used /\
    count is_close evs = length used /\
    0%nat = current_session 0%nat evs /\
    keeps_session evs /\
    (status_code (Examples.response_of 200 [] []) = 200
     \/ (status_code (Examples.response_of 200 [] []) = 500
         /\ is_xml (content (Examples.response_of 200 [] [])) = true)).
Proof.
  apply (@returned_response_is_last Examples.patient
           [(Responds (Examples.response_of 200 [] []), 2)]
           0%nat Examples.ews_url false Examples.calm).
  vm_compute. reflexivity.
Defined.

(** As long as every post reports the OAuth token expired, the call
    refreshes the credentials and posts again at once: after [n] such posts
    it has refreshed [n] times and is about to post once more, having
    neither backed off nor raised nor retired the session. This holds under
    every policy, fail-fast or not and whatever [max_wait]: no count and no
    timeout ends this part of the loop. *)
Theorem token_expiry_never_gives_up (retry_policy : RetryPolicy)
        (script : list (post_outcome * Z)) (session0 : session_t)
        (url0 : str) (allow_redirects : bool) (w : world) :
  Forall (fun od => token_expired (fst od) = true) script ->
  exists w' evs,
    post_ratelimited retry_policy script session0 url0 allow_redirects w
    = (TransportStarved, w') /\
    trace w' = trace w ++ evs /\
    count is_post evs = length script /\
    count is_refresh evs = length script /\
    back_offs evs = [] /\
    keeps_session evs.
Proof.
  intros Hall. unfold post_ratelimited.
  destruct (@retry_loop_token_expired retry_policy allow_redirects (now w)
              script (initial_locals session0 url0) w Hall)
    as [l' [w' [evs [Hloop Hrest]]]].
  exists w', evs. rewrite Hloop. split; [reflexivity | exact Hrest].
Qed.

Lemma token_expiry_never_gives_up_witness :
  exists w' evs,
    post_ratelimited Examples.failing_fast
      [(RaisesTokenExpiredError 1, 5000);
       (Responds (Examples.response_of 401
                    [(U "TokenExpiredError", HStr (U "expired"))] []), 5000)]
      0%nat Examples.ews_url false Examples.calm
    = (TransportStarved, w') /\
    trace w' = trace Examples.calm ++ evs /\
    count is_post evs = 2%nat /\
    count is_refresh evs = 2%nat /\
    back_offs evs = [] /\
    keeps_session evs.
Proof.
  apply (@token_expiry_never_gives_up Examples.failing_fast
           [(RaisesTokenExpiredError 1, 5000);
            (Responds (Examples.response_of 401
                         [(U "TokenExpiredError", HStr (U "expired"))] []),
             5000)]
           0%nat Examples.ews_url false Examples.calm).
  repeat constructor.
Defined.

Section FirstPost.

Variable retry_policy : RetryPolicy.
Variable script : list (post_outcome * Z).
Variable session0 : session_t.
Variable url0 : str.
Variable allow_redirects : bool.
Variable w : world.
Variable d : Z.

(** A first post whose outcome leaves the loop by an exception. *)
Lemma raised_at_once (o : post_outcome) (e : exn) :
  (forall l, received l o = Raise e) ->
  fails_at_once retry_policy ((o, d) :: script) session0 url0
                allow_redirects w e.
Proof.
  intros Hrec. unfold fails_at_once, post_ratelimited.
  rewrite retry_loop_turn.
  destruct (arrive_events (initial_locals session0 url0) w d)
    as [evs0 [Ht Hshape]].
  destruct (arrive (initial_locals session0 url0) w d) as [l1 w1].
  cbn [fst snd initial_locals post_url session] in *.
  rewrite Hrec. cbn [after_loop retire_session].
  eexists _, (evs0 ++ [Post (session l1) url0]), (session l1).
  split; [reflexivity|]. unfold retire_session, log. cbn [trace].
  rewrite Ht, <- !app_assoc.
  split; [reflexivity|].
  destruct Hshape as [->|[t ->]]; repeat split; reflexivity.
Qed.

(** A first post whose response the loop leaves alone and which is no
    useful response. *)
Lemma refused_at_once (o : post_outcome) (r : Response) :
  (forall l, post_url l = url0 -> received l o = Ok r) ->
  _need_new_credentials r = false ->
  (forall total_wait,
      _may_retry_on_error r retry_policy total_wait = Ok false) ->
  (status_code r =? 301) || (status_code r =? 302) = false ->
  (status_code r =? 500)
  && match content r with [] => false | _ => true end
  && is_xml (content r) = false ->
  status_code r <> 200 ->
  fails_at_once retry_policy ((o, d) :: script) session0 url0
                allow_redirects w (_raise_response_errors r retry_policy).
Proof.
  intros Hrec Hcred Hretry Hredirect Hxml H200.
  unfold fails_at_once, post_ratelimited.
  rewrite retry_loop_turn.
  destruct (arrive_events (initial_locals session0 url0) w d)
    as [evs0 [Ht Hshape]].
  destruct (arrive_spec (initial_locals session0 url0) w d)
    as [_ [_ [_ [_ [_ [_ [_ [_ [Hu _]]]]]]]]].
  destruct (arrive (initial_locals session0 url0) w d) as [l1 w1].
  cbn [fst snd initial_locals post_url session] in *.
  rewrite (Hrec l1 Hu), Hcred, Hretry, Hredirect.
  cbn [after_loop]. rewrite Hxml.
  destruct (Z.eqb_spec (status_code r) 200) as [E|_]; [contradiction|].
  cbn [negb].
  eexists _, (evs0 ++ [Post (session l1) url0]), (session l1).
  split; [reflexivity|]. unfold retire_session, log. cbn [trace].
  rewrite Ht, <- !app_assoc.
  split; [reflexivity|].
  destruct Hshape as [->|[t ->]]; repeat split; reflexivity.
Qed.

End FirstPost.

(** Exceptions of [session.post] on the first post. A TLS error ends the
    call at once with [TransportError], under every policy, and a
    [KeyError] for a key other than [www-authenticate] ends it with that
    [KeyError]. Under a fail-fast policy a connection error ends the call
    with the connection error itself, which the dummy response carries in
    its [TimeoutException] header, and a [KeyError] for [www-authenticate]
    ends it with the [TransportError] for an unknown failure. Each time the
    session is retired after the one post. *)
Theorem transport_errors_fatal (retry_policy : RetryPolicy)
        (script : list (post_outcome * Z)) (session0 : session_t)
        (url0 : str) (allow_redirects : bool) (w : world) (d : Z)
        (tag : nat) (key : str) :
  fails_at_once retry_policy ((RaisesTlsError tag, d) :: script) session0
                url0 allow_redirects w (TransportError (TlsFailure tag)) /\
  (str_eqb key (U "www-authenticate") = false ->
   fails_at_once retry_policy ((RaisesKeyError key, d) :: script) session0
                 url0 allow_redirects w (KeyError key)) /\
  (fail_fast retry_policy = true ->
   fails_at_once retry_policy ((RaisesConnectionError tag, d) :: script)
                 session0 url0 allow_redirects w (ConnectionFailure tag) /\
   fails_at_once retry_policy
                 ((RaisesKeyError (U "www-authenticate"), d) :: script)
                 session0 url0 allow_redirects w
                 (TransportError (UnknownFailure 503))).
Proof.
  split; [apply raised_at_once; reflexivity|].
  split.
  - intros Hkey. apply raised_at_once. intros l. cbn [received].
    rewrite Hkey. reflexivity.
  - intros Hff. split.
    + apply (@refused_at_once retry_policy script session0 url0
               allow_redirects w d (RaisesConnectionError tag)
               (DummyResponse url0
                  [(U "TimeoutException", HExc (ConnectionFailure tag))]
                  503)).
      * intros l Hl. unfold received. rewrite Hl. reflexivity.
      * reflexivity.
      * intros total_wait. apply may_retry_fail_fast. exact Hff.
      * reflexivity.
      * reflexivity.
      * discriminate.
    + apply (@refused_at_once retry_policy script session0 url0
               allow_redirects w d (RaisesKeyError (U "www-authenticate"))
               (DummyResponse url0
                  [(U "KeyError", HExc (KeyError (U "www-authenticate")))]
                  503)).
      * intros l Hl. unfold received. rewrite Hl. reflexivity.
      * reflexivity.
      * intros total_wait. apply may_retry_fail_fast. exact Hff.
      * reflexivity.
      * reflexivity.
      * discriminate.
Qed.

Lemma transport_errors_fatal_witness :
  fails_at_once Examples.failing_fast [(RaisesConnectionError 3, 2)]
                0%nat Examples.ews_url false Examples.calm
                (ConnectionFailure 3) /\
  fails_at_once Examples.patient [(RaisesKeyError (U "etag"), 2)]
                0%nat Examples.ews_url false Examples.calm
                (KeyError (U "etag")).
Proof.
  split.
  - apply (@transport_errors_fatal Examples.failing_fast [] 0%nat
             Examples.ews_url false Examples.calm 2 3 []).
    reflexivity.
  - apply (@transport_errors_fatal Examples.patient [] 0%nat
             Examples.ews_url false Examples.calm 2 0%nat (U "etag")).
    reflexivity.
Defined.

(** A response with a status other than 200, 301, 302, 401, 500 and 503
    ends the call at once, under every policy: 502 and 504, say, are never
    retried. Under a fail-fast policy every first response ends the call at
    once, except one with status 200, a redirect, a 401 that reports the
    token expired, and a 500 whose body passes [is_xml]. The call raises
    what [_raise_response_errors] makes of the response and retires the
    session, after the one post. *)
Theorem unexpected_status_fatal (retry_policy : RetryPolicy)
        (script : list (post_outcome * Z)) (session0 : session_t)
        (url0 : str) (allow_redirects : bool) (w : world) (d : Z)
        (r : Response) :
  status_code r <> 200 ->
  retry_status (status_code r) = false
  \/ (fail_fast retry_policy = true /\
      status_code r <> 301 /\ status_code r <> 302 /\
      _need_new_credentials r = false /\
      (status_code r =? 500)
      && match content r with [] => false | _ => true end
      && is_xml (content r) = false) ->
  fails_at_once retry_policy ((Responds r, d) :: script) session0 url0
                allow_redirects w (_raise_response_errors r retry_policy).
Proof.
  intros H200 Hcase. apply refused_at_once; auto.
  - destruct Hcase as [Hno|[_ [_ [_ [Hcred _]]]]]; [|exact Hcred].
    unfold _need_new_credentials, retry_status in *.
    destruct (status_code r =? 401); [|reflexivity].
    rewrite !orb_true_r in Hno. discriminate.
  - intros total_wait. destruct Hcase as [Hno|[Hff _]].
    + unfold _may_retry_on_error. rewrite Hno. reflexivity.
    + apply may_retry_fail_fast. exact Hff.
  - destruct Hcase as [Hno|[_ [H301 [H302 _]]]].
    + unfold retry_status in Hno.
      destruct (status_code r =? 301); [discriminate|].
      destruct (status_code r =? 302); [discriminate|]. reflexivity.
    + destruct (Z.eqb_spec (status_code r) 301); [contradiction|].
      destruct (Z.eqb_spec (status_code r) 302); [contradiction|].
      reflexivity.
  - destruct Hcase as [Hno|[_ [_ [_ [_ Hxml]]]]]; [|exact Hxml].
    unfold retry_status in Hno.
    destruct (status_code r =? 500); [|reflexivity].
    rewrite !orb_true_r in Hno. cbn in Hno.
    destruct (status_code r =? 301), (status_code r =? 302),
      (status_code r =? 401); discriminate.
Qed.

Lemma unexpected_status_fatal_witness :
  fails_at_once Examples.patient
                [(Responds (Examples.response_of 502 [] []), 2)]
                0%nat Examples.ews_url false Examples.calm
                (_raise_response_errors (Examples.response_of 502 [] [])
                                        Examples.patient) /\
  fails_at_once Examples.failing_fast
                [(Responds (Examples.response_of 503 [] []), 2)]
                0%nat Examples.ews_url false Examples.calm
                (_raise_response_errors (Examples.response_of 503 [] [])
                                        Examples.failing_fast).
Proof.
  split.
  - apply (@unexpected_status_fatal Examples.patient [] 0%nat
             Examples.ews_url false Examples.calm 2
             (Examples.response_of 502 [] [])).
    + discriminate.
    + left. reflexivity.
  - apply (@unexpected_status_fatal Examples.failing_fast [] 0%nat
             Examples.ews_url false Examples.calm 2
             (Examples.response_of 503 [] [])).
    + discriminate.
    + right. repeat split; discriminate.
Defined.

(** In any call of [post_ratelimited] the URL posted to changes at most
    [MAX_REDIRECTS] times, whatever the transport answers: a call follows
    at most 10 redirects. Without [allow_redirects] every post goes to the
    URL the call was given. *)
Theorem redirects_followed_capped (retry_policy : RetryPolicy)
        (script : list (post_outcome * Z)) (session0 : session_t)
        (url0 : str) (allow_redirects : bool) (w : world) :
  exists evs,
    trace (snd (post_ratelimited retry_policy script session0 url0
                                 allow_redirects w))
    = trace w ++ evs /\
    Z.of_nat (url_changes url0 evs) <= MAX_REDIRECTS /\
    (allow_redirects = false -> url_changes url0 evs = 0%nat).
Proof.
  unfold post_ratelimited.
  destruct (Executor.retry_loop retry_policy allow_redirects (now w) script
                       (initial_locals session0 url0) w)
    as [[ex l1] w1] eqn:E.
  assert (Hmax : redirects (initial_locals session0 url0) <= MAX_REDIRECTS)
    by (cbn; unfold MAX_REDIRECTS; lia).
  destruct (@retry_loop_redirects _ _ _ _ _ _ _ _ _ Hmax E)
    as [evs [Ht [Hb Hn]]].
  cbn [initial_locals post_url redirects] in Hb, Hn.
  assert (Hdone : forall evs2 tr,
             (forall u, url_changes u evs2 = 0%nat) ->
             tr = trace w1 ++ evs2 ->
             exists evs0,
               tr = trace w ++ evs0 /\
               Z.of_nat (url_changes url0 evs0) <= MAX_REDIRECTS /\
               (allow_redirects = false ->
                url_changes url0 evs0 = 0%nat)).
  { intros evs2 tr Hz ->. exists (evs ++ evs2).
    rewrite Ht, <- app_assoc, url_changes_app, Hz, Nat.add_0_r.
    split; [reflexivity|]. split; [lia | exact Hn]. }
  unfold after_loop. destruct ex as [r|e|].
  - destruct ((status_code r =? 500)
              && match content r with [] => false | _ => true end
              && is_xml (content r)).
    + apply (Hdone []); [reflexivity | cbn; rewrite app_nil_r; reflexivity].
    + destruct (negb (status_code r =? 200)).
      * apply (Hdone [RetireSession (session l1)]); reflexivity.
      * apply (Hdone []);
          [reflexivity | cbn; rewrite app_nil_r; reflexivity].
  - apply (Hdone [RetireSession (session l1)]); reflexivity.
  - apply (Hdone []); [reflexivity | cbn; rewrite app_nil_r; reflexivity].
Qed.

End ExecutorInvariants.

(** ** What the streaming parser decodes *)

Module StreamingBase64ParserInvariants.
Import StreamingBase64Parser ParserText StreamingBase64ParserFacts.

Section Text.

Variable b64decode : str -> option bytes.
Variable expat : Type.
Variable expat_reset : expat.
Variable expat_feed : expat -> bytes -> bool -> expat * list sax_event * bool.
Variable target : ns_name.

Local Abbreviation handle := (handle target).
Local Abbreviation parse_loop := (parse_loop b64decode expat_feed target).
Local Abbreviation parse := (parse b64decode expat_reset expat_feed target).
Local Abbreviation sax_events := (sax_events expat_feed).

(** The handlers never read the buffer: what is in it stays in front. *)
Lemma handle_buffer (pre : list str) (st : state) (ev : sax_event) :
  handle (mk_state (pre ++ buffer st) (element_found st) (_parsing st)) ev
  = mk_state (pre ++ buffer (handle st ev))
             (element_found (handle st ev)) (_parsing (handle st ev)).
Proof.
  destruct ev as [name|name|content]; cbn [StreamingBase64Parser.handle].
  - unfold startElementNS. destruct (ns_name_eqb name target); reflexivity.
  - unfold endElementNS. destruct (ns_name_eqb name target); reflexivity.
  - unfold characters. cbn [_parsing buffer element_found].
    destruct (_parsing st) eqn:Ep; cbn [negb _parsing buffer element_found].
    + rewrite app_assoc. reflexivity.
    + rewrite Ep. reflexivity.
Qed.

Lemma fold_handle_buffer (pre : list str) (evs : list sax_event) :
  forall st,
    fold_left handle evs
              (mk_state (pre ++ buffer st) (element_found st) (_parsing st))
    = mk_state (pre ++ buffer (fold_left handle evs st))
               (element_found (fold_left handle evs st))
               (_parsing (fold_left handle evs st)).
Proof.
  induction evs as [|ev evs IH]; intros st; [reflexivity|].
  cbn [fold_left]. rewrite handle_buffer. apply IH.
Qed.

(** Flushing between the chunks loses and reorders nothing: the text the
    handler would have gathered without the flushes is made of the pieces
    decoded, in order, and what is left in the buffer. *)
Lemma parse_loop_text :
  forall (reads : list bytes) (st : state) (x : expat)
         (collected : bytes) ys st' x' collected',
    parse_loop reads st x collected = (ys, Ok (st', x', collected')) ->
    exists pieces,
      concat (buffer (fold_left handle
                                (fst (sax_events x (chunks_read reads))) st))
      = concat pieces ++ concat (buffer st') /\
      Forall (fun p : str => (length p mod 4 = 0)%nat /\ p <> []) pieces /\
      map b64decode pieces = map Some ys /\
      ((length (concat (buffer st')) < 4)%nat \/ st' = st) /\
      _parsing st'
      = _parsing (fold_left handle
                            (fst (sax_events x (chunks_read reads))) st).
Proof.
  induction reads as [|buf reads IH];
    intros st x collected ys st' x' collected' H.
  - cbn in H. inversion H; subst. exists []. cbn. auto 6.
  - destruct buf as [|b0 buf].
    + cbn in H. inversion H; subst. exists []. cbn. auto 6.
    + cbn [chunks_read StreamingBase64Parser.sax_events].
      cbn [StreamingBase64Parser.parse_loop] in H. unfold feed in H.
      destruct (expat_feed x (b0 :: buf) false) as [[x1 evs1] failed].
      destruct failed; [discriminate|].
      set (st1 := fold_left handle evs1 st) in *.
      unfold _decode_buffer in H.
      destruct (_decode_buffer_loop b64decode (buffer st1) [])
        as [ys1 [r|]] eqn:Eloop; cbn [option_map] in H; [|discriminate].
      set (buf' := match r with [] => [] | _ :: _ => [r] end) in *.
      set (st2 := mk_state buf' (element_found st1) (_parsing st1)) in *.
      match type of H with
      | context [parse_loop reads st2 x1 ?c] =>
          destruct (parse_loop reads st2 x1 c) as [ys2 res2] eqn:E
      end.
      destruct res2 as [[[st3 x3] c3]|e]; [|discriminate].
      inversion H; subst ys st3 x3 c3. clear H.
      destruct (IH _ _ _ _ _ _ _ E)
        as [pieces2 [Hc2 [Hf2 [Hm2 [Hr2 Hp2]]]]].
      destruct (decode_loop_pieces _ _ _ Eloop)
        as [pieces1 [Hc1 [Hf1 [Hm1 Hr1]]]].
      cbn [app] in Hc1.
      assert (Hbuf' : concat buf' = r).
      { unfold buf'. destruct r; [reflexivity|]. cbn.
        rewrite app_nil_r. reflexivity. }
      destruct (sax_events x1 (chunks_read reads)) as [evs2 f2].
      cbn [fst] in *. rewrite fold_left_app. fold st1.
      pose proof (fold_handle_buffer (buffer st1) evs2
                    (mk_state [] (element_found st1) (_parsing st1)))
        as Hfull.
      pose proof (fold_handle_buffer buf' evs2
                    (mk_state [] (element_found st1) (_parsing st1)))
        as Hpart.
      cbn [buffer element_found _parsing] in Hfull, Hpart.
      rewrite !app_nil_r in Hfull, Hpart.
      replace (mk_state (buffer st1) (element_found st1) (_parsing st1))
        with st1 in Hfull by (destruct st1; reflexivity).
      fold st2 in Hpart.
      rewrite Hpart in Hc2, Hp2. cbn [buffer _parsing] in Hc2, Hp2.
      rewrite concat_app, Hbuf' in Hc2.
      exists (pieces1 ++ pieces2).
      rewrite Hfull. cbn [buffer _parsing].
      rewrite !concat_app, Hc1, <- !app_assoc, Hc2.
      split; [reflexivity|].
      split; [apply Forall_app; split; assumption|].
      split; [rewrite !map_app; f_equal; assumption|].
      split; [|exact Hp2].
      left. destruct Hr2 as [Hlt | ->]; [exact Hlt|].
      unfold st2. cbn [buffer]. rewrite Hbuf'.
      destruct Hr1 as [Hlt | ->]; [exact Hlt | cbn; lia].
Qed.

(** The events of the final call that the handler survives add nothing
    to the text. *)
Lemma close_events_buffer :
  forall (evs : list sax_event) (st st' stl : state),
    close_events target st evs = Some st' ->
    _parsing stl = _parsing st ->
    buffer (fold_left handle evs stl) = buffer stl.
Proof.
  induction evs as [|ev evs IH]; intros st st' stl H Hp; [reflexivity|].
  cbn [close_events] in H.
  destruct (handle_closed target st ev) as [st1|] eqn:E; [|discriminate].
  cbn [fold_left].
  assert (Hstep : buffer (handle stl ev) = buffer stl
                  /\ _parsing (handle stl ev) = _parsing st1).
  { destruct ev as [name|name|content];
      cbn [handle_closed StreamingBase64Parser.handle] in *.
    - inversion E. unfold startElementNS.
      destruct (ns_name_eqb name target); cbn; auto.
    - inversion E. unfold endElementNS.
      destruct (ns_name_eqb name target); cbn; auto.
    - unfold characters. rewrite Hp.
      destruct (_parsing st) eqn:Eq; [discriminate|].
      inversion E; subst st1. cbn. rewrite Eq. auto. }
  destruct Hstep as [Hb Hp1].
  rewrite (IH _ _ _ H Hp1). exact Hb.
Qed.


End Text.

(** When [parse] ends normally, what it has yielded is the text of the
    target element decoded piece by piece, up to the last multiple of 4
    characters: the text, as the tokenizer reports it over the chunks and
    at the final call, is the pieces decoded, each of a length that is a
    multiple of 4, followed by a tail of [len(text) % 4] characters that is
    dropped without being decoded or padded. When the text without this
    tail holds nothing but characters of the base64 alphabet before its
    last four characters, the chunks yielded add up to its decoding, for a
    decoder that is additive on such input, as [b64decode] is. *)
Theorem parse_decodes_aligned_prefix
        (b64decode : str -> option bytes) (expat : Type)
        (expat_reset : expat)
        (expat_feed : expat -> bytes -> bool -> expat * list sax_event * bool)
        (target : ns_name) (reads : list bytes) (ys : list bytes) :
  parse b64decode expat_reset expat_feed target reads = (ys, Ok tt) ->
  let evs := fst (sax_events expat_feed expat_reset (chunks_read reads)) in
  let evs_close :=
    snd (fst (expat_feed
                (expat_after expat_feed expat_reset (chunks_read reads))
                [] true)) in
  let text := collected_text target (evs ++ evs_close) in
  let prefix := firstn (length text - length text mod 4) text in
  exists pieces dropped,
    text = concat pieces ++ dropped /\
    length dropped = (length text mod 4)%nat /\
    Forall (fun p : str => (length p mod 4 = 0)%nat /\ p <> []) pieces /\
    map b64decode pieces = map Some ys /\
    (additive b64decode ->
     Base64.plain (firstn (length prefix - 4) prefix) = true ->
     b64decode prefix = Some (concat ys)).
Proof.
  intros H. unfold parse in H.
  destruct (parse_loop b64decode expat_feed target reads
              (mk_state [] false false) expat_reset [])
    as [ys0 [[[st' x'] c']|e]] eqn:E; [|discriminate].
  pose proof (parse_loop_outcome _ _ _ _ _ _ _ E) as [Hx _].
  subst x'.
  assert (Hsome : match reads with
                  | [] | [] :: _ => False
                  | _ => True
                  end)
    by (destruct reads as [|[|b0 buf] reads']; [discriminate.. | exact I]).
  destruct (expat_feed
              (expat_after expat_feed expat_reset (chunks_read reads))
              [] true) as [[x1 evs1] f1] eqn:Ef.
  assert (Hclose : match close_events target st' evs1 with
                   | Some st2 => True
                   | None => False
                   end /\ ys0 = ys).
  { destruct reads as [|[|b0 buf] reads']; try contradiction.
    destruct (close_events target st' evs1) as [st2|];
      [|discriminate].
    destruct f1; [discriminate|].
    destruct (negb (element_found st2)); [discriminate|].
    inversion H. auto. }
  destruct Hclose as [Hclose ->]. clear H.
  destruct (close_events target st' evs1) as [st2|] eqn:Ec;
    [|contradiction].
  intros evs evs_close text prefix.
  change evs_close with evs1 in text.
  destruct (parse_loop_text _ _ _ _ _ _ _ E)
    as [pieces [Hc [Hf [Hm [Hr Hp]]]]].
  change (mk_state [] false false) with idle in Hc, Hp.
  fold evs in Hc, Hp.
  assert (Htext : text = concat (buffer (fold_left (handle target) evs
                                                   idle))).
  { unfold text, collected_text. rewrite fold_left_app.
    rewrite (@close_events_buffer target evs1 st' st2
               (fold_left (handle target) evs idle) Ec);
      [reflexivity|].
    symmetry. exact Hp. }
  rewrite <- Htext in Hc.
  assert (Hlen : (length (concat (buffer st')) < 4)%nat).
  { destruct Hr as [Hlt | ->]; [exact Hlt | cbn; lia]. }
  pose proof (aligned_concat Hf) as Hal.
  assert (Hmod : length (concat (buffer st')) = (length text mod 4)%nat).
  { rewrite Hc, length_app, Nat.Div0.add_mod, Hal, Nat.add_0_l.
    rewrite Nat.Div0.mod_mod. symmetry. apply Nat.mod_small. exact Hlen. }
  assert (Hpre : prefix = concat pieces).
  { unfold prefix. rewrite <- Hmod, Hc, length_app.
    replace (length (concat pieces) + length (concat (buffer st'))
             - length (concat (buffer st')))%nat
    with (length (concat pieces) + 0)%nat by lia.
    rewrite firstn_app_2. cbn. apply app_nil_r. }
  exists pieces, (concat (buffer st')).
  split; [exact Hc|]. split; [exact Hmod|].
  split; [exact Hf|]. split; [exact Hm|].
  intros A Hplain. rewrite Hpre in *.
  apply additive_concat; auto. apply plain_pieces; assumption.
Qed.

Lemma parse_decodes_aligned_prefix_witness :
  collected_text Examples.content_element
    (fst (sax_events MiniExpat.feed MiniExpat.reset
            (chunks_read [B "<a><Content>aGVsb"; B "G8hIQ</Content></a>"])))
  = U "aGVsbG8hIQ" /\
  parse Base64.b64decode MiniExpat.reset MiniExpat.feed
        Examples.content_element
        [B "<a><Content>aGVsb"; B "G8hIQ</Content></a>"]
  = ([B "hel"; B "lo!"], Ok tt) /\
  Base64.b64decode (U "aGVsbG8h") = Some (B "hello!").
Proof.
  destruct (@parse_decodes_aligned_prefix Base64.b64decode MiniExpat.t
              MiniExpat.reset MiniExpat.feed Examples.content_element
              [B "<a><Content>aGVsb"; B "G8hIQ</Content></a>"]
              [B "hel"; B "lo!"] eq_refl)
    as [pieces [dropped [_ [_ [_ [_ Hadd]]]]]].
  split; [reflexivity|]. split; [reflexivity|].
  exact (Hadd b64decode_additive eq_refl).
Defined.

End StreamingBase64ParserInvariants.

(** ** Properties of recurrence.py *)

Module RecurrenceFacts.
Import Recurrence.
Local Open Scope Z_scope.

Lemma getitem_inside (A : Type) (xs : list A) (i : Z) :
  0 <= i < Z.of_nat (length xs) ->
  getitem xs i = nth_error xs (Z.to_nat i).
Proof.
  intros H. unfold getitem.
  destruct (Z.leb_spec 0 i); [|lia].
  destruct (Z.ltb_spec i (Z.of_nat (length xs))); [|lia]. reflexivity.
Qed.

Lemma nth_error_last (A : Type) (xs : list A) (d : A) :
  xs <> [] -> nth_error xs (length xs - 1) = Some (last xs d).
Proof.
  induction xs as [|x xs IH]; intros H; [contradiction|].
  destruct xs as [|y xs]; [reflexivity|].
  replace (length (x :: y :: xs) - 1)%nat
    with (S (length (y :: xs) - 1)) by (cbn [length]; lia).
  cbn [nth_error]. rewrite IH by discriminate. reflexivity.
Qed.

(** [_month_to_str] on a tuple of names. A number from 1 to the length of
    the tuple gives the name at that place, and a name is returned as it
    is, so that the function is idempotent. The number 0 does not fail: it
    gives the last name of the tuple. A number above the length of the
    tuple, or at or below minus the length, is an [IndexError].
    [_weekday_to_str] and [_week_number_to_str] are the same function on
    their tuples. *)
Theorem month_to_str_spec (MONTHS : list str) (month : enum_value) :
  (forall i, month = EInt i -> 1 <= i <= Z.of_nat (length MONTHS) ->
             exists name,
               nth_error MONTHS (Z.to_nat (i - 1)) = Some name /\
               _month_to_str MONTHS month = Some (EStr name)) /\
  (month = EInt 0 -> MONTHS <> [] ->
   _month_to_str MONTHS month = Some (EStr (last MONTHS []))) /\
  (forall i, month = EInt i ->
             i > Z.of_nat (length MONTHS) \/ i <= - Z.of_nat (length MONTHS) ->
             _month_to_str MONTHS month = None) /\
  (forall name, _month_to_str MONTHS month = Some name ->
                _month_to_str MONTHS name = Some name) /\
  _weekday_to_str MONTHS month = _month_to_str MONTHS month /\
  _week_number_to_str MONTHS month = _month_to_str MONTHS month.
Proof.
  split; [|split; [|split; [|split; [|split; reflexivity]]]].
  - intros i -> Hi. cbn [_month_to_str].
    rewrite getitem_inside by lia.
    destruct (nth_error MONTHS (Z.to_nat (i - 1))) as [name|] eqn:E.
    + exists name. split; reflexivity.
    + apply nth_error_None in E. lia.
  - intros -> Hne. cbn [_month_to_str]. unfold getitem.
    assert (Hlen : (0 < length MONTHS)%nat)
      by (destruct MONTHS; [contradiction | cbn; lia]).
    change (0 - 1) with (-1).
    destruct (Z.leb_spec 0 (-1)); [lia|]. cbn [andb].
    destruct (Z.leb_spec (- Z.of_nat (length MONTHS)) (-1)); [|lia].
    cbn [andb].
    replace (Z.to_nat (-1 + Z.of_nat (length MONTHS)))
      with (length MONTHS - 1)%nat by lia.
    change (-1 <? 0) with true. cbv iota.
    rewrite (@nth_error_last str MONTHS [] Hne). reflexivity.
  - intros i -> Hi. cbn [_month_to_str]. unfold getitem.
    destruct Hi as [Hi|Hi].
    + destruct (Z.ltb_spec (i - 1) (Z.of_nat (length MONTHS))); [lia|].
      rewrite andb_false_r.
      destruct (Z.ltb_spec (i - 1) 0); [lia|].
      rewrite andb_false_r. reflexivity.
    + destruct (Z.leb_spec 0 (i - 1)); [lia|]. cbn [andb].
      destruct (Z.leb_spec (- Z.of_nat (length MONTHS)) (i - 1)); [lia|].
      reflexivity.
  - intros name H. destruct month as [i|s]; cbn [_month_to_str] in H.
    + destruct (getitem MONTHS (i - 1)); [|discriminate].
      inversion H. reflexivity.
    + inversion H. reflexivity.
Qed.

Lemma month_to_str_spec_witness :
  _month_to_str (map U ["January"; "February"; "March"]%string) (EInt 2)
  = Some (EStr (U "February")) /\
  _month_to_str (map U ["January"; "February"; "March"]%string) (EInt 0)
  = Some (EStr (U "March")) /\
  _month_to_str (map U ["January"; "February"; "March"]%string) (EInt 4)
  = None.
Proof.
  split; [|split].
  - destruct (@month_to_str_spec
                (map U ["January"; "February"; "March"]%string) (EInt 2))
      as [H _].
    destruct (H 2 eq_refl) as [name [Hn Hm]]; [cbn; lia|].
    rewrite Hm. cbn in Hn. inversion Hn. reflexivity.
  - destruct (@month_to_str_spec
                (map U ["January"; "February"; "March"]%string) (EInt 0))
      as [_ [H _]].
    rewrite H; [reflexivity | reflexivity | discriminate].
  - destruct (@month_to_str_spec
                (map U ["January"; "February"; "March"]%string) (EInt 4))
      as [_ [_ [H _]]].
    apply (H 4 eq_refl). left. cbn. lia.
Defined.

(** The boundary shortcut of [Recurrence.__init__]. When the call accepts
    its arguments, either none of [start], [end] and [number] was given and
    the keyword arguments are handed on as they are, or [start] was given,
    there was no [boundary] keyword, and the boundary added records the
    start, the end and the number given, none lost and none made up. The
    call raises, always [ValueError], exactly when something was given and
    a [boundary] keyword is present (even with value [None]), or [start] is
    missing, or both [end] and [number] were given. A [number] of 0 counts
    as not given: with a start it makes a recurrence without end. *)
Theorem boundary_shortcut (date pattern : Type)
        (kw : kwargs date pattern) (start end_ : option date)
        (number : option Z) :
  (forall kw', __init__ kw start end_ number = Ok kw' ->
     (start = None /\ end_ = None /\ number_given number = None /\ kw' = kw)
     \/ (exists s b,
           start = Some s /\
           has_key (U "boundary") kw = false /\
           kw' = kw ++ [(U "boundary", VBoundary pattern b)] /\
           boundary_start b = s /\
           boundary_end b = end_ /\
           boundary_number b = number_given number)) /\
  (forall e, __init__ kw start end_ number = Raise e ->
     e = ValueError /\
     (start <> None \/ end_ <> None \/ number_given number <> None) /\
     (has_key (U "boundary") kw = true
      \/ start = None
      \/ (end_ <> None /\ number_given number <> None))) /\
  __init__ kw start end_ (Some 0) = __init__ kw start end_ None.
Proof.
  split; [|split; [|reflexivity]].
  - intros kw' H. unfold __init__ in H.
    destruct start as [s|], end_ as [e|], (number_given number) as [n|];
      try (destruct (has_key (U "boundary") kw) eqn:Ek; [discriminate|]);
      try discriminate;
      inversion H; subst kw';
      try (left; repeat split; reflexivity);
      right; eexists _, _; repeat split; try reflexivity; auto.
  - intros e H. unfold __init__ in H.
    destruct start as [s|], end_ as [e0|], (number_given number) as [n|];
      try discriminate;
      destruct (has_key (U "boundary") kw) eqn:Ek;
      try discriminate;
      inversion H; subst e;
      (split; [reflexivity|]);
      (split;
       [first [left; discriminate | right; left; discriminate
              | right; right; discriminate]|]);
      first [left; reflexivity
            | right; left; reflexivity
            | right; right; split; discriminate].
Qed.

Lemma boundary_shortcut_witness :
  __init__ ([] : kwargs Z nat) (Some 20260101) None (Some 0)
  = Ok [(U "boundary", VBoundary nat (NoEndPattern 20260101))] /\
  __init__ [(U "boundary", VNone Z nat)] (Some 20260101) None None
  = Raise ValueError.
Proof.
  destruct (@boundary_shortcut Z nat [] (Some 20260101) None (Some 0))
    as [Hok [_ Hzero]].
  destruct (@boundary_shortcut Z nat [(U "boundary", VNone Z nat)]
              (Some 20260101) None None) as [_ [Hraise _]].
  split.
  - rewrite Hzero.
    destruct (Hok [(U "boundary", VBoundary nat (NoEndPattern 20260101))])
      as [[Hs _]|[s [b [_ [_ [Hkw _]]]]]].
    + rewrite Hzero. reflexivity.
    + discriminate Hs.
    + reflexivity.
  - destruct (Hraise ValueError) as [_ _]; reflexivity.
Defined.

End RecurrenceFacts.
